(** * hf_transformers_go: the inference generation engine

    A shallow embedding of the Go package [transformers]: the IO schema
    resolver ([types.go]), the tensor helpers ([tensor_helpers.go]), the
    decoding loop ([model.go]) and the option handling of the pipeline
    facade ([hub.go]).

    Conventions.
    - Go [int] and [int64] are [Z]; arithmetic that can wrap is written
      with [wrap64].
    - Go strings are byte strings: [string] (a list of 8-bit [ascii]).
    - [float32] and [float64] are abstract: the code only compares
      float32 values and converts float64 values to [int].
    - The ONNX runtime is external.  Its observable behaviour is an
      oracle ([OrtEnv], [DynamicAdvancedSession]); its effects (tensor
      construction, destruction, graph runs) are recorded in an explicit
      [World] threaded through the code.
    - A Go [error] is a value of the enumeration [error]; formatted
      messages are kept as constructors with their arguments. *)

From Stdlib Require Import ZArith String Ascii DecimalString DecimalPos Lia.
From stdpp Require Import gmap strings list.

Open Scope Z_scope.

(** ** Machine integers *)

Definition wrap64 (z : Z) : Z := (z + 2 ^ 63) mod 2 ^ 64 - 2 ^ 63.

(** ** Strings (package [strings] and [fmt]) *)

(** [strings.HasPrefix(s, prefix)]. *)
Fixpoint HasPrefix (s pre : string) {struct pre} : bool :=
  match pre with
  | EmptyString => true
  | String c pre' =>
      match s with
      | EmptyString => false
      | String d s' => Ascii.eqb c d && HasPrefix s' pre'
      end
  end.

(** [strings.Index(s, substr)]: byte index of the first instance of
    [substr] in [s], or -1. *)
Fixpoint Index_from (s substr : string) (i : Z) : Z :=
  if HasPrefix s substr then i
  else match s with
       | EmptyString => -1
       | String _ s' => Index_from s' substr (i + 1)
       end.

Definition Index (s substr : string) : Z := Index_from s substr 0.

(** [strings.Contains(s, substr)]. *)
Definition Contains (s substr : string) : bool := 0 <=? Index s substr.

(** The slice expression [s[:n]] for [0 <= n <= len(s)]. *)
Fixpoint slice_to (s : string) (n : nat) : string :=
  match n, s with
  | S n', String c s' => String c (slice_to s' n')
  | _, _ => EmptyString
  end.

(** [fmt.Sprintf("%d", i)] for a non-negative index. *)
Definition itoa (i : nat) : string := NilEmpty.string_of_uint (Nat.to_uint i).

(** The slice expression [s[n:]]. *)
Fixpoint slice_from (s : string) (n : nat) : string :=
  match n, s with
  | S n', String _ s' => slice_from s' n'
  | _, _ => s
  end.

(** [sub] occurs in [s] at byte offset [k], and at no smaller offset. *)
Definition first_occurrence (s sub : string) (k : nat) : Prop :=
  (k <= String.length s)%nat
  /\ s = slice_to s k +:+ sub +:+ slice_from s (k + String.length sub)
  /\ forall j, (j < k)%nat -> HasPrefix (slice_from s j) sub = false.

(** ** Errors and results *)

Inductive error : Type :=
| ErrLfm2ConfigNil
| ErrUnsupportedLayerType (t : string)
| ErrTokenizerNil
| ErrSessionNil
| ErrBatchSize
| ErrNewTensor (cause : string)
| ErrCreateInputIds (cause : error)
| ErrCreateAttentionMask (cause : error)
| ErrCreatePositionIds (cause : error)
| ErrUnsupportedInputName (name : string)
| ErrRun (cause : string)
| ErrLogitsMissing
| ErrLogitsNotFloat32
| ErrLogitsShape (shape : list Z)
| ErrDecode (cause : string).

(** What a Go call yields: a value, an [error], or a run-time panic. *)
Inductive res (A : Type) : Type :=
| Ok (a : A)
| Err (e : error)
| Panic.
Arguments Ok {A} a.
Arguments Err {A} e.
Arguments Panic {A}.

(** ** Model configuration ([Config], accessors) *)

Record Config := {
  modelType : string;
  vocabSize : Z;
  eosTokenID : Z;
  bosTokenID : Z;
  padTokenID : Z;
  numHiddenLayers : Z;
  numAttentionHeads : Z;
  numKeyValueHeads : Z;
  hiddenSize : Z;
  convLCache : Z;
  layerTypes : list string;
  stopStrings : list string
}.

Definition EOS_TOKEN_ID (c : Config) : Z := eosTokenID c.
Definition LayerTypes (c : Config) : list string := layerTypes c.
Definition StopStrings (c : Config) : list string := stopStrings c.

(** ** IO schema resolver ([types.go]) *)

Inductive IOPreset := IOPresetAuto | IOPresetSimpleCausal | IOPresetLFM2.

Definition simpleCausalIONames : res (list string * list string) :=
  Ok (["input_ids"; "attention_mask"]%string, ["logits"]%string).

(** The first loop of [lfm2IONames]: one pass over the layer types,
    appending to [inputs]. *)
Fixpoint lfm2_layer_loop (layerIdx : nat) (ts : list string)
    (inputs : list string) : res (list string) :=
  match ts with
  | [] => Ok inputs
  | t :: ts' =>
      if String.eqb t "full_attention" then
        lfm2_layer_loop (S layerIdx) ts'
          (inputs ++ [ ("past_key_values." +:+ itoa layerIdx +:+ ".key")%string;
                       ("past_key_values." +:+ itoa layerIdx +:+ ".value")%string ])
      else if String.eqb t "conv" then
        lfm2_layer_loop (S layerIdx) ts'
          (inputs ++ [ ("past_conv." +:+ itoa layerIdx)%string ])
      else Err (ErrUnsupportedLayerType t)
  end.

Definition is_core_name (name : string) : bool :=
  String.eqb name "input_ids" || String.eqb name "attention_mask"
  || String.eqb name "position_ids".

(** The second loop of [lfm2IONames]: one pass over [inputs], appending
    to [outputs]. *)
Fixpoint lfm2_output_loop (inputs outputs : list string) : list string :=
  match inputs with
  | [] => outputs
  | name :: rest =>
      if is_core_name name then lfm2_output_loop rest outputs
      else lfm2_output_loop rest (outputs ++ [("present." +:+ name)%string])
  end.

Definition lfm2IONames (cfg : option Config) : res (list string * list string) :=
  match cfg with
  | None => Err ErrLfm2ConfigNil
  | Some c =>
      match lfm2_layer_loop 0 (LayerTypes c)
              ["input_ids"; "attention_mask"; "position_ids"]%string with
      | Ok inputs => Ok (inputs, lfm2_output_loop inputs ["logits"%string])
      | Err e => Err e
      | Panic => Panic
      end
  end.

(** ** Floating point, kept abstract

    [argmaxF32] only compares float32 values with [>]; the pipeline only
    converts a float64 option value with [int(t)]. *)

Class FloatModel := {
  float32 : Type;
  f32_zero : float32;
  f32_gt : float32 -> float32 -> bool;
  float64 : Type;
  f64_to_int : float64 -> Z
}.

(** ** The execution engine ([onnxruntime_go]) as a recording oracle *)

Inductive TensorElementDataType :=
| TensorElementDataTypeUndefined
| TensorElementDataTypeFloat
| TensorElementDataTypeUint8
| TensorElementDataTypeInt8
| TensorElementDataTypeUint16
| TensorElementDataTypeInt16
| TensorElementDataTypeInt32
| TensorElementDataTypeInt64
| TensorElementDataTypeString
| TensorElementDataTypeBool
| TensorElementDataTypeFloat16
| TensorElementDataTypeDouble
| TensorElementDataTypeUint32
| TensorElementDataTypeUint64.

Record InputOutputInfo := {
  Name : string;
  Dimensions : list Z;
  DataType : TensorElementDataType
}.

Section Engine.
Context {FM : FloatModel}.

(** The contents of an [onnx.Value], without its identity. *)
Inductive TensorSpec :=
| SpecInt64 (shape : list Z) (data : list Z)
| SpecFloat32 (shape : list Z) (data : list float32)
| SpecOther.

(** An [onnx.Value]: a handle (its identity, for [Destroy]) and contents. *)
Record Value := { handle : nat; spec : TensorSpec }.

(** Package-level behaviour of the runtime: whether the [n]-th call of
    [onnx.NewTensor] (counted from 0 in this [World]) fails. *)
Record OrtEnv := {
  NewTensor_err : nat -> TensorSpec -> option string
}.

(** A loaded graph: what the [n]-th [Run] yields on the given inputs,
    an error or one (possibly nil) value per output slot. *)
Record DynamicAdvancedSession := {
  Run_result : nat -> list (option TensorSpec) -> string + (nat -> option TensorSpec)
}.

(** Effects of a call on the engine, as a release-counting double
    records them. *)
Record World := {
  next_handle : nat;
  built : list nat;         (* handles of tensors made by tensorFrom*     *)
  allocated : list nat;     (* handles of outputs allocated by Run        *)
  destroyed : list nat;     (* handles passed to Destroy, in call order   *)
  attempts : nat;           (* calls of onnx.NewTensor                    *)
  runs : nat                (* calls of session.Run                       *)
}.

Definition world0 : World :=
  {| next_handle := 0; built := []; allocated := []; destroyed := [];
     attempts := 0; runs := 0 |}.

(** Computations on the engine. *)
Definition M (A : Type) : Type := World -> res A * World.

Definition ret {A} (a : A) : M A := fun w => (Ok a, w).
Definition fail {A} (e : error) : M A := fun w => (Err e, w).
Definition panic {A} : M A := fun w => (Panic, w).

Definition bind {A B} (c : M A) (k : A -> M B) : M B :=
  fun w => match c w with
           | (Ok a, w') => k a w'
           | (Err e, w') => (Err e, w')
           | (Panic, w') => (Panic, w')
           end.

(** [if err != nil { handler }] around a call. *)
Definition on_err {A B} (c : M A) (handler : error -> M B) (k : A -> M B) : M B :=
  fun w => match c w with
           | (Ok a, w') => k a w'
           | (Err e, w') => handler e w'
           | (Panic, w') => (Panic, w')
           end.

Notation "'let*' x ':=' c 'in' k" := (bind c (fun x => k))
  (at level 10, x name, c at level 100, k at level 200).
Notation "'do' c 'then' k" := (bind c (fun _ => k))
  (at level 10, c at level 100, k at level 200).

Variable ort : OrtEnv.

(** [onnx.NewTensor(onnx.NewShape(shape...), data)]. *)
Definition NewTensor (s : TensorSpec) : M Value :=
  fun w =>
    let w1 := {| next_handle := next_handle w; built := built w;
                 allocated := allocated w; destroyed := destroyed w;
                 attempts := S (attempts w); runs := runs w |} in
    match NewTensor_err ort (attempts w) s with
    | Some cause => (Err (ErrNewTensor cause), w1)
    | None =>
        (Ok {| handle := next_handle w; spec := s |},
         {| next_handle := S (next_handle w);
            built := built w ++ [next_handle w];
            allocated := allocated w; destroyed := destroyed w;
            attempts := S (attempts w); runs := runs w |})
    end.

(** [tensor_helpers.go]. *)
Definition tensorFromInt64s (data : list Z) (shape : list Z) : M Value :=
  NewTensor (SpecInt64 shape data).

Definition tensorFromFloat32s (data : list float32) (shape : list Z) : M Value :=
  NewTensor (SpecFloat32 shape data).

Fixpoint argmax_loop (xs : list float32) (i : Z) (maxIdx : Z) (maxVal : float32) : Z :=
  match xs with
  | [] => maxIdx
  | x :: rest =>
      if f32_gt x maxVal then argmax_loop rest (i + 1) i x
      else argmax_loop rest (i + 1) maxIdx maxVal
  end.

Definition argmaxF32 (xs : list float32) : Z :=
  match xs with
  | [] => 0
  | x0 :: rest => argmax_loop rest 1 0 x0
  end.

(** [v.Destroy()], on the value with handle [h]. *)
Definition Destroy_handle (h : nat) : M unit :=
  fun w => (Ok tt,
            {| next_handle := next_handle w; built := built w;
               allocated := allocated w;
               destroyed := destroyed w ++ [h];
               attempts := attempts w; runs := runs w |}).

Definition Destroy (v : Value) : M unit := Destroy_handle (handle v).

(** [for _, v := range vs { v.Destroy() }]. *)
Fixpoint Destroy_all (vs : list Value) : M unit :=
  match vs with
  | [] => ret tt
  | v :: rest => do Destroy v then Destroy_all rest
  end.

(** Handles for the non-nil outputs of a run, slot by slot. *)
Fixpoint alloc_outputs (out : nat -> option TensorSpec) (i n : nat) (h : nat)
    : list (option Value) * list nat * nat :=
  match n with
  | O => ([], [], h)
  | S n' =>
      match out i with
      | Some s =>
          let '(vs, hs, h') := alloc_outputs out (S i) n' (S h) in
          (Some {| handle := h; spec := s |} :: vs, h :: hs, h')
      | None =>
          let '(vs, hs, h') := alloc_outputs out (S i) n' h in
          (None :: vs, hs, h')
      end
  end.

(** [session.Run(inputs, outputs)] with [outputs] a fresh slice of
    [nOut] nil values: the run fills the slots it allocates. *)
Definition session_Run (sess : DynamicAdvancedSession)
    (inputs : list (option Value)) (nOut : nat) : M (list (option Value)) :=
  fun w =>
    match Run_result sess (runs w) (map (option_map spec) inputs) with
    | inl cause =>
        (Err (ErrRun cause),
         {| next_handle := next_handle w; built := built w;
            allocated := allocated w; destroyed := destroyed w;
            attempts := attempts w; runs := S (runs w) |})
    | inr out =>
        let '(vs, hs, h') := alloc_outputs out 0 nOut (next_handle w) in
        (Ok vs,
         {| next_handle := h'; built := built w;
            allocated := allocated w ++ hs; destroyed := destroyed w;
            attempts := attempts w; runs := S (runs w) |})
    end.

(** ** The model wrapper and generation options ([model.go]) *)

Record ModelForCausalLM := {
  modelID : string;
  config : Config;
  session : option DynamicAdvancedSession;
  ioPreset : IOPreset;
  inputNames : list string;
  outputNames : list string;
  dtype : string;
  inputInfo : gmap string InputOutputInfo
}.

Record PipelineStreamEvent := {
  TokenID : Z;
  DeltaText : string;
  FullText : string;
  Step : Z;
  Done : bool
}.

Record GenerationOptions := {
  MaxNewTokens : Z;
  DoSample : bool;
  Streamer : option (PipelineStreamEvent -> bool);
  StopSequences : list string
}.

(** The tokenizer, seen from the decoding loop: its [Decode] method,
    which returns a text and an [error] (nil is [None]).  The loop
    handles a non-nil error, so the method is kept general here. *)
Record Tokenizer := {
  Decode : list Z -> string * option error
}.

(** [Tokenizer.Decode] of [tokenizer.go], over the wrapped tokenizer's
    own decoder [tok]: its error result is always nil. *)
Definition wrapped_Tokenizer (tok : list Z -> string) : Tokenizer :=
  {| Decode := fun ids => (tok ids, None) |}.

(** *** zeroTensorForInput *)

(** The body of the loop over [info.Dimensions]: the value of
    [shape[i]] for the declared dimension [d] at index [i] of [n]. *)
Definition zero_dim (isCache : bool) (n : nat) (seqLen : Z) (i : nat) (d : Z) : Z :=
  if d <=? 0 then
    let s := if (i =? 0)%nat then 1 else if isCache then 0 else 1 in
    if negb isCache && (Z.of_nat i =? Z.of_nat n - 1) && (0 <? seqLen)
    then seqLen else s
  else d.

Definition zero_shape (name : string) (dims : list Z) (seqLen : Z) : list Z :=
  let isCache := Contains name "past" || Contains name "cache" in
  imap (zero_dim isCache (length dims) seqLen) dims.

(** [count := int64(1); for _, d := range shape { count *= d }]. *)
Definition zero_count (shape : list Z) : Z :=
  fold_left (fun count d => wrap64 (count * d)) shape 1.

Definition zeroTensorForInput (m : ModelForCausalLM) (name : string) (seqLen : Z)
    : M Value :=
  match inputInfo m !! name with
  | None => fail (ErrUnsupportedInputName name)
  | Some info =>
      let shape := zero_shape name (Dimensions info) seqLen in
      let count := zero_count shape in
      match DataType info with
      | TensorElementDataTypeInt64 =>
          (* make([]int64, count) panics on a negative length *)
          if count <? 0 then panic
          else tensorFromInt64s (replicate (Z.to_nat count) 0) shape
      | _ =>
          if count <? 0 then panic
          else tensorFromFloat32s (replicate (Z.to_nat count) f32_zero) shape
      end
  end.

(** *** The decoding loop of generateSimpleCausal *)

(** The variables the loop carries from one iteration to the next. *)
Record LoopState := {
  generated : list Z;
  curIDs : list Z;
  curMask : list Z;
  fullText : string
}.

Inductive Control := Continue | Break.

Section Step.
Variable m : ModelForCausalLM.
Variable sess : DynamicAdvancedSession.
Variable tokenizer : option Tokenizer.
Variable opts : GenerationOptions.

(** [for i, name := range m.inputNames { switch name ... }]: fills
    [inputs] slot by slot and collects the tensors made on the way in
    [toDestroy]. *)
Fixpoint assemble_inputs (ids : list Z) (inputTensor maskTensor : Value)
    (names : list string) (i : nat)
    (inputs : list (option Value)) (toDestroy : list Value)
    : M (list (option Value) * list Value) :=
  match names with
  | [] => ret (inputs, toDestroy)
  | name :: rest =>
      if String.eqb name "input_ids" then
        assemble_inputs ids inputTensor maskTensor rest (S i)
          (<[i := Some inputTensor]> inputs) toDestroy
      else if String.eqb name "attention_mask" then
        assemble_inputs ids inputTensor maskTensor rest (S i)
          (<[i := Some maskTensor]> inputs) toDestroy
      else if String.eqb name "position_ids" then
        let pos := map Z.of_nat (seq 0 (length ids)) in
        on_err (tensorFromInt64s pos [1; Z.of_nat (length pos)])
          (fun e =>
             do Destroy inputTensor then
             do Destroy maskTensor then
             fail (ErrCreatePositionIds e))
          (fun t =>
             assemble_inputs ids inputTensor maskTensor rest (S i)
               (<[i := Some t]> inputs) (toDestroy ++ [t]))
      else
        on_err (zeroTensorForInput m name (Z.of_nat (length ids)))
          (fun e =>
             do Destroy inputTensor then
             do Destroy maskTensor then
             do Destroy_all toDestroy then
             fail e)
          (fun t =>
             assemble_inputs ids inputTensor maskTensor rest (S i)
               (<[i := Some t]> inputs) (toDestroy ++ [t]))
  end.

(** Tensor assembly and graph execution (the loop body up to the
    release of the input tensors after a successful run). *)
Definition run_graph (ids mask : list Z) : M (list (option Value)) :=
  on_err (tensorFromInt64s ids [1; Z.of_nat (length ids)])
    (fun e => fail (ErrCreateInputIds e))
    (fun inputTensor =>
  on_err (tensorFromInt64s mask [1; Z.of_nat (length mask)])
    (fun e => do Destroy inputTensor then fail (ErrCreateAttentionMask e))
    (fun maskTensor =>
  let* a := assemble_inputs ids inputTensor maskTensor (inputNames m) 0
              (replicate (length (inputNames m)) None) [] in
  let inputs := fst a in
  let toDestroy := snd a in
  on_err (session_Run sess inputs (length (outputNames m)))
    (fun e =>
       do Destroy inputTensor then
       do Destroy maskTensor then
       do Destroy_all toDestroy then
       fail e)
    (fun outputs =>
       do Destroy inputTensor then
       do Destroy maskTensor then
       do Destroy_all toDestroy then
       ret outputs))).

(** A value known to be a [*onnx.Tensor[float32]]. *)
Record Float32Tensor := {
  ft_handle : nat;
  ft_shape : list Z;
  ft_data : list float32
}.

(** [for i, name := range m.outputNames { ... }]: releases the outputs
    that are not named "logits" and keeps the logits tensor. *)
Fixpoint scan_outputs (names : list string) (i : nat)
    (outputs : list (option Value)) (logitsTensor : option Float32Tensor)
    : M (option Float32Tensor) :=
  match names with
  | [] => ret logitsTensor
  | name :: rest =>
      if negb (String.eqb name "logits") then
        match outputs !! i with
        | Some (Some v) =>
            do Destroy v then scan_outputs rest (S i) outputs logitsTensor
        | _ => scan_outputs rest (S i) outputs logitsTensor
        end
      else
        match outputs !! i with
        | Some (Some v) =>
            match spec v with
            | SpecFloat32 shape data =>
                scan_outputs rest (S i) outputs
                  (Some {| ft_handle := handle v; ft_shape := shape; ft_data := data |})
            | _ => fail ErrLogitsNotFloat32
            end
        | _ => fail ErrLogitsMissing
        end
  end.

(** The slice expression [raw[start:end]] on a slice whose capacity is
    its length; out of range panics. *)
Definition slice_f32 (raw : list float32) (start end_ : Z) : option (list float32) :=
  if (0 <=? start) && (start <=? end_) && (end_ <=? Z.of_nat (length raw))
  then Some (take (Z.to_nat (end_ - start)) (drop (Z.to_nat start) raw))
  else None.

(** From the outputs of the run to the next token id (greedy). *)
Definition pick_next (ids : list Z) (outputs : list (option Value)) : M Z :=
  let* l := scan_outputs (outputNames m) 0 outputs None in
  match l with
  | None => fail ErrLogitsMissing
  | Some logitsTensor =>
      let raw := ft_data logitsTensor in
      let shape := ft_shape logitsTensor in
      match shape with
      | [_; _; s2] =>
          let vocabSize := s2 in
          let start := wrap64 ((Z.of_nat (length ids) - 1) * vocabSize) in
          let end_ := wrap64 (start + vocabSize) in
          match slice_f32 raw start end_ with
          | None => panic
          | Some lastLogits =>
              let nextID := argmaxF32 lastLogits in
              do Destroy_handle (ft_handle logitsTensor) then
              ret nextID
          end
      | _ => fail (ErrLogitsShape shape)
      end
  end.

(** The engine part of one iteration: from the current ids and mask to
    the selected token. *)
Definition select_next (ids mask : list Z) : M Z :=
  let* outputs := run_graph ids mask in
  pick_next ids outputs.

(** Text accounting: the delta text of the token and the accumulated
    text after it. *)
Definition decode_delta (nextID : Z) (text : string) : string * string :=
  match tokenizer with
  | Some t =>
      match Decode t [nextID] with
      | (txt, None) => (txt, (text +:+ txt)%string)
      | (_, Some _) => (EmptyString, text)
      end
  | None => (EmptyString, text)
  end.

(** [for _, stop := range opts.StopSequences { ... }]: the accumulated
    text, the delta text and [stopHit] after the loop. *)
Fixpoint stop_scan (stops : list string) (text delta : string)
    : string * string * bool :=
  match stops with
  | [] => (text, delta, false)
  | stop :: rest =>
      if String.eqb stop EmptyString then stop_scan rest text delta
      else
        let idx := Index text stop in
        if 0 <=? idx then (slice_to text (Z.to_nat idx), EmptyString, true)
        else stop_scan rest text delta
  end.

(** Sequence update, text accounting and stop evaluation: the state
    after the iteration, the event offered to the streamer, and the
    flags [done] and [stopHit]. *)
Definition step_update (step : Z) (st : LoopState) (nextID : Z)
    : LoopState * PipelineStreamEvent * bool * bool :=
  let eosID := EOS_TOKEN_ID (config m) in
  let generated' := generated st ++ [nextID] in
  let curIDs' := curIDs st ++ [nextID] in
  let curMask' := curMask st ++ [1] in
  let '(deltaText0, fullText0) := decode_delta nextID (fullText st) in
  let '(fullText', deltaText, stopHit) :=
    stop_scan (StopSequences opts) fullText0 deltaText0 in
  let done := (0 <=? eosID) && (nextID =? eosID) in
  ({| generated := generated'; curIDs := curIDs';
      curMask := curMask'; fullText := fullText' |},
   {| TokenID := nextID; DeltaText := deltaText;
      FullText := fullText'; Step := step;
      Done := done || stopHit |},
   done, stopHit).

(** The rest of the iteration, after the token is selected: streaming
    dispatch and the two [break]s. *)
Definition finish_step (step : Z) (st : LoopState) (nextID : Z)
    : Control * LoopState :=
  let '(st', ev, done, stopHit) := step_update step st nextID in
  match Streamer opts with
  | Some f =>
      if negb (f ev) then (Break, st')
      else if done || stopHit then (Break, st') else (Continue, st')
  | None =>
      if done || stopHit then (Break, st') else (Continue, st')
  end.

(** One iteration of the loop. *)
Definition step_body (step : Z) (st : LoopState) : M (Control * LoopState) :=
  let* nextID := select_next (curIDs st) (curMask st) in
  ret (finish_step step st nextID).

(** [for step := 0; step < opts.MaxNewTokens; step++ { ... }], with
    [n] the iterations that remain; the result says whether the loop
    was left by [break]. *)
Fixpoint loop (n : nat) (step : Z) (st : LoopState) : M (Control * LoopState) :=
  match n with
  | O => ret (Continue, st)
  | S n' =>
      let* r := step_body step st in
      match fst r with
      | Break => ret r
      | Continue => loop n' (step + 1) (snd r)
      end
  end.

End Step.

(** The loop variables on entry: [generated] and [fullText] empty. *)
Definition init_state (ids mask : list Z) : LoopState :=
  {| generated := []; curIDs := ids; curMask := mask; fullText := EmptyString |}.

Definition generateSimpleCausal (m : ModelForCausalLM)
    (sess : DynamicAdvancedSession) (tokenizer : option Tokenizer)
    (ids mask : list Z) (opts : GenerationOptions) : M (list (list Z)) :=
  let* r := loop m sess tokenizer opts (Z.to_nat (MaxNewTokens opts)) 0
              (init_state ids mask) in
  ret [generated (snd r)].

Definition with_MaxNewTokens (n : Z) (opts : GenerationOptions) : GenerationOptions :=
  {| MaxNewTokens := n; DoSample := DoSample opts;
     Streamer := Streamer opts; StopSequences := StopSequences opts |}.

(** [if opts.MaxNewTokens <= 0 { opts.MaxNewTokens = 128 }]. *)
Definition default_MaxNewTokens (opts : GenerationOptions) : GenerationOptions :=
  if MaxNewTokens opts <=? 0 then with_MaxNewTokens 128 opts else opts.

Definition Generate (m : ModelForCausalLM) (tokenizer : option Tokenizer)
    (inputIDs attentionMask : list (list Z)) (opts : GenerationOptions)
    : M (list (list Z)) :=
  match tokenizer with
  | None => fail ErrTokenizerNil
  | Some _ =>
      match session m with
      | None => fail ErrSessionNil
      | Some sess =>
          match inputIDs, attentionMask with
          | [ids], [mask] =>
              let opts := default_MaxNewTokens opts in
              match ioPreset m with
              | IOPresetSimpleCausal =>
                  generateSimpleCausal m sess tokenizer ids mask opts
              | IOPresetLFM2 =>
                  generateSimpleCausal m sess tokenizer ids mask opts
              | IOPresetAuto =>
                  generateSimpleCausal m sess tokenizer ids mask opts
              end
          | _, _ => fail ErrBatchSize
          end
      end
  end.

End Engine.

(** ** The pipeline facade ([hub.go]): call options *)

Section Pipeline.
Context {FM : FloatModel}.

(** The dynamic values a [map[string]any] of call options can hold. *)
#[warnings="-register-all"]
Inductive any :=
| AnyNil
| AnyInt (n : Z)
| AnyFloat64 (f : float64)
| AnyBool (b : bool)
| AnyString (s : string)
| AnyStrings (l : list string)
| AnyList (l : list any)
| AnyStreamer (f : PipelineStreamEvent -> bool)
| AnyOther.

Definition parseStopSequences (v : any) : list string :=
  match v with
  | AnyNil => []
  | AnyString t => if String.eqb t EmptyString then [] else [t]
  | AnyStrings t => t
  | AnyList t =>
      fold_left
        (fun out x =>
           match x with
           | AnyString s => if String.eqb s EmptyString then out else out ++ [s]
           | _ => out
           end) t []
  | _ => []
  end.

(** The options the generator closure of [pipelineImpl] passes to
    [Generate], from the caller's [callOptions] (a nil map reads as the
    empty map). *)
Definition generator_genOpts (config : Config) (callOptions : gmap string any)
    : GenerationOptions :=
  let maxNewTokens :=
    match callOptions !! "max_new_tokens"%string with
    | Some (AnyInt t) => t
    | Some (AnyFloat64 t) => f64_to_int t
    | _ => 32
    end in
  let doSample :=
    match callOptions !! "do_sample"%string with
    | Some (AnyBool b) => b
    | _ => false
    end in
  let streamerFn :=
    match callOptions !! "streamer"%string with
    | Some (AnyStreamer fn) => Some fn
    | _ => None
    end in
  let stopSeqs := parseStopSequences (default AnyNil (callOptions !! "stop"%string)) in
  let stopSeqs :=
    if (length stopSeqs =? 0)%nat && negb (length (StopStrings config) =? 0)%nat
    then StopStrings config else stopSeqs in
  let stopSeqs :=
    if (length stopSeqs =? 0)%nat
    then [String "010" "User:"; String "010" "user:";
          String "010" "Assistant:"; String "010" "assistant:"]%string
    else stopSeqs in
  {| MaxNewTokens := maxNewTokens; DoSample := doSample;
     Streamer := streamerFn; StopSequences := stopSeqs |}.

End Pipeline.

(** ** Test doubles used to exercise the embedding *)

(** Floats read as integers: enough for comparisons and conversions. *)
Definition Z_floats : FloatModel :=
  {| float32 := Z; f32_zero := 0; f32_gt := Z.gtb;
     float64 := Z; f64_to_int := fun z => z |}.

(** A configuration with the given layer types and end-of-sequence id. *)
Definition test_config (eos : Z) (layers : list string) : Config :=
  {| modelType := "lfm2"; vocabSize := 4; eosTokenID := eos;
     bosTokenID := -1; padTokenID := -1; numHiddenLayers := 3;
     numAttentionHeads := 1; numKeyValueHeads := 1; hiddenSize := 1;
     convLCache := 1; layerTypes := layers; stopStrings := [] |}.

(** A tokenizer double that decodes every id to [txt]. *)
Definition const_tokenizer (txt : string) : Tokenizer :=
  wrapped_Tokenizer (fun _ => txt).

(** A tokenizer double whose [Decode] always fails. *)
Definition failing_tokenizer : Tokenizer :=
  {| Decode := fun _ => (EmptyString, Some (ErrDecode "decode failed")) |}.

Definition test_opts (n : Z) (streamer : option (PipelineStreamEvent -> bool))
    (stops : list string) : GenerationOptions :=
  {| MaxNewTokens := n; DoSample := false; Streamer := streamer;
     StopSequences := stops |}.


(** An engine double on which every tensor construction succeeds. *)
Definition ort_ok {FM : FloatModel} : OrtEnv :=
  {| NewTensor_err := fun _ _ => None |}.

(** An engine double on which exactly the [k]-th construction fails. *)
Definition ort_fail_at {FM : FloatModel} (k : nat) : OrtEnv :=
  {| NewTensor_err := fun n _ =>
       if (n =? k)%nat then Some "out of memory"%string else None |}.

Definition test_info (name : string) (dims : list Z) (ty : TensorElementDataType)
    : InputOutputInfo :=
  {| Name := name; Dimensions := dims; DataType := ty |}.

(** A model double over the given slots and session. *)
Definition test_model {FM : FloatModel} (eos : Z)
    (sess : option DynamicAdvancedSession)
    (inputs outputs : list string) (infos : list InputOutputInfo)
    : ModelForCausalLM :=
  {| modelID := "test/model"; config := test_config eos [];
     session := sess; ioPreset := IOPresetAuto;
     inputNames := inputs; outputNames := outputs; dtype := "q4";
     inputInfo := list_to_map (map (fun info => (Name info, info)) infos) |}.

Definition with_DoSample (b : bool) (opts : GenerationOptions) : GenerationOptions :=
  {| MaxNewTokens := MaxNewTokens opts; DoSample := b;
     Streamer := Streamer opts; StopSequences := StopSequences opts |}.

(** The declared shape of a value's contents. *)
Definition spec_shape {FM : FloatModel} (s : TensorSpec) : list Z :=
  match s with
  | SpecInt64 shape _ => shape
  | SpecFloat32 shape _ => shape
  | SpecOther => []
  end.

(** What [zeroTensorForInput] hands to the engine for a declared slot:
    zeros of type int64 for a slot declared int64, of type float32 for
    any other declared type. *)
Definition zero_spec {FM : FloatModel} (info : InputOutputInfo) (shape : list Z)
    : TensorSpec :=
  match DataType info with
  | TensorElementDataTypeInt64 =>
      SpecInt64 shape (replicate (Z.to_nat (zero_count shape)) 0)
  | _ => SpecFloat32 shape (replicate (Z.to_nat (zero_count shape)) f32_zero)
  end.



(** The number of token ids in the first input of a run. *)
Definition first_input_len (inputs : list (option (TensorSpec (FM := Z_floats)))) : nat :=
  match inputs with
  | Some (SpecInt64 _ data) :: _ => length data
  | _ => 0%nat
  end.

(** A graph double with one output, the logits: at the [n]-th run every
    position of the sequence gets the row [rows n]. *)
Definition scripted_session (rows : nat -> list Z)
    : DynamicAdvancedSession (FM := Z_floats) :=
  {| Run_result := fun n inputs =>
       let len := first_input_len inputs in
       inr (fun i =>
              match i with
              | O => Some (SpecFloat32 (FM := Z_floats)
                             [1; Z.of_nat len; Z.of_nat (length (rows n))]
                             (concat (replicate len (rows n))))
              | S _ => None
              end) |}.

(** Rows whose arg-max is token 2 at every run. *)
Definition rows_two (n : nat) : list Z := [0; 1; 5; 2].

(** Rows whose arg-max is token 2, then token 3 from the second run on. *)
Definition rows_then_three (n : nat) : list Z :=
  match n with
  | O => [0; 1; 5; 2]
  | S _ => [0; 1; 5; 7]
  end.

(** A model double with the simple causal wiring. *)
Definition simple_model (eos : Z) (rows : nat -> list Z)
    : ModelForCausalLM (FM := Z_floats) :=
  test_model eos (Some (scripted_session rows))
    ["input_ids"; "attention_mask"]%string ["logits"]%string [].

(** A model double whose graph declares a cache slot before
    [position_ids], as introspection of a graph can yield. *)
Definition cache_first_model : ModelForCausalLM (FM := Z_floats) :=
  test_model (-1) (Some (scripted_session rows_two))
    ["input_ids"; "attention_mask"; "past_conv.0"; "position_ids"]%string
    ["logits"]%string
    [test_info "past_conv.0" [-1; 4; 3] TensorElementDataTypeFloat].

(** [c] leaves the number of graph runs unchanged. *)
Definition keeps_runs {FM : FloatModel} {A} (c : M A) : Prop :=
  forall w r w', c w = (r, w') -> runs w' = runs w.

(** The loop states a [Generate] call passes through: the state on
    entry ([k = 0]) and the state after each completed iteration, the
    last one included. *)
Definition Generate_visits {FM : FloatModel} (ort : OrtEnv) (m : ModelForCausalLM)
    (tokenizer : option Tokenizer) (inputIDs attentionMask : list (list Z))
    (opts : GenerationOptions) (w0 : World) (st : LoopState) : Prop :=
  exists t sess ids mask (k : nat) c w,
    tokenizer = Some t /\ session m = Some sess
    /\ inputIDs = [ids] /\ attentionMask = [mask]
    /\ (k <= Z.to_nat (MaxNewTokens (default_MaxNewTokens opts)))%nat
    /\ loop ort m sess tokenizer (default_MaxNewTokens opts) k 0
         (init_state ids mask) w0 = (Ok (c, st), w).

(** No configured, non-empty stop string occurs in [text]. *)
Definition no_stop_in (stops : list string) (text : string) : Prop :=
  forall s, In s stops -> s = EmptyString \/ Index text s < 0.

(** Between the worlds [w] and [w'] the tensors with handles [bs] were
    built, and [Destroy] was called on the handles [ds], in that order. *)
Definition ledger_step {FM : FloatModel} (w w' : World) (bs ds : list nat) : Prop :=
  built w' = built w ++ bs /\ destroyed w' = destroyed w ++ ds.

Fixpoint has_position_ids (names : list string) : bool :=
  match names with
  | [] => false
  | name :: rest => String.eqb name "position_ids" || has_position_ids rest
  end.

(** No optional slot and no other [position_ids] is declared before a
    [position_ids] slot (as in both static presets). *)
Fixpoint position_ids_leads (names : list string) : bool :=
  match names with
  | [] => true
  | name :: rest =>
      if String.eqb name "input_ids" || String.eqb name "attention_mask"
      then position_ids_leads rest
      else negb (has_position_ids rest)
  end.

(** ** Further code of the package, embedded for the properties below *)

(** *** The sampling helpers of [tensor_helpers.go]

    The float32 arithmetic they use, kept abstract like the comparison:
    [f32_exp_sub v m] is [float32(math.Exp(float64(v - m)))] and
    [f32_inv s] is [1 / s]. *)
Class FloatArith {FM : FloatModel} := {
  f32_add : float32 -> float32 -> float32;
  f32_mul : float32 -> float32 -> float32;
  f32_lt : float32 -> float32 -> bool;
  f32_is_zero : float32 -> bool;
  f32_inv : float32 -> float32;
  f32_exp_sub : float32 -> float32 -> float32
}.

(** [f32_gt] orders the values it compares (no NaN among them): no
    value is greater than itself, the comparison is transitive, and a
    value greater than another is greater than any third value or has
    that third value greater than the other. *)
Definition gt_orders {FM : FloatModel} : Prop :=
  (forall x : float32, f32_gt x x = false)
  /\ (forall x y z : float32, f32_gt x y = true -> f32_gt y z = true ->
        f32_gt x z = true)
  /\ (forall x y z : float32, f32_gt x y = true ->
        f32_gt x z = true \/ f32_gt z y = true).

Section Sampling_helpers.
Context {FM : FloatModel} {FA : FloatArith}.

(** The first loop of [softmaxF32]: the maximum of [xs[1:]] and the
    start value. *)
Fixpoint softmax_max (rest : list float32) (maxVal : float32) : float32 :=
  match rest with
  | [] => maxVal
  | v :: rest' => softmax_max rest' (if f32_gt v maxVal then v else maxVal)
  end.

(** The second loop: the exponentials written back, and their sum. *)
Fixpoint softmax_exps (xs : list float32) (maxVal sum : float32)
    : list float32 * float32 :=
  match xs with
  | [] => ([], sum)
  | v :: rest =>
      let e := f32_exp_sub v maxVal in
      let '(es, sum') := softmax_exps rest maxVal (f32_add sum e) in
      (e :: es, sum')
  end.

(** [softmaxF32], as the slice it leaves behind. *)
Definition softmaxF32 (xs : list float32) : list float32 :=
  match xs with
  | [] => []
  | x0 :: rest =>
      let maxVal := softmax_max rest x0 in
      let '(es, sum) := softmax_exps xs maxVal f32_zero in
      if f32_is_zero sum then es
      else let inv := f32_inv sum in map (fun e => f32_mul e inv) es
  end.

(** The loop of [sampleFromProbsF32], from index [i] with running sum
    [acc]: the index it returns from, if any. *)
Fixpoint sample_loop (xs : list float32) (i : Z) (acc r : float32) : option Z :=
  match xs with
  | [] => None
  | p :: rest =>
      let acc' := f32_add acc p in
      if f32_lt r acc' then Some i else sample_loop rest (i + 1) acc' r
  end.

(** [sampleFromProbsF32(xs, rnd)], with [r] the one value [rnd()] yields. *)
Definition sampleFromProbsF32 (xs : list float32) (r : float32) : Z :=
  match sample_loop xs 0 f32_zero r with
  | Some i => i
  | None => if (length xs =? 0)%nat then 0 else Z.of_nat (length xs) - 1
  end.

End Sampling_helpers.

(** Integer arithmetic standing in for float32 arithmetic in examples
    (the exponential is not used there). *)
Definition Z_arith : FloatArith (FM := Z_floats) :=
  @Build_FloatArith Z_floats Z.add Z.mul Z.ltb (Z.eqb 0)
    (fun z : Z => z) (fun v m : Z => v - m).

(** The running sum of the first [S j] entries of [xs], as the loop of
    [sampleFromProbsF32] accumulates it. *)
Definition running_sum {FM : FloatModel} {FA : FloatArith}
    (xs : list float32) (j : nat) : float32 :=
  fold_left f32_add (take (S j) xs) f32_zero.

(** *** The rest of the IO schema resolver ([types.go]) *)

(** A layer type [lfm2IONames] accepts. *)
Definition known_layer (t : string) : bool :=
  String.eqb t "full_attention" || String.eqb t "conv".

(** The cache input names of the layers [ts], the first of which has
    index [layerIdx]: key then value for an attention layer, one name
    for a conv layer. *)
Fixpoint layer_names (layerIdx : nat) (ts : list string) : list string :=
  match ts with
  | [] => []
  | t :: ts' =>
      (if String.eqb t "full_attention" then
         ["past_key_values." +:+ itoa layerIdx +:+ ".key";
          "past_key_values." +:+ itoa layerIdx +:+ ".value"]
       else if String.eqb t "conv" then ["past_conv." +:+ itoa layerIdx]
       else [])
      ++ layer_names (S layerIdx) ts'
  end.

(** What [discoverIONamesFromModel] and [resolveIONames] can fail with,
    besides the errors of [lfm2IONames]. *)
Inductive resolve_error :=
| ErrOnnxPathEmpty
| ErrGetInputOutputInfo (cause : string)
| ErrLfm2 (e : error)
| ResolvePanic.

(** [onnx.GetInputOutputInfo(path)]: the declared inputs and outputs of
    the graph stored at [path], or the cause of the failure. *)
Definition GraphReader : Type :=
  string -> string + (list InputOutputInfo * list InputOutputInfo).

Definition discoverIONamesFromModel (GetInputOutputInfo : GraphReader)
    (onnxPath : string) : resolve_error + (list string * list string) :=
  if String.eqb onnxPath EmptyString then inl ErrOnnxPathEmpty
  else
    match GetInputOutputInfo onnxPath with
    | inl cause => inl (ErrGetInputOutputInfo cause)
    | inr (inputInfos, outputInfos) =>
        inr (fold_left (fun inputs info => inputs ++ [Name info]) inputInfos [],
             fold_left (fun outputs info => outputs ++ [Name info]) outputInfos [])
    end.

(** [resolveIONames]: the model with [inputNames] and [outputNames]
    set, or the error; on an error the model is left as it was. *)
Definition resolveIONames {FM : FloatModel} (GetInputOutputInfo : GraphReader)
    (m : ModelForCausalLM) (onnxPath : string)
    : resolve_error + ModelForCausalLM :=
  let set_names (io : list string * list string) :=
    {| modelID := modelID m; config := config m; session := session m;
       ioPreset := ioPreset m; inputNames := fst io; outputNames := snd io;
       dtype := dtype m; inputInfo := inputInfo m |} in
  match ioPreset m with
  | IOPresetSimpleCausal =>
      match simpleCausalIONames with
      | Ok io => inr (set_names io)
      | Err e => inl (ErrLfm2 e)
      | Panic => inl ResolvePanic
      end
  | IOPresetLFM2 =>
      match lfm2IONames (Some (config m)) with
      | Ok io => inr (set_names io)
      | Err e => inl (ErrLfm2 e)
      | Panic => inl ResolvePanic
      end
  | IOPresetAuto =>
      match discoverIONamesFromModel GetInputOutputInfo onnxPath with
      | inr io => inr (set_names io)
      | inl e => inl e
      end
  end.

(** A graph reader double: one graph, at [path]. *)
Definition one_graph (path : string) (ins outs : list InputOutputInfo) : GraphReader :=
  fun p => if String.eqb p path then inr (ins, outs)
           else inl "no such file"%string.

(** *** Tensor accounting over a whole call *)

(** The handles of the values a run allocated, slot by slot. *)
Definition out_handles {FM : FloatModel} (vs : list (option Value)) : list nat :=
  omap (option_map handle) vs.

(** The handle of the logits tensor kept by the output loop, if any. *)
Definition kept_handle {FM : FloatModel} (l : option Float32Tensor) : list nat :=
  match l with
  | Some t => [ft_handle t]
  | None => []
  end.

(** Between [w] and [w'] the tensors [bs] were built, the outputs [als]
    were allocated and [Destroy] was called on [ds]; the handles given
    out are the next free ones of [w]. *)
Definition ledger {FM : FloatModel} (w w' : World) (bs als ds : list nat) : Prop :=
  built w' = built w ++ bs
  /\ allocated w' = allocated w ++ als
  /\ destroyed w' = destroyed w ++ ds
  /\ next_handle w' = (next_handle w + length (bs ++ als))%nat
  /\ bs ++ als ≡ₚ seq (next_handle w) (length (bs ++ als)).

(** Between [w] and [w'] every tensor that was built or allocated was
    destroyed, and none of them twice. *)
Definition released_all {FM : FloatModel} (w w' : World) : Prop :=
  exists bs als ds,
    built w' = built w ++ bs
    /\ allocated w' = allocated w ++ als
    /\ destroyed w' = destroyed w ++ ds
    /\ ds ≡ₚ bs ++ als
    /\ NoDup ds.

(** Between [w] and [w'] the handles destroyed are, up to order, the
    handles built or allocated. *)
Definition balanced {FM : FloatModel} (w w' : World) : Prop :=
  exists bs als ds, ledger w w' bs als ds /\ ds ≡ₚ bs ++ als.

(** *** Post-processing of the generated text ([hub.go]) *)

(** [s] has an instance of [sub]. *)
Definition has_substring (s sub : string) : Prop :=
  exists a b, s = a +:+ sub +:+ b.

(** The loop of [truncateAtStops]: every stop string in turn cuts the
    text at its first instance. *)
Fixpoint truncate_loop (stops : list string) (out : string) : string :=
  match stops with
  | [] => out
  | stop :: rest =>
      if String.eqb stop EmptyString then truncate_loop rest out
      else
        let idx := Index out stop in
        if 0 <=? idx then truncate_loop rest (slice_to out (Z.to_nat idx))
        else truncate_loop rest out
  end.

(** [truncateAtStops], over the library's [strings.TrimSpace]. *)
Definition truncateAtStops (TrimSpace : string -> string)
    (s : string) (stops : list string) : string :=
  TrimSpace (truncate_loop stops s).

(** What the properties below use of [strings.TrimSpace]: it returns a
    piece of its argument. *)
Definition trims (TrimSpace : string -> string) : Prop :=
  forall s, exists a b, s = a +:+ TrimSpace s +:+ b.

(** A [TrimSpace] double that removes the leading and trailing bytes
    space, tab, newline and carriage return. *)
Definition is_space (c : ascii) : bool :=
  (Ascii.eqb c " " || Ascii.eqb c "009" || Ascii.eqb c "010" || Ascii.eqb c "013")%char.

Fixpoint trim_left (s : string) : string :=
  match s with
  | String c s' => if is_space c then trim_left s' else s
  | EmptyString => EmptyString
  end.

Fixpoint trim_right (s : string) : string :=
  match s with
  | String c s' =>
      match trim_right s' with
      | EmptyString => if is_space c then EmptyString else String c EmptyString
      | t => String c t
      end
  | EmptyString => EmptyString
  end.

Definition trim_ascii (s : string) : string := trim_right (trim_left s).

(** *** The tokenizer wrapper ([tokenizer.go]) and the generator closure *)

(** [ChatMessage] of [types.go]; its field [Name] is [ChatName] here. *)
Record ChatMessage := {
  Role : string;
  Content : string;
  ChatName : string;
  ToolCallID : string
}.

Definition RoleSystem : string := "system".
Definition RoleUser : string := "user".
Definition RoleAssistant : string := "assistant".
Definition RoleTool : string := "tool".

(** The first loop of [renderChatTemplate], writing into the builder [b]. *)
Fixpoint render_system (messages : list ChatMessage) (b : string) : string :=
  match messages with
  | [] => b
  | m :: rest =>
      if String.eqb (Role m) RoleSystem
      then render_system rest (((b +:+ "System: ") +:+ Content m) +:+ String "010" "")
      else render_system rest b
  end.

(** The second loop of [renderChatTemplate]. *)
Fixpoint render_turns (messages : list ChatMessage) (b : string) : string :=
  match messages with
  | [] => b
  | m :: rest =>
      if String.eqb (Role m) RoleSystem then render_turns rest b
      else
        let role := if String.eqb (Role m) RoleAssistant then "Assistant" else "User" in
        render_turns rest
          ((((b +:+ role) +:+ ": ") +:+ Content m) +:+ String "010" "")
  end.

(** [renderChatTemplate]: the text; its error result is always nil. *)
Definition renderChatTemplate (messages : list ChatMessage) : string * option error :=
  (render_turns messages (render_system messages EmptyString), None).

(** The [Encode] method, over the wrapped tokenizer's encoder. *)
Definition Encoder : Type := string -> bool -> error + list Z.

(** [EncodeChat]: the batch of ids, the batch of masks, the prompt
    length and the rendered text. *)
Definition EncodeChat (Encode : Encoder) (messages : list ChatMessage)
    : error + (list (list Z) * list (list Z) * Z * string) :=
  match renderChatTemplate messages with
  | (_, Some e) => inl e
  | (rawText, None) =>
      match Encode rawText true with
      | inl e => inl e
      | inr ids =>
          let attn := fold_left (fun attn i => <[i := 1]> attn)
                        (seq 0 (length ids)) (replicate (length ids) 0) in
          inr ([ids], [attn], Z.of_nat (length ids), rawText)
      end
  end.

(** The loop of [BatchDecode], filling [res] from index [i]. *)
Fixpoint BatchDecode_loop (t : Tokenizer) (batch : list (list Z)) (i : nat)
    (res : list string) : error + list string :=
  match batch with
  | [] => inr res
  | ids :: rest =>
      match Decode t ids with
      | (_, Some e) => inl e
      | (txt, None) => BatchDecode_loop t rest (S i) (<[i := txt]> res)
      end
  end.

Definition BatchDecode (t : Tokenizer) (batch : list (list Z)) : error + list string :=
  BatchDecode_loop t batch 0 (replicate (length batch) EmptyString).

(** One entry of the list under "generated_text". *)
Record GeneratedTurn := { turn_role : string; turn_content : string }.

Inductive pipeline_error :=
| ErrEncodeChat (e : error)
| ErrGenerate (e : error)
| ErrBatchDecode (e : error).

Inductive gen_result (A : Type) :=
| GenOk (a : A)
| GenErr (e : pipeline_error)
| GenPanic.
Arguments GenOk {A} a.
Arguments GenErr {A} e.
Arguments GenPanic {A}.

(** The generator closure of [pipelineImpl]: for each row of the batch,
    the list stored under "generated_text". *)
Definition generator {FM : FloatModel} (ort : OrtEnv) (TrimSpace : string -> string)
    (config : Config) (Encode : Encoder) (tokenizer : Tokenizer)
    (model : ModelForCausalLM)
    (messages : list ChatMessage) (callOptions : gmap string any)
    : World -> gen_result (list (list GeneratedTurn)) * World :=
  fun w =>
    match EncodeChat Encode messages with
    | inl e => (GenErr (ErrEncodeChat e), w)
    | inr (inputIDsBatch, attnBatch, _, _) =>
        let genOpts := generator_genOpts config callOptions in
        let stopSeqs := StopSequences genOpts in
        match Generate ort model (Some tokenizer) inputIDsBatch attnBatch genOpts w with
        | (Err e, w') => (GenErr (ErrGenerate e), w')
        | (Panic, w') => (GenPanic, w')
        | (Ok generatedBatch, w') =>
            match BatchDecode tokenizer generatedBatch with
            | inl e => (GenErr (ErrBatchDecode e), w')
            | inr texts =>
                let texts := map (fun txt => truncateAtStops TrimSpace txt stopSeqs) texts in
                (GenOk (map (fun txt =>
                               [ {| turn_role := "assistant";
                                    turn_content := TrimSpace txt |} ]) texts),
                 w')
            end
        end
    end.

(** An encoder double: one id per byte of the text. *)
Definition byte_encoder : Encoder :=
  fun text _ => inr (map (fun c => Z.of_N (N_of_ascii c)) (list_ascii_of_string text)).

Definition user_message (text : string) : ChatMessage :=
  {| Role := RoleUser; Content := text; ChatName := ""; ToolCallID := "" |}.

Definition system_message (text : string) : ChatMessage :=
  {| Role := RoleSystem; Content := text; ChatName := ""; ToolCallID := "" |}.

(** The line [renderChatTemplate] writes for a system message, and for
    any other message. *)
Definition system_line (m : ChatMessage) : string :=
  "System: " +:+ Content m +:+ String "010" "".

Definition turn_line (m : ChatMessage) : string :=
  (if String.eqb (Role m) RoleAssistant then "Assistant" else "User")
  +:+ ": " +:+ Content m +:+ String "010" "".

Definition is_system (m : ChatMessage) : bool := String.eqb (Role m) RoleSystem.

Definition str_concat (l : list string) : string :=
  fold_right String.append EmptyString l.

(** A model double wired like the LFM2 preset, with one conv layer. *)
Definition lfm2_like_model : ModelForCausalLM (FM := Z_floats) :=
  test_model (-1) (Some (scripted_session rows_two))
    ["input_ids"; "attention_mask"; "position_ids"; "past_conv.0"]%string
    ["logits"]%string
    [test_info "past_conv.0" [-1; 4; 3] TensorElementDataTypeFloat].

(** A model double whose graph has no output named "logits". *)
Definition no_logits_model : ModelForCausalLM (FM := Z_floats) :=
  test_model (-1) (Some (scripted_session rows_two))
    ["input_ids"; "attention_mask"]%string ["scores"]%string [].

(** The loop state and the world after the first step of the runs used
    as examples: token 2 was selected. *)
Definition state_after_one (text : string) : LoopState :=
  {| generated := [2]; curIDs := [1; 2; 2]; curMask := [1; 1; 1];
     fullText := text |}.

Definition world_after_one : World :=
  {| next_handle := 3; built := [0; 1]%nat; allocated := [2%nat];
     destroyed := [0; 1; 2]%nat; attempts := 2; runs := 1 |}.

Definition with_Streamer (s : option (PipelineStreamEvent -> bool))
    (opts : GenerationOptions) : GenerationOptions :=
  {| MaxNewTokens := MaxNewTokens opts; DoSample := DoSample opts;
     Streamer := s; StopSequences := StopSequences opts |}.

(** The streamer of the demo program ([main.go]), without its printing:
    it asks to go on until the event is marked done. *)
Definition demo_streamer (ev : PipelineStreamEvent) : bool := negb (Done ev).

(** ** The version bump tool ([cmd/bump_version.go]) *)

(** [fmt.Sprintf("%d", n)] for a Go [int]. *)
Definition sprintf_d (n : Z) : string := NilEmpty.string_of_int (Z.to_int n).

(** [strings.Split(s, sep)] for a non-empty separator: the text is cut
    at each successive [Index] of [sep]; what is left after the last
    one is the last field.  Every cut consumes at least one byte, so
    [String.length s] rounds are enough. *)
Fixpoint Split_loop (fuel : nat) (s sep : string) : list string :=
  match fuel with
  | O => [s]
  | S fuel' =>
      let m := Index s sep in
      if m <? 0 then [s]
      else slice_to s (Z.to_nat m)
           :: Split_loop fuel'
                (slice_from s (Z.to_nat m + String.length sep)) sep
  end.

Definition Split (s sep : string) : list string :=
  Split_loop (String.length s) s sep.

(** [strings.Join(elems, sep)]. *)
Fixpoint Join (elems : list string) (sep : string) : string :=
  match elems with
  | [] => EmptyString
  | [x] => x
  | x :: rest => x +:+ sep +:+ Join rest sep
  end.

(** The loop of [inc]: [None] when a character is not a decimal digit
    (the function then returns its argument), otherwise the accumulated
    [int].  The loop ranges over runes; a byte outside ASCII only occurs
    in runes above 127, which are no digits either, so ranging over
    bytes takes the same branch. *)
Fixpoint inc_loop (s : string) (n : Z) : option Z :=
  match s with
  | EmptyString => Some n
  | String ch s' =>
      let c := Z.of_N (N_of_ascii ch) in
      if (c <? 48) || (57 <? c) then None
      else inc_loop s' (wrap64 (wrap64 (n * 10) + (c - 48)))
  end.

Definition inc (s : string) : string :=
  match inc_loop s 0 with
  | None => s
  | Some n => sprintf_d (wrap64 (n + 1))
  end.

Inductive bump_error : Type :=
  | ErrUnexpectedVersionFormat (ver : string).

Definition bumpPatch (ver : string) : bump_error + string :=
  let parts := Split ver "." in
  if negb (length parts =? 3)%nat then inl (ErrUnexpectedVersionFormat ver)
  else inr (Join (<[2%nat := inc (default EmptyString (parts !! 2%nat))]> parts) ".").

(** How many bytes of [s] are [c]. *)
Fixpoint count_byte (c : ascii) (s : string) : nat :=
  match s with
  | EmptyString => 0
  | String d s' => (if Ascii.eqb d c then 1 else 0) + count_byte c s'
  end.

(** Every byte of [s] is a decimal digit. *)
Fixpoint all_digits (s : string) : bool :=
  match s with
  | EmptyString => true
  | String ch s' =>
      let c := Z.of_N (N_of_ascii ch) in
      negb ((c <? 48) || (57 <? c)) && all_digits s'
  end.

(** The loop of [inc] over unbounded integers. *)
Fixpoint digits_value (s : string) (n : Z) : option Z :=
  match s with
  | EmptyString => Some n
  | String ch s' =>
      let c := Z.of_N (N_of_ascii ch) in
      if (c <? 48) || (57 <? c) then None
      else digits_value s' (n * 10 + (c - 48))
  end.

(** ** The list of auxiliary tokenizer files ([modelFilesList]) *)

Fixpoint modelFiles_loop (TrimSpace : string -> string)
    (parts out : list string) : list string :=
  match parts with
  | [] => out
  | p :: rest =>
      let p := TrimSpace p in
      if negb (String.eqb p EmptyString)
      then modelFiles_loop TrimSpace rest (out ++ [p])
      else modelFiles_loop TrimSpace rest out
  end.

(** [val] is the value read from the environment variable
    [MODEL_FILES]. *)
Definition modelFilesList (TrimSpace : string -> string) (val : string)
    (defaults : list string) : list string :=
  if String.eqb val EmptyString then defaults
  else
    let parts := Split val "," in
    let out := modelFiles_loop TrimSpace parts [] in
    if (length out =? 0)%nat then defaults else out.

(** ** The ONNX Runtime release table ([platformSpecFor]) *)

Definition ortVersion : string := "1.22.0".
Definition releaseBase : string :=
  "https://github.com/microsoft/onnxruntime/releases/download".

Record platformSpec := {
  url : string;
  libNames : list string;
  arch : string;
  os : string
}.

Definition cacheDirName (p : platformSpec) : string :=
  os p +:+ "-" +:+ arch p +:+ "-" +:+ ortVersion.

Definition archiveFilename (p : platformSpec) : string :=
  let parts := Split (url p) "/" in
  default EmptyString (parts !! (length parts - 1)%nat).

Definition baseURL : string := releaseBase +:+ "/v" +:+ ortVersion.

(** The map literal of [platformSpecFor], keyed by the pair of
    operating system and architecture. *)
Definition specs : list ((string * string) * platformSpec) :=
  [ (("linux", "amd64"),
     {| url := baseURL +:+ "/onnxruntime-linux-x64-" +:+ ortVersion +:+ ".tgz";
        libNames := ["libonnxruntime.so"; "libonnxruntime.so." +:+ ortVersion];
        arch := "x64"; os := "linux" |});
    (("linux", "arm64"),
     {| url := baseURL +:+ "/onnxruntime-linux-aarch64-" +:+ ortVersion +:+ ".tgz";
        libNames := ["libonnxruntime.so"; "libonnxruntime.so." +:+ ortVersion];
        arch := "aarch64"; os := "linux" |});
    (("darwin", "amd64"),
     {| url := baseURL +:+ "/onnxruntime-osx-x64-" +:+ ortVersion +:+ ".tgz";
        libNames := ["libonnxruntime.dylib"];
        arch := "x64"; os := "osx" |});
    (("darwin", "arm64"),
     {| url := baseURL +:+ "/onnxruntime-osx-arm64-" +:+ ortVersion +:+ ".tgz";
        libNames := ["libonnxruntime.dylib"];
        arch := "arm64"; os := "osx" |});
    (("windows", "amd64"),
     {| url := baseURL +:+ "/onnxruntime-win-x64-" +:+ ortVersion +:+ ".zip";
        libNames := ["onnxruntime.dll"];
        arch := "x64"; os := "win" |}) ].

Fixpoint specs_lookup (table : list ((string * string) * platformSpec))
    (goos goarch : string) : option platformSpec :=
  match table with
  | [] => None
  | ((o, a), spec) :: rest =>
      if String.eqb goos o && String.eqb goarch a then Some spec
      else specs_lookup rest goos goarch
  end.

Inductive platform_error : Type :=
  | ErrUnsupportedPlatform (goos goarch : string).

Definition platformSpecFor (goos goarch : string)
    : platform_error + platformSpec :=
  match specs_lookup specs goos goarch with
  | Some spec => inr spec
  | None => inl (ErrUnsupportedPlatform goos goarch)
  end.

(** [strings.HasSuffix(s, suffix)]. *)
Definition HasSuffix (s suffix : string) : bool :=
  (String.length suffix <=? String.length s)%nat
  && String.eqb (slice_from s (String.length s - String.length suffix)) suffix.

(** Which extractor [extractArchive] hands the archive to. *)
Inductive extractor : Type := ExtractZip | ExtractTarGz.

Definition extractArchive_dispatch (path : string) : extractor :=
  if HasSuffix path ".zip" then ExtractZip else ExtractTarGz.

(** * Properties of the embedding *)

(** ** Strings: what [Index] and slicing compute *)

Lemma append_String (c : ascii) (a b : string) :
  String c a +:+ b = String c (a +:+ b).
Proof. reflexivity. Qed.

Lemma append_nil_l (a : string) : EmptyString +:+ a = a.
Proof. reflexivity. Qed.

Lemma HasPrefix_app (s pre : string) :
  HasPrefix s pre = true ->
  s = pre +:+ slice_from s (String.length pre).
Proof.
  revert s; induction pre as [|c pre IH]; intros s H.
  - rewrite append_nil_l. destruct s; reflexivity.
  - destruct s as [|d s]; [discriminate|].
    simpl in H. apply andb_true_iff in H as [Hc Hp].
    apply Ascii.eqb_eq in Hc; subst d.
    rewrite append_String. simpl. f_equal. apply IH, Hp.
Qed.

Lemma slice_from_nil (j : nat) : slice_from EmptyString j = EmptyString.
Proof. destruct j; reflexivity. Qed.

Lemma Index_from_spec (sub s : string) (i : Z) :
  (Index_from s sub i = -1
   /\ forall j, HasPrefix (slice_from s j) sub = false)
  \/ (exists k : nat, Index_from s sub i = i + Z.of_nat k
        /\ first_occurrence s sub k).
Proof.
  revert i; induction s as [|c s IH]; intros i; cbn [Index_from].
  - destruct (HasPrefix EmptyString sub) eqn:E.
    + right. exists 0%nat. split; [lia|].
      split; [simpl; lia|]. split; [|intros j Hj; lia].
      apply HasPrefix_app in E. exact E.
    + left. split; [reflexivity|]. intros j. rewrite slice_from_nil. exact E.
  - destruct (HasPrefix (String c s) sub) eqn:E.
    + right. exists 0%nat. split; [lia|].
      split; [simpl; lia|]. split; [|intros j Hj; lia].
      apply HasPrefix_app in E. exact E.
    + destruct (IH (i + 1)) as [[H1 H2]|[k [H1 [Hk [H2 H3]]]]].
      * left. split; [exact H1|]. intros [|j]; [exact E|apply H2].
      * right. exists (S k). split; [lia|].
        split; [simpl; lia|]. split.
        -- cbn [slice_to slice_from Nat.add]. rewrite append_String.
           f_equal. exact H2.
        -- intros [|j] Hj; [exact E|]. cbn [slice_from]. apply H3. lia.
Qed.

Lemma Index_found (s sub : string) :
  0 <= Index s sub ->
  first_occurrence s sub (Z.to_nat (Index s sub)).
Proof.
  unfold Index. intros H.
  destruct (Index_from_spec sub s 0) as [[H1 _]|[k [H1 H2]]].
  - lia.
  - rewrite H1. replace (Z.to_nat (0 + Z.of_nat k)) with k by lia. exact H2.
Qed.

Lemma Index_absent (s sub : string) :
  Index s sub < 0 -> forall j, HasPrefix (slice_from s j) sub = false.
Proof.
  unfold Index. intros H.
  destruct (Index_from_spec sub s 0) as [[_ H2]|[k [H1 _]]]; [exact H2|lia].
Qed.

(** ** IO schema resolution *)

Lemma lfm2_output_loop_spec (inputs outputs : list string) :
  lfm2_output_loop inputs outputs =
  outputs ++ map (String.append "present.")
               (filter (fun name => is_core_name name = false) inputs).
Proof.
  revert outputs; induction inputs as [|name rest IH]; intros outputs.
  - simpl. rewrite app_nil_r. reflexivity.
  - cbn [lfm2_output_loop]. rewrite filter_cons.
    destruct (is_core_name name) eqn:E.
    + rewrite IH. rewrite decide_False by discriminate. reflexivity.
    + rewrite IH. rewrite decide_True by reflexivity.
      rewrite <- app_assoc. reflexivity.
Qed.

(** C3: for a configuration whose layer types are full_attention, conv,
    full_attention, [lfm2IONames] resolves the eight inputs in the stated
    order, and the outputs are logits followed by one "present."-prefixed
    name per non-core input, in input order. *)
Theorem C3_lfm2IONames_layers (c : Config) :
  LayerTypes c = ["full_attention"; "conv"; "full_attention"]%string ->
  exists inputs outputs,
    lfm2IONames (Some c) = Ok (inputs, outputs)
    /\ inputs = ["input_ids"; "attention_mask"; "position_ids";
                 "past_key_values.0.key"; "past_key_values.0.value";
                 "past_conv.1";
                 "past_key_values.2.key"; "past_key_values.2.value"]%string
    /\ outputs = ["logits";
                  "present.past_key_values.0.key";
                  "present.past_key_values.0.value";
                  "present.past_conv.1";
                  "present.past_key_values.2.key";
                  "present.past_key_values.2.value"]%string
    /\ outputs = "logits"%string ::
                 map (String.append "present.")
                   (filter (fun name => is_core_name name = false) inputs).
Proof.
  intros H. unfold lfm2IONames. rewrite H.
  eexists _, _. split; [reflexivity|].
  split; [reflexivity|]. split; [reflexivity|].
  rewrite lfm2_output_loop_spec. reflexivity.
Qed.

Lemma C3_lfm2IONames_layers_witness :
  exists inputs outputs,
    lfm2IONames
      (Some (test_config (-1) ["full_attention"; "conv"; "full_attention"]%string))
    = Ok (inputs, outputs)
    /\ length inputs = 8%nat /\ length outputs = 6%nat.
Proof.
  destruct (C3_lfm2IONames_layers
              (test_config (-1) ["full_attention"; "conv"; "full_attention"]%string)
              eq_refl)
    as (inputs & outputs & H & Hi & Ho & _).
  exists inputs, outputs. subst inputs outputs.
  split; [exact H|]. split; reflexivity.
Defined.

(** ** Stop-string evaluation *)

Section StopScan.
Context {FM : FloatModel}.

Lemma stop_scan_miss (stops : list string) (text delta : string) :
  (forall s, In s stops -> s = EmptyString \/ Index text s < 0) ->
  stop_scan stops text delta = (text, delta, false).
Proof.
  induction stops as [|s rest IH]; intros H; [reflexivity|].
  cbn [stop_scan].
  destruct (String.eqb s EmptyString) eqn:E.
  - apply IH. intros s' Hs'. apply H. right. exact Hs'.
  - destruct (H s (or_introl eq_refl)) as [->|Hneg].
    + rewrite String.eqb_refl in E. discriminate.
    + replace (0 <=? Index text s) with false by (symmetry; apply Z.leb_gt; lia).
      apply IH. intros s' Hs'. apply H. right. exact Hs'.
Qed.

Lemma stop_scan_hit (stops : list string) (text delta stop : string) :
  In stop stops -> stop <> EmptyString -> 0 <= Index text stop ->
  exists l1 s l2,
    stops = l1 ++ s :: l2
    /\ (forall s', In s' l1 -> s' = EmptyString \/ Index text s' < 0)
    /\ s <> EmptyString
    /\ 0 <= Index text s
    /\ stop_scan stops text delta =
       (slice_to text (Z.to_nat (Index text s)), EmptyString, true).
Proof.
  induction stops as [|s rest IH]; intros Hin Hne Hidx; [destruct Hin|].
  cbn [stop_scan].
  destruct (String.eqb s EmptyString) eqn:E.
  - apply String.eqb_eq in E. subst s.
    destruct Hin as [Heq|Hin]; [congruence|].
    destruct (IH Hin Hne Hidx) as (l1 & s & l2 & -> & Hl1 & Hs & Hi & Hscan).
    exists (EmptyString :: l1), s, l2. repeat split; try assumption.
    intros s' [<-|Hs']; [left; reflexivity|apply Hl1, Hs'].
  - apply String.eqb_neq in E.
    destruct (0 <=? Index text s) eqn:Ei.
    + exists [], s, rest. apply Z.leb_le in Ei.
      repeat split; try assumption. intros s' [].
    + apply Z.leb_gt in Ei.
      destruct Hin as [Heq|Hin]; [subst s; lia|].
      destruct (IH Hin Hne Hidx) as (l1 & s0 & l2 & -> & Hl1 & Hs & Hi & Hscan).
      exists (s :: l1), s0, l2. repeat split; try assumption.
      intros s' [<-|Hs']; [right; exact Ei|apply Hl1, Hs'].
Qed.


End StopScan.


(** ** Zero-filled tensors for optional inputs *)

Section ZeroTensor.
Context {FM : FloatModel}.

Lemma zero_shape_lookup (name : string) (dims : list Z) (seqLen : Z) (i : nat) (d : Z) :
  dims !! i = Some d ->
  zero_shape name dims seqLen !! i =
  Some (zero_dim (Contains name "past" || Contains name "cache")
          (length dims) seqLen i d).
Proof.
  intros H. unfold zero_shape. rewrite list_lookup_imap, H. reflexivity.
Qed.

(** C7, as the code has it: a declared positive dimension is kept; an
    undefined one becomes the sequence length when the slot is not a
    cache slot, the dimension is the last one and the sequence length is
    positive, and otherwise 1 if it is the leading dimension, 0 on a
    cache slot, and 1 on any other slot; the tensor holds that many
    zeros, int64 for a slot declared int64 and float32 for every other
    declared type, and is built whenever the element count is not
    negative and the engine accepts it. *)
Theorem C7_zeroTensorForInput_shape (ort : OrtEnv) (m : ModelForCausalLM)
    (name : string) (info : InputOutputInfo) (seqLen : Z) (w : World) :
  inputInfo m !! name = Some info ->
  let dims := Dimensions info in
  let n := length dims in
  let isCache := Contains name "past" || Contains name "cache" in
  let shape := zero_shape name dims seqLen in
  length shape = n
  /\ (forall (i : nat) (d : Z), dims !! i = Some d ->
        (0 < d -> shape !! i = Some d)
        /\ (d <= 0 -> isCache = false -> S i = n -> 0 < seqLen ->
            shape !! i = Some seqLen)
        /\ (d <= 0 -> i = 0%nat -> isCache = true \/ n <> 1%nat \/ seqLen <= 0 ->
            shape !! i = Some 1)
        /\ (d <= 0 -> i <> 0%nat -> isCache = true -> shape !! i = Some 0)
        /\ (d <= 0 -> i <> 0%nat -> isCache = false -> S i <> n \/ seqLen <= 0 ->
            shape !! i = Some 1))
  /\ (0 <= zero_count shape ->
      NewTensor_err ort (attempts w) (zero_spec info shape) = None ->
      exists w',
        zeroTensorForInput ort m name seqLen w
        = (Ok {| handle := next_handle w; spec := zero_spec info shape |}, w')
        /\ built w' = built w ++ [next_handle w]).
Proof.
  intros Hinfo dims n isCache shape.
  split; [unfold shape, zero_shape; apply length_imap|].
  split.
  - intros i d Hd.
    assert (Hi : (i < n)%nat) by (eapply lookup_lt_Some; exact Hd).
    unfold shape. rewrite (zero_shape_lookup name dims seqLen i d Hd).
    fold isCache n. unfold zero_dim.
    repeat split.
    + intros H. replace (d <=? 0) with false by (symmetry; apply Z.leb_gt; lia).
      reflexivity.
    + intros H Hc Hn Hs. replace (d <=? 0) with true by (symmetry; apply Z.leb_le; lia).
      rewrite Hc.
      replace (Z.of_nat i =? Z.of_nat n - 1) with true by (symmetry; apply Z.eqb_eq; lia).
      replace (0 <? seqLen) with true by (symmetry; apply Z.ltb_lt; lia).
      reflexivity.
    + intros H -> Hor. replace (d <=? 0) with true by (symmetry; apply Z.leb_le; lia).
      cbn [Nat.eqb].
      destruct isCache; [reflexivity|].
      destruct Hor as [Hc|[Hn|Hs]]; [discriminate| |].
      * replace (Z.of_nat 0 =? Z.of_nat n - 1) with false
          by (symmetry; apply Z.eqb_neq; lia).
        reflexivity.
      * replace (0 <? seqLen) with false by (symmetry; apply Z.ltb_ge; lia).
        rewrite andb_false_r. reflexivity.
    + intros H Hi0 Hc. replace (d <=? 0) with true by (symmetry; apply Z.leb_le; lia).
      rewrite Hc. replace (i =? 0)%nat with false
        by (symmetry; apply Nat.eqb_neq; exact Hi0).
      reflexivity.
    + intros H Hi0 Hc Hor. replace (d <=? 0) with true by (symmetry; apply Z.leb_le; lia).
      rewrite Hc. replace (i =? 0)%nat with false
        by (symmetry; apply Nat.eqb_neq; exact Hi0).
      destruct Hor as [Hn|Hs].
      * replace (Z.of_nat i =? Z.of_nat n - 1) with false
          by (symmetry; apply Z.eqb_neq; lia).
        reflexivity.
      * replace (0 <? seqLen) with false by (symmetry; apply Z.ltb_ge; lia).
        rewrite andb_false_r. reflexivity.
  - intros Hcount Hok. unfold zeroTensorForInput. rewrite Hinfo.
    fold dims shape.
    replace (zero_count shape <? 0) with false by (symmetry; apply Z.ltb_ge; lia).
    unfold zero_spec in Hok |- *.
    unfold tensorFromInt64s, tensorFromFloat32s, NewTensor.
    destruct (DataType info); rewrite Hok; eexists; split; reflexivity.
Qed.

End ZeroTensor.

Lemma C7_zeroTensorForInput_shape_witness :
  let m := test_model (FM := Z_floats) (-1) None
             ["input_ids"; "past_conv.0"]%string ["logits"]%string
             [test_info "past_conv.0" [-1; 4; -1] TensorElementDataTypeFloat] in
  exists w',
    zeroTensorForInput (FM := Z_floats) ort_ok m "past_conv.0" 3 world0
    = (Ok {| handle := 0; spec := SpecFloat32 [1; 4; 0] [] |}, w')
    /\ built w' = [0%nat].
Proof.
  intros m.
  destruct (C7_zeroTensorForInput_shape (FM := Z_floats) ort_ok m "past_conv.0"
              (test_info "past_conv.0" [-1; 4; -1] TensorElementDataTypeFloat)
              3 world0 eq_refl) as (_ & _ & H).
  apply H; [vm_compute; discriminate | reflexivity].
Defined.

(** A non-cache slot of rank 1 with an undefined dimension: the leading
    dimension becomes the sequence length, not 1. *)
Lemma C7_leading_dim_counterexample :
  ~ (forall (m : ModelForCausalLM (FM := Z_floats)) (name : string)
       (info : InputOutputInfo) (seqLen d : Z) (t : Value) (w w' : World),
       inputInfo m !! name = Some info ->
       Dimensions info !! 0%nat = Some d -> d <= 0 ->
       zeroTensorForInput ort_ok m name seqLen w = (Ok t, w') ->
       spec_shape (spec t) !! 0%nat = Some 1).
Proof.
  intros H.
  specialize (H (test_model (-1) None
                   ["input_ids"; "token_type_ids"]%string ["logits"]%string
                   [test_info "token_type_ids" [-1] TensorElementDataTypeInt64])
                "token_type_ids"%string
                (test_info "token_type_ids" [-1] TensorElementDataTypeInt64)
                5 (-1) _ world0 _ eq_refl eq_refl ltac:(lia) eq_refl).
  vm_compute in H. discriminate.
Qed.

(** ** The options the pipeline hands to Generate *)

Section PipelineOptions.
Context {FM : FloatModel}.


End PipelineOptions.


(** ** Sampling is not wired into the loop *)

Section Sampling.
Context {FM : FloatModel}.
Variable ort : OrtEnv.

Lemma loop_DoSample (m : ModelForCausalLM) (sess : DynamicAdvancedSession)
    (tokenizer : option Tokenizer) (opts : GenerationOptions) (b : bool)
    (n : nat) (step : Z) (st : LoopState) (w : World) :
  loop ort m sess tokenizer (with_DoSample b opts) n step st w
  = loop ort m sess tokenizer opts n step st w.
Proof.
  revert step st w; induction n as [|n IH]; intros step st w; [reflexivity|].
  cbn [loop]. unfold bind.
  change (step_body ort m sess tokenizer (with_DoSample b opts) step st)
    with (step_body ort m sess tokenizer opts step st).
  destruct (step_body ort m sess tokenizer opts step st w) as [[[[|] st']| |] w'];
    cbn [fst snd]; [apply IH|reflexivity..].
Qed.

(** C6: [Generate] never reads [DoSample]: for every engine, model,
    tokenizer, input and option set, the call with [DoSample] set either
    way yields the same result and the same effects as the call with
    the caller's options; the token is always [argmaxF32] of the last
    row of logits. *)
Theorem C6_DoSample_ignored (m : ModelForCausalLM) (tokenizer : option Tokenizer)
    (inputIDs attentionMask : list (list Z)) (opts : GenerationOptions)
    (w : World) :
  Generate ort m tokenizer inputIDs attentionMask (with_DoSample true opts) w
  = Generate ort m tokenizer inputIDs attentionMask (with_DoSample false opts) w.
Proof.
  assert (H : forall b,
    Generate ort m tokenizer inputIDs attentionMask (with_DoSample b opts) w
    = Generate ort m tokenizer inputIDs attentionMask opts w).
  { intros b. unfold Generate.
    destruct tokenizer as [t|]; [|reflexivity].
    destruct (session m) as [sess|]; [|reflexivity].
    destruct inputIDs as [|ids [|]]; try reflexivity.
    destruct attentionMask as [|mask [|]]; try reflexivity.
    assert (E : forall o, generateSimpleCausal ort m sess (Some t) ids mask
                            (with_DoSample b o) w
                          = generateSimpleCausal ort m sess (Some t) ids mask o w).
    { intros o. unfold generateSimpleCausal, bind.
      cbn [MaxNewTokens with_DoSample]. rewrite loop_DoSample. reflexivity. }
    unfold default_MaxNewTokens. cbn [MaxNewTokens with_DoSample].
    destruct (MaxNewTokens opts <=? 0).
    - change (with_MaxNewTokens 128 (with_DoSample b opts))
        with (with_DoSample b (with_MaxNewTokens 128 opts)).
      destruct (ioPreset m); apply E.
    - destruct (ioPreset m); apply E. }
  rewrite (H true), (H false). reflexivity.
Qed.

End Sampling.

(** ** Effects of the engine operations on the world *)

Section Effects.
Context {FM : FloatModel}.
Variable ort : OrtEnv.

Lemma keeps_runs_ret {A} (a : A) : keeps_runs (ret a).
Proof. intros w r w' H. injection H as _ <-. reflexivity. Qed.

Lemma keeps_runs_fail {A} (e : error) : keeps_runs (fail (A := A) e).
Proof. intros w r w' H. injection H as _ <-. reflexivity. Qed.

Lemma keeps_runs_panic {A} : keeps_runs (panic (A := A)).
Proof. intros w r w' H. injection H as _ <-. reflexivity. Qed.

Lemma keeps_runs_bind {A B} (c : M A) (k : A -> M B) :
  keeps_runs c -> (forall a, keeps_runs (k a)) -> keeps_runs (bind c k).
Proof.
  intros Hc Hk w r w' H. unfold bind in H.
  destruct (c w) as [[a|e|] w1] eqn:E; specialize (Hc _ _ _ E).
  - apply Hk in H. congruence.
  - injection H as _ <-. exact Hc.
  - injection H as _ <-. exact Hc.
Qed.

Lemma keeps_runs_on_err {A B} (c : M A) (h : error -> M B) (k : A -> M B) :
  keeps_runs c -> (forall e, keeps_runs (h e)) -> (forall a, keeps_runs (k a)) ->
  keeps_runs (on_err c h k).
Proof.
  intros Hc Hh Hk w r w' H. unfold on_err in H.
  destruct (c w) as [[a|e|] w1] eqn:E; specialize (Hc _ _ _ E).
  - apply Hk in H. congruence.
  - apply Hh in H. congruence.
  - injection H as _ <-. exact Hc.
Qed.

Lemma keeps_runs_NewTensor (s : TensorSpec) : keeps_runs (NewTensor ort s).
Proof.
  intros w r w' H. unfold NewTensor in H.
  destruct (NewTensor_err ort (attempts w) s); injection H as _ <-; reflexivity.
Qed.

Lemma keeps_runs_Destroy_handle (h : nat) : keeps_runs (Destroy_handle h).
Proof. intros w r w' H. injection H as _ <-. reflexivity. Qed.

Lemma keeps_runs_Destroy (v : Value) : keeps_runs (Destroy v).
Proof. apply keeps_runs_Destroy_handle. Qed.

Lemma keeps_runs_Destroy_all (vs : list Value) : keeps_runs (Destroy_all vs).
Proof.
  induction vs as [|v vs IH]; cbn [Destroy_all].
  - apply keeps_runs_ret.
  - apply keeps_runs_bind; [apply keeps_runs_Destroy|intros _; exact IH].
Qed.

Lemma keeps_runs_zeroTensorForInput (m : ModelForCausalLM) (name : string) (seqLen : Z) :
  keeps_runs (zeroTensorForInput ort m name seqLen).
Proof.
  unfold zeroTensorForInput.
  destruct (inputInfo m !! name) as [info|]; [|apply keeps_runs_fail].
  unfold tensorFromInt64s, tensorFromFloat32s.
  destruct (DataType info); destruct (_ <? 0);
    first [apply keeps_runs_panic | apply keeps_runs_NewTensor].
Qed.

Create HintDb runs.

#[local] Hint Resolve keeps_runs_ret keeps_runs_fail keeps_runs_panic
  keeps_runs_NewTensor keeps_runs_Destroy keeps_runs_Destroy_handle
  keeps_runs_Destroy_all keeps_runs_zeroTensorForInput : runs.

Ltac keeps_runs_step :=
  first [ apply keeps_runs_bind; [|intro]
        | apply keeps_runs_on_err; [|intro|intro]
        | solve [auto with runs] ].

Lemma keeps_runs_assemble_inputs (m : ModelForCausalLM) (ids : list Z)
    (inputTensor maskTensor : Value) (names : list string) (i : nat)
    (inputs : list (option Value)) (toDestroy : list Value) :
  keeps_runs (assemble_inputs ort m ids inputTensor maskTensor names i inputs toDestroy).
Proof.
  revert i inputs toDestroy; induction names as [|name rest IH];
    intros i inputs toDestroy; cbn [assemble_inputs].
  - apply keeps_runs_ret.
  - destruct (String.eqb name "input_ids"); [apply IH|].
    destruct (String.eqb name "attention_mask"); [apply IH|].
    destruct (String.eqb name "position_ids").
    + unfold tensorFromInt64s. repeat keeps_runs_step; apply IH.
    + repeat keeps_runs_step; apply IH.
Qed.

Lemma keeps_runs_scan_outputs (names : list string) (i : nat)
    (outputs : list (option Value)) (l : option Float32Tensor) :
  keeps_runs (scan_outputs names i outputs l).
Proof.
  revert i l; induction names as [|name rest IH]; intros i l; cbn [scan_outputs].
  - apply keeps_runs_ret.
  - destruct (negb (String.eqb name "logits")).
    + destruct (outputs !! i) as [[v|]|]; try apply IH.
      apply keeps_runs_bind; [apply keeps_runs_Destroy|intros _; apply IH].
    + destruct (outputs !! i) as [[v|]|]; try apply keeps_runs_fail.
      destruct (spec v); first [apply IH|apply keeps_runs_fail].
Qed.

Lemma keeps_runs_pick_next (m : ModelForCausalLM) (ids : list Z)
    (outputs : list (option Value)) :
  keeps_runs (pick_next m ids outputs).
Proof.
  unfold pick_next. apply keeps_runs_bind; [apply keeps_runs_scan_outputs|].
  intros [l|]; [|apply keeps_runs_fail].
  destruct (ft_shape l) as [|a [|b [|c [|]]]]; try apply keeps_runs_fail.
  destruct (slice_f32 _ _ _); [|apply keeps_runs_panic].
  repeat keeps_runs_step.
Qed.

(** A graph run counts once, whether it fails or not. *)
Lemma session_Run_runs (sess : DynamicAdvancedSession)
    (inputs : list (option Value)) (nOut : nat) (w : World) r w' :
  session_Run sess inputs nOut w = (r, w') ->
  runs w' = S (runs w) /\ r <> Panic.
Proof.
  unfold session_Run. intros H.
  destruct (Run_result sess (runs w) _) as [cause|out].
  - injection H as <- <-. split; [reflexivity|discriminate].
  - destruct (alloc_outputs out 0 nOut (next_handle w)) as [[vs hs] h'].
    injection H as <- <-. split; [reflexivity|discriminate].
Qed.

(** One iteration runs the graph at most once, and exactly once when it
    selects a token. *)
Lemma select_next_runs (m : ModelForCausalLM) (sess : DynamicAdvancedSession)
    (ids mask : list Z) (w : World) r w' :
  select_next ort m sess ids mask w = (r, w') ->
  (runs w' <= S (runs w))%nat
  /\ (forall nextID, r = Ok nextID -> runs w' = S (runs w)).
Proof.
  unfold select_next, run_graph, bind at 1. unfold on_err at 1.
  unfold tensorFromInt64s.
  destruct (NewTensor ort (SpecInt64 [1; Z.of_nat (length ids)] ids) w)
    as [[inputTensor|e|] w1] eqn:E1;
    pose proof (keeps_runs_NewTensor _ _ _ _ E1) as R1.
  2:{ intros H. injection H as <- <-. split; [lia|discriminate]. }
  2:{ intros H. injection H as <- <-. split; [lia|discriminate]. }
  unfold on_err at 1.
  destruct (NewTensor ort (SpecInt64 [1; Z.of_nat (length mask)] mask) w1)
    as [[maskTensor|e|] w2] eqn:E2;
    pose proof (keeps_runs_NewTensor _ _ _ _ E2) as R2.
  2:{ intros H.
      destruct (bind (Destroy inputTensor) (fun _ => fail (ErrCreateAttentionMask e)) w2)
        as [[a|e'|] w3] eqn:E3.
      - exfalso. unfold bind, Destroy, Destroy_handle, fail in E3. discriminate.
      - assert (R3 : runs w3 = runs w2).
        { revert E3. apply keeps_runs_bind; auto with runs. }
        injection H as <- <-. split; [lia|discriminate].
      - injection H as <- <-.
        assert (R3 : runs w3 = runs w2).
        { revert E3. apply keeps_runs_bind; auto with runs. }
        split; [lia|discriminate]. }
  2:{ intros H. injection H as <- <-. split; [lia|discriminate]. }
  unfold bind at 1.
  destruct (assemble_inputs ort m ids inputTensor maskTensor (inputNames m) 0
              (replicate (length (inputNames m)) None) [] w2)
    as [[a|e|] w3] eqn:E3;
    pose proof (keeps_runs_assemble_inputs _ _ _ _ _ _ _ _ _ _ _ E3) as R3.
  2:{ intros H. injection H as <- <-. split; [lia|discriminate]. }
  2:{ intros H. injection H as <- <-. split; [lia|discriminate]. }
  unfold on_err at 1.
  destruct (session_Run sess (fst a) (length (outputNames m)) w3)
    as [[outputs|e|] w4] eqn:E4;
    destruct (session_Run_runs _ _ _ _ _ _ E4) as [R4 NP]; [| |congruence].
  - destruct (bind (Destroy inputTensor)
                (fun _ => bind (Destroy maskTensor)
                   (fun _ => bind (Destroy_all (snd a)) (fun _ => ret outputs))) w4)
      as [r5 w5] eqn:E5.
    assert (R5 : runs w5 = runs w4).
    { revert E5. repeat keeps_runs_step. }
    destruct r5 as [outs|e|].
    + intros H. apply keeps_runs_pick_next in H.
      split; [lia|intros; lia].
    + intros H. injection H as <- <-. split; [lia|discriminate].
    + intros H. injection H as <- <-. split; [lia|discriminate].
  - destruct (bind (Destroy inputTensor)
                (fun _ => bind (Destroy maskTensor)
                   (fun _ => bind (Destroy_all (snd a)) (fun _ => fail e))) w4)
      as [r5 w5] eqn:E5.
    assert (R5 : runs w5 = runs w4).
    { revert E5. repeat keeps_runs_step. }
    assert (N5 : forall x, r5 <> Ok x).
    { intros x ->. revert E5. unfold bind, Destroy, Destroy_handle.
      destruct (Destroy_all (snd a) _) as [[[]| |] ?]; discriminate. }
    destruct r5 as [outs|e5|].
    + exfalso. eapply N5. reflexivity.
    + intros H. injection H as <- <-. split; [lia|discriminate].
    + intros H. injection H as <- <-. split; [lia|discriminate].
Qed.

End Effects.

(** ** The decoding loop *)

Section Loop.
Context {FM : FloatModel}.
Variable ort : OrtEnv.
Variable m : ModelForCausalLM.
Variable sess : DynamicAdvancedSession.
Variable tokenizer : option Tokenizer.
Variable opts : GenerationOptions.

Lemma step_update_state (step : Z) (st : LoopState) (nextID : Z) :
  let '(st', ev, _, _) := step_update m tokenizer opts step st nextID in
  generated st' = generated st ++ [nextID]
  /\ curIDs st' = curIDs st ++ [nextID]
  /\ curMask st' = curMask st ++ [1]
  /\ TokenID ev = nextID /\ Step ev = step
  /\ FullText ev = fullText st'.
Proof.
  unfold step_update.
  destruct (decode_delta tokenizer nextID (fullText st)) as [d t].
  destruct (stop_scan (StopSequences opts) t d) as [[t' d'] h].
  cbn. repeat split.
Qed.

Lemma finish_step_state (step : Z) (st : LoopState) (nextID : Z) :
  snd (finish_step m tokenizer opts step st nextID)
  = fst (fst (fst (step_update m tokenizer opts step st nextID))).
Proof.
  unfold finish_step.
  destruct (step_update m tokenizer opts step st nextID) as [[[st' ev] done] stopHit].
  cbn [fst snd].
  destruct (Streamer opts) as [f|].
  - destruct (negb (f ev)); [reflexivity|]. destruct (done || stopHit); reflexivity.
  - destruct (done || stopHit); reflexivity.
Qed.

Lemma finish_step_appends (step : Z) (st : LoopState) (nextID : Z) :
  let st' := snd (finish_step m tokenizer opts step st nextID) in
  generated st' = generated st ++ [nextID]
  /\ curIDs st' = curIDs st ++ [nextID]
  /\ curMask st' = curMask st ++ [1].
Proof.
  cbv zeta. rewrite finish_step_state.
  pose proof (step_update_state step st nextID) as H.
  destruct (step_update m tokenizer opts step st nextID) as [[[st' ev] done] stopHit].
  cbn [fst]. tauto.
Qed.

(** A step that does not leave the loop saw no end-of-sequence token,
    no stop string and no cancellation. *)
Lemma finish_step_Continue (step : Z) (st : LoopState) (nextID : Z) :
  fst (finish_step m tokenizer opts step st nextID) = Continue ->
  let '(_, ev, done, stopHit) := step_update m tokenizer opts step st nextID in
  done = false /\ stopHit = false
  /\ (forall f, Streamer opts = Some f -> f ev = true).
Proof.
  unfold finish_step.
  destruct (step_update m tokenizer opts step st nextID) as [[[st' ev] done] stopHit].
  destruct (Streamer opts) as [f|].
  - destruct (f ev) eqn:Ef; cbn [negb fst]; [|discriminate].
    destruct done, stopHit; cbn; try discriminate.
    intros _. repeat split. intros f' [= <-]. exact Ef.
  - destruct done, stopHit; cbn; try discriminate.
    intros _. repeat split. intros f' [=].
Qed.

Lemma loop_S (n : nat) (step : Z) (st : LoopState) (w : World) :
  loop ort m sess tokenizer opts (S n) step st w =
  match select_next ort m sess (curIDs st) (curMask st) w with
  | (Ok nextID, w1) =>
      match fst (finish_step m tokenizer opts step st nextID) with
      | Break => (Ok (finish_step m tokenizer opts step st nextID), w1)
      | Continue =>
          loop ort m sess tokenizer opts n (step + 1)
            (snd (finish_step m tokenizer opts step st nextID)) w1
      end
  | (Err e, w1) => (Err e, w1)
  | (Panic, w1) => (Panic, w1)
  end.
Proof.
  cbn [loop]. unfold bind at 1. unfold step_body, bind.
  destruct (select_next ort m sess (curIDs st) (curMask st) w) as [[nextID|e|] w1];
    try reflexivity.
  unfold ret. destruct (fst (finish_step m tokenizer opts step st nextID)); reflexivity.
Qed.


(** What a run of the loop that returns has done: it appended the same
    tokens to [generated] and to the ids, as many ones to the mask, and
    ran the graph once per token. *)
Lemma loop_appends (n : nat) (step : Z) (st : LoopState) (w : World) c st' w' :
  loop ort m sess tokenizer opts n step st w = (Ok (c, st'), w') ->
  exists toks,
    generated st' = generated st ++ toks
    /\ curIDs st' = curIDs st ++ toks
    /\ curMask st' = curMask st ++ replicate (length toks) 1
    /\ (length toks <= n)%nat
    /\ runs w' = (runs w + length toks)%nat
    /\ (c = Continue -> length toks = n)
    /\ (c = Break -> (1 <= length toks)%nat).
Proof.
  revert step st w; induction n as [|n IH]; intros step st w.
  - cbn. intros [= <- <- <-]. exists [].
    rewrite !app_nil_r. cbn. repeat split; try lia. discriminate.
  - rewrite loop_S.
    destruct (select_next ort m sess (curIDs st) (curMask st) w)
      as [[nextID|e|] w1] eqn:E; [|discriminate..].
    destruct (select_next_runs ort m sess _ _ _ _ _ E) as [_ Hr].
    specialize (Hr nextID eq_refl).
    pose proof (finish_step_appends step st nextID) as (Hg & Hi & Hm).
    destruct (finish_step m tokenizer opts step st nextID) as [c1 st1] eqn:Ef.
    cbn [fst snd] in *. destruct c1.
    + intros H. apply IH in H as (toks & H1 & H2 & H3 & H4 & H5 & H6 & H7).
      exists (nextID :: toks).
      rewrite H1, H2, H3, Hg, Hi, Hm, <- !app_assoc. cbn [length replicate].
      repeat split; try reflexivity; try lia.
      * intros Hc. rewrite (H6 Hc). reflexivity.
    + intros [= <- <- <-]. exists [nextID]. cbn.
      repeat split; try assumption; try lia. discriminate.
Qed.

End Loop.

Section LoopRuns.
Context {FM : FloatModel}.
Variable ort : OrtEnv.
Variable m : ModelForCausalLM.
Variable sess : DynamicAdvancedSession.
Variable tokenizer : option Tokenizer.
Variable opts : GenerationOptions.

(** Iterations that all continue can be split off the front. *)
Lemma loop_split (j n : nat) (step : Z) (st : LoopState) (w : World) st1 w1 :
  loop ort m sess tokenizer opts j step st w = (Ok (Continue, st1), w1) ->
  loop ort m sess tokenizer opts (j + n) step st w
  = loop ort m sess tokenizer opts n (step + Z.of_nat j) st1 w1.
Proof.
  revert step st w; induction j as [|j IH]; intros step st w.
  - cbn. intros [= <- <-]. f_equal. lia.
  - replace (S j + n)%nat with (S (j + n)) by lia. rewrite !loop_S.
    destruct (select_next ort m sess (curIDs st) (curMask st) w)
      as [[nextID|e|] w2]; [|discriminate..].
    destruct (fst (finish_step m tokenizer opts step st nextID)) eqn:Ef.
    + intros H. rewrite (IH _ _ _ H). f_equal. lia.
    + destruct (finish_step m tokenizer opts step st nextID) as [c s].
      cbn in Ef. subst c. discriminate.
Qed.

(** Once the loop is left, more remaining iterations change nothing. *)
Lemma loop_Break_stable (j n : nat) (step : Z) (st : LoopState) (w : World) st1 w1 :
  loop ort m sess tokenizer opts j step st w = (Ok (Break, st1), w1) ->
  loop ort m sess tokenizer opts (j + n) step st w = (Ok (Break, st1), w1).
Proof.
  revert step st w; induction j as [|j IH]; intros step st w.
  - cbn. discriminate.
  - replace (S j + n)%nat with (S (j + n)) by lia. rewrite !loop_S.
    destruct (select_next ort m sess (curIDs st) (curMask st) w)
      as [[nextID|e|] w2]; [|discriminate..].
    destruct (fst (finish_step m tokenizer opts step st nextID)) eqn:Ef.
    + apply IH.
    + tauto.
Qed.

Lemma stop_scan_false (stops : list string) (text delta text' delta' : string) :
  stop_scan stops text delta = (text', delta', false) ->
  text' = text /\ delta' = delta /\ no_stop_in stops text.
Proof.
  induction stops as [|s rest IH]; cbn [stop_scan].
  - intros [= <- <-]. repeat split. intros s [].
  - destruct (String.eqb s EmptyString) eqn:E.
    + intros H. destruct (IH H) as (H1 & H2 & H3). repeat split; try assumption.
      intros s' [<-|Hs']; [left; apply String.eqb_eq, E|apply H3, Hs'].
    + destruct (0 <=? Index text s) eqn:Ei; [discriminate|].
      intros H. destruct (IH H) as (H1 & H2 & H3). repeat split; try assumption.
      intros s' [<-|Hs']; [right; apply Z.leb_gt, Ei|apply H3, Hs'].
Qed.

Lemma no_stop_in_empty (stops : list string) : no_stop_in stops EmptyString.
Proof.
  intros s _. destruct s as [|c s]; [left; reflexivity|right].
  unfold Index. cbn. lia.
Qed.

(** At the head of every iteration the accumulated text holds no
    configured stop string. *)
Lemma finish_step_Continue_no_stop (step : Z) (st : LoopState) (nextID : Z) :
  fst (finish_step m tokenizer opts step st nextID) = Continue ->
  no_stop_in (StopSequences opts)
    (fullText (snd (finish_step m tokenizer opts step st nextID))).
Proof.
  intros H. rewrite finish_step_state.
  apply finish_step_Continue in H. revert H. unfold step_update.
  destruct (decode_delta tokenizer nextID (fullText st)) as [d t].
  destruct (stop_scan (StopSequences opts) t d) as [[t' d'] h] eqn:Es.
  intros (_ & -> & _). cbn [fst fullText].
  apply stop_scan_false in Es as (-> & _ & Hno). exact Hno.
Qed.

Lemma loop_head_no_stop (n : nat) (step : Z) (st : LoopState) (w : World) st' w' :
  no_stop_in (StopSequences opts) (fullText st) ->
  loop ort m sess tokenizer opts n step st w = (Ok (Continue, st'), w') ->
  no_stop_in (StopSequences opts) (fullText st').
Proof.
  revert step st w; induction n as [|n IH]; intros step st w Hno.
  - cbn. intros [= <- <-]. exact Hno.
  - rewrite loop_S.
    destruct (select_next ort m sess (curIDs st) (curMask st) w)
      as [[nextID|e|] w2]; [|discriminate..].
    destruct (fst (finish_step m tokenizer opts step st nextID)) eqn:Ef.
    + apply IH. apply finish_step_Continue_no_stop, Ef.
    + destruct (finish_step m tokenizer opts step st nextID) as [c s].
      cbn in Ef. subst c. discriminate.
Qed.


(** A step that selects the end-of-sequence token leaves the loop. *)
Lemma finish_step_eos (step : Z) (st : LoopState) (nextID : Z) :
  0 <= EOS_TOKEN_ID (config m) -> nextID = EOS_TOKEN_ID (config m) ->
  fst (finish_step m tokenizer opts step st nextID) = Break
  /\ Done (snd (fst (fst (step_update m tokenizer opts step st nextID)))) = true.
Proof.
  intros H0 ->. unfold finish_step, step_update.
  destruct (decode_delta tokenizer _ (fullText st)) as [d t].
  destruct (stop_scan (StopSequences opts) t d) as [[t' d'] h].
  rewrite Z.eqb_refl.
  replace (0 <=? EOS_TOKEN_ID (config m)) with true by (symmetry; apply Z.leb_le; lia).
  cbn. split; [|reflexivity].
  destruct (Streamer opts) as [f|]; [|reflexivity].
  destruct (negb _); reflexivity.
Qed.

End LoopRuns.

(** ** Properties of Generate *)

Section GenerateProps.
Context {FM : FloatModel}.
Variable ort : OrtEnv.

Lemma Generate_eq (m : ModelForCausalLM) (t : Tokenizer)
    (sess : DynamicAdvancedSession) (ids mask : list Z)
    (opts : GenerationOptions) (w : World) :
  session m = Some sess ->
  Generate ort m (Some t) [ids] [mask] opts w
  = generateSimpleCausal ort m sess (Some t) ids mask (default_MaxNewTokens opts) w.
Proof.
  intros Hs. unfold Generate. rewrite Hs. destruct (ioPreset m); reflexivity.
Qed.

(** C8, as the code has it: every iteration appends one token id and one
    mask entry 1, so the difference between the two lengths stays what
    it was on entry; the lengths are equal throughout exactly when the
    caller's ids and mask have equal lengths. *)
Theorem C8_length_difference_kept (m : ModelForCausalLM)
    (tokenizer : option Tokenizer) (ids mask : list Z)
    (opts : GenerationOptions) (w0 : World) (st : LoopState) :
  Generate_visits ort m tokenizer [ids] [mask] opts w0 st ->
  curIDs st = ids ++ generated st
  /\ curMask st = mask ++ replicate (length (generated st)) 1
  /\ Z.of_nat (length (curIDs st)) - Z.of_nat (length (curMask st))
     = Z.of_nat (length ids) - Z.of_nat (length mask)
  /\ (length (curIDs st) = length (curMask st) <-> length ids = length mask).
Proof.
  intros (t & sess & ids' & mask' & k & c & w & -> & Hs & [= <-] & [= <-] & Hk & Hloop).
  apply loop_appends in Hloop as (toks & Hg & Hi & Hm & _).
  cbn in Hg, Hi, Hm. subst toks.
  rewrite Hi, Hm, !length_app, length_replicate.
  repeat split; try reflexivity; lia.
Qed.


(** C5: when the configured end-of-sequence id is non-negative and is
    the token selected at step [k] (after [k - 1] steps that all
    continued), [Generate] returns [k] ids, the last of which is that
    id, after exactly [k] graph runs: no later step executes. *)
Theorem C5_eos_ends_generation (m : ModelForCausalLM) (t : Tokenizer)
    (sess : DynamicAdvancedSession) (ids mask : list Z)
    (opts : GenerationOptions) (w0 : World) (k : nat) st w w1 :
  session m = Some sess ->
  0 <= EOS_TOKEN_ID (config m) ->
  (1 <= k)%nat ->
  Z.of_nat k <= MaxNewTokens (default_MaxNewTokens opts) ->
  loop ort m sess (Some t) (default_MaxNewTokens opts) (k - 1) 0
    (init_state ids mask) w0 = (Ok (Continue, st), w) ->
  select_next ort m sess (curIDs st) (curMask st) w
    = (Ok (EOS_TOKEN_ID (config m)), w1) ->
  exists gen,
    Generate ort m (Some t) [ids] [mask] opts w0 = (Ok [gen], w1)
    /\ length gen = k
    /\ last gen = Some (EOS_TOKEN_ID (config m))
    /\ runs w1 = (runs w0 + k)%nat.
Proof.
  intros Hs Heos Hk HM Hl Hsel.
  set (opts' := default_MaxNewTokens opts) in *.
  rewrite (Generate_eq m t sess ids mask opts w0 Hs). fold opts'.
  unfold generateSimpleCausal, bind.
  replace (Z.to_nat (MaxNewTokens opts'))
    with ((k - 1) + S (Z.to_nat (MaxNewTokens opts') - k))%nat by lia.
  rewrite (loop_split _ _ _ _ _ _ _ _ _ _ _ _ Hl), loop_S, Hsel.
  destruct (finish_step_eos m (Some t) opts' (0 + Z.of_nat (k - 1)) st _ Heos eq_refl)
    as [Hb _].
  rewrite Hb.
  pose proof (finish_step_appends m (Some t) opts' (0 + Z.of_nat (k - 1)) st
                (EOS_TOKEN_ID (config m))) as (Hg & _ & _).
  exists (generated (snd (finish_step m (Some t) opts' (0 + Z.of_nat (k - 1)) st
                            (EOS_TOKEN_ID (config m))))).
  split; [reflexivity|].
  apply loop_appends in Hl as (toks & Hg0 & _ & _ & _ & Hr & Hc & _).
  cbn in Hg0. rewrite Hg, Hg0, length_app, last_snoc, (Hc eq_refl). cbn [length].
  destruct (select_next_runs ort m sess _ _ _ _ _ Hsel) as [_ Hr1].
  rewrite (Hr1 _ eq_refl), Hr, (Hc eq_refl).
  repeat split; lia.
Qed.

(** C9: when [Decode] fails for the token selected at a step of
    [Generate], the step still completes: the token is appended to the
    generated ids, the ids and the mask, the delta text is empty, the
    accumulated text is unchanged, no stop string is hit, and the loop
    goes on unless the token is the end-of-sequence id or the streamer
    cancels; no error is returned. *)
Theorem C9_decode_failure_tolerated (m : ModelForCausalLM) (t : Tokenizer)
    (sess : DynamicAdvancedSession) (ids mask : list Z)
    (opts : GenerationOptions) (w0 : World) (k : nat) st w nextID w1 txt e :
  loop ort m sess (Some t) opts k 0 (init_state ids mask) w0
    = (Ok (Continue, st), w) ->
  select_next ort m sess (curIDs st) (curMask st) w = (Ok nextID, w1) ->
  Decode t [nextID] = (txt, Some e) ->
  exists c st' ev done,
    step_update m (Some t) opts (Z.of_nat k) st nextID = (st', ev, done, false)
    /\ loop ort m sess (Some t) opts (S k) 0 (init_state ids mask) w0
       = (Ok (c, st'), w1)
    /\ generated st' = generated st ++ [nextID]
    /\ curIDs st' = curIDs st ++ [nextID]
    /\ curMask st' = curMask st ++ [1]
    /\ fullText st' = fullText st
    /\ DeltaText ev = EmptyString
    /\ FullText ev = fullText st
    /\ (done = false -> (forall f, Streamer opts = Some f -> f ev = true) ->
        c = Continue).
Proof.
  intros Hl Hsel Hdec.
  assert (Hno : no_stop_in (StopSequences opts) (fullText st)).
  { eapply loop_head_no_stop; [|exact Hl]. apply no_stop_in_empty. }
  assert (Hupd : step_update m (Some t) opts (Z.of_nat k) st nextID =
    ({| generated := generated st ++ [nextID]; curIDs := curIDs st ++ [nextID];
        curMask := curMask st ++ [1]; fullText := fullText st |},
     {| TokenID := nextID; DeltaText := EmptyString; FullText := fullText st;
        Step := Z.of_nat k;
        Done := (0 <=? EOS_TOKEN_ID (config m)) && (nextID =? EOS_TOKEN_ID (config m))
                || false |},
     (0 <=? EOS_TOKEN_ID (config m)) && (nextID =? EOS_TOKEN_ID (config m)), false)).
  { unfold step_update, decode_delta. rewrite Hdec.
    rewrite (stop_scan_miss _ _ _ Hno). reflexivity. }
  eexists (fst (finish_step m (Some t) opts (Z.of_nat k) st nextID)), _, _, _.
  split; [exact Hupd|].
  assert (Hfin : snd (finish_step m (Some t) opts (Z.of_nat k) st nextID)
                 = {| generated := generated st ++ [nextID];
                      curIDs := curIDs st ++ [nextID];
                      curMask := curMask st ++ [1]; fullText := fullText st |}).
  { rewrite finish_step_state, Hupd. reflexivity. }
  split.
  { replace (S k) with (k + 1)%nat by lia.
    rewrite (loop_split _ _ _ _ _ _ _ _ _ _ _ _ Hl), loop_S, Hsel.
    change (0 + Z.of_nat k) with (Z.of_nat k).
    destruct (finish_step m (Some t) opts (Z.of_nat k) st nextID) as [c s] eqn:Ef.
    cbn [fst snd] in *. subst s. destruct c; [|reflexivity].
    cbn [loop ret]. reflexivity. }
  repeat split.
  intros Hdone Hf. unfold finish_step. rewrite Hupd.
  destruct (Streamer opts) as [f|].
  - rewrite (Hf f eq_refl), Hdone. reflexivity.
  - rewrite Hdone. reflexivity.
Qed.

End GenerateProps.

(** ** Tensor accounting of the assembly and execution phase *)

Section Ledger.
Context {FM : FloatModel}.
Variable ort : OrtEnv.
Variable m : ModelForCausalLM.

Lemma ledger_step_refl (w : World) : ledger_step w w [] [].
Proof. split; rewrite app_nil_r; reflexivity. Qed.

Lemma ledger_step_trans (w w1 w2 : World) (b1 d1 b2 d2 : list nat) :
  ledger_step w w1 b1 d1 -> ledger_step w1 w2 b2 d2 ->
  ledger_step w w2 (b1 ++ b2) (d1 ++ d2).
Proof.
  intros [H1 H2] [H3 H4]. split.
  - rewrite H3, H1, app_assoc. reflexivity.
  - rewrite H4, H2, app_assoc. reflexivity.
Qed.

Lemma NewTensor_ledger (s : TensorSpec) (w : World) r w' :
  NewTensor ort s w = (r, w') ->
  match r with
  | Ok v => ledger_step w w' [handle v] []
  | _ => ledger_step w w' [] []
  end.
Proof.
  unfold NewTensor.
  destruct (NewTensor_err ort (attempts w) s); intros [= <- <-];
    split; cbn; rewrite ?app_nil_r; reflexivity.
Qed.

Lemma Destroy_ledger (v : Value) (w : World) r w' :
  Destroy v w = (r, w') -> r = Ok tt /\ ledger_step w w' [] [handle v].
Proof.
  intros [= <- <-]. split; [reflexivity|].
  split; cbn; [rewrite app_nil_r; reflexivity|reflexivity].
Qed.

Lemma Destroy_all_ledger (vs : list Value) (w : World) r w' :
  Destroy_all vs w = (r, w') -> r = Ok tt /\ ledger_step w w' [] (map handle vs).
Proof.
  revert w; induction vs as [|v vs IH]; intros w; cbn [Destroy_all].
  - intros [= <- <-]. split; [reflexivity|apply ledger_step_refl].
  - unfold bind. destruct (Destroy v w) as [r1 w1] eqn:E.
    apply Destroy_ledger in E as [-> L1].
    intros H. apply IH in H as [-> L2]. split; [reflexivity|].
    apply (ledger_step_trans _ _ _ [] _ [] _ L1 L2).
Qed.

Lemma zeroTensorForInput_ledger (name : string) (seqLen : Z) (w : World) r w' :
  zeroTensorForInput ort m name seqLen w = (r, w') ->
  match r with
  | Ok v => ledger_step w w' [handle v] []
  | _ => ledger_step w w' [] []
  end.
Proof.
  unfold zeroTensorForInput.
  destruct (inputInfo m !! name) as [info|].
  2:{ intros [= <- <-]. apply ledger_step_refl. }
  unfold tensorFromInt64s, tensorFromFloat32s.
  destruct (DataType info); destruct (_ <? 0);
    first [ intros [= <- <-]; apply ledger_step_refl | apply NewTensor_ledger ].
Qed.

(** The error handlers of the assembly loop. *)
Lemma release_then_fail {A} (inputTensor maskTensor : Value) (vs : list Value)
    (e : error) (w : World) r w' :
  bind (Destroy inputTensor)
    (fun _ => bind (Destroy maskTensor)
       (fun _ => bind (Destroy_all vs) (fun _ => fail (A := A) e))) w = (r, w') ->
  r = Err e
  /\ ledger_step w w' [] ([handle inputTensor; handle maskTensor] ++ map handle vs).
Proof.
  unfold bind at 1. destruct (Destroy inputTensor w) as [r1 w1] eqn:E1.
  apply Destroy_ledger in E1 as [-> L1].
  unfold bind at 1. destruct (Destroy maskTensor w1) as [r2 w2] eqn:E2.
  apply Destroy_ledger in E2 as [-> L2].
  unfold bind. destruct (Destroy_all vs w2) as [r3 w3] eqn:E3.
  apply Destroy_all_ledger in E3 as [-> L3].
  intros [= <- <-]. split; [reflexivity|].
  pose proof (ledger_step_trans _ _ _ _ _ _ _ L1
                (ledger_step_trans _ _ _ _ _ _ _ L2 L3)) as L.
  exact L.
Qed.

Lemma release_then_ret {A} (inputTensor maskTensor : Value) (vs : list Value)
    (a : A) (w : World) r w' :
  bind (Destroy inputTensor)
    (fun _ => bind (Destroy maskTensor)
       (fun _ => bind (Destroy_all vs) (fun _ => ret a))) w = (r, w') ->
  r = Ok a
  /\ ledger_step w w' [] ([handle inputTensor; handle maskTensor] ++ map handle vs).
Proof.
  unfold bind at 1. destruct (Destroy inputTensor w) as [r1 w1] eqn:E1.
  apply Destroy_ledger in E1 as [-> L1].
  unfold bind at 1. destruct (Destroy maskTensor w1) as [r2 w2] eqn:E2.
  apply Destroy_ledger in E2 as [-> L2].
  unfold bind. destruct (Destroy_all vs w2) as [r3 w3] eqn:E3.
  apply Destroy_all_ledger in E3 as [-> L3].
  intros [= <- <-]. split; [reflexivity|].
  pose proof (ledger_step_trans _ _ _ _ _ _ _ L1
                (ledger_step_trans _ _ _ _ _ _ _ L2 L3)) as L.
  exact L.
Qed.

(** The assembly loop: on success the new tensors are exactly those
    added to [toDestroy]; on an error everything built so far in the
    step is released, when no tensor is pending at a [position_ids]
    slot. *)
Lemma assemble_inputs_ledger (ids : list Z) (inputTensor maskTensor : Value)
    (names : list string) (i : nat) (inputs : list (option Value))
    (toDestroy : list Value) (w : World) r w' :
  (toDestroy = [] /\ position_ids_leads names = true)
  \/ has_position_ids names = false ->
  assemble_inputs ort m ids inputTensor maskTensor names i inputs toDestroy w
    = (r, w') ->
  match r with
  | Ok a => exists new, snd a = toDestroy ++ new
                        /\ ledger_step w w' (map handle new) []
  | Err e => exists new,
      ledger_step w w' (map handle new)
        ([handle inputTensor; handle maskTensor] ++ map handle (toDestroy ++ new))
  | Panic => True
  end.
Proof.
  revert i inputs toDestroy w; induction names as [|name rest IH];
    intros i inputs toDestroy w Hsafe; cbn [assemble_inputs].
  - intros [= <- <-]. exists []. rewrite app_nil_r.
    split; [reflexivity|apply ledger_step_refl].
  - cbn [position_ids_leads has_position_ids] in Hsafe.
    destruct (String.eqb name "input_ids") eqn:E1.
    { apply IH. destruct Hsafe as [[H1 H2]|H]; [left; tauto|right].
      apply orb_false_iff in H. tauto. }
    destruct (String.eqb name "attention_mask") eqn:E2.
    { apply IH. destruct Hsafe as [[H1 H2]|H]; [left; tauto|right].
      apply orb_false_iff in H. tauto. }
    cbn [orb] in Hsafe.
    destruct (String.eqb name "position_ids") eqn:E3.
    + destruct Hsafe as [[-> Hrest]|H]; [|discriminate].
      apply negb_true_iff in Hrest.
      unfold on_err, tensorFromInt64s.
      destruct (NewTensor ort _ w) as [[t|e|] w1] eqn:En;
        apply NewTensor_ledger in En.
      * intros H. apply IH in H; [|right; exact Hrest].
        destruct r as [a|e|]; [| |exact I].
        -- destruct H as (new & Ha & L). exists (t :: new).
           split; [exact Ha|].
           apply (ledger_step_trans _ _ _ [handle t] [] _ _ En L).
        -- destruct H as (new & L). exists (t :: new).
           apply (ledger_step_trans _ _ _ [handle t] [] _ _ En L).
      * unfold bind, Destroy, Destroy_handle, fail. intros [= <- <-].
        exists []. destruct En as [Hb Hd]. split; cbn in *.
        -- exact Hb.
        -- rewrite Hd, app_nil_r, <- app_assoc. reflexivity.
      * intros [= <- <-]. exact I.
    + assert (Hrest : has_position_ids rest = false).
      { destruct Hsafe as [[_ H]|H]; [apply negb_true_iff, H|exact H]. }
      unfold on_err.
      destruct (zeroTensorForInput ort m name _ w) as [[t|e|] w1] eqn:Ez;
        apply zeroTensorForInput_ledger in Ez.
      * intros H. apply IH in H; [|right; exact Hrest].
        destruct r as [a|e|]; [| |exact I].
        -- destruct H as (new & Ha & L). exists (t :: new).
           split; [rewrite Ha, <- app_assoc; reflexivity|].
           apply (ledger_step_trans _ _ _ [handle t] [] _ _ Ez L).
        -- destruct H as (new & L). exists (t :: new).
           rewrite <- app_assoc in L.
           apply (ledger_step_trans _ _ _ [handle t] [] _ _ Ez L).
      * intros H. apply release_then_fail in H as [-> L].
        exists []. rewrite app_nil_r.
        apply (ledger_step_trans _ _ _ [] _ [] _ Ez L).
      * intros [= <- <-]. exact I.
Qed.

(** When no optional slot precedes [position_ids], assembly and
    execution release, on every return, exactly the tensors they
    built, in the order they were built. *)
Lemma run_graph_balanced (sess : DynamicAdvancedSession) (ids mask : list Z)
    (w : World) r w' :
  position_ids_leads (inputNames m) = true ->
  run_graph ort m sess ids mask w = (r, w') ->
  r <> Panic ->
  exists bs, ledger_step w w' bs bs.
Proof.
  intros Hsafe. unfold run_graph, on_err at 1, tensorFromInt64s.
  destruct (NewTensor ort (SpecInt64 [1; Z.of_nat (length ids)] ids) w)
    as [[inputTensor|e|] w1] eqn:E1; apply NewTensor_ledger in E1.
  2:{ intros [= <- <-] _. exists []. exact E1. }
  2:{ intros [= <- <-] H. congruence. }
  unfold on_err at 1.
  destruct (NewTensor ort (SpecInt64 [1; Z.of_nat (length mask)] mask) w1)
    as [[maskTensor|e|] w2] eqn:E2; apply NewTensor_ledger in E2.
  2:{ unfold bind, Destroy, Destroy_handle, fail. intros [= <- <-] _.
      exists [handle inputTensor].
      destruct E1 as [B1 D1], E2 as [B2 D2]. split; cbn in *.
      - rewrite B2, B1, app_nil_r. reflexivity.
      - rewrite D2, D1, !app_nil_r. reflexivity. }
  2:{ intros [= <- <-] H. congruence. }
  unfold bind at 1.
  destruct (assemble_inputs ort m ids inputTensor maskTensor (inputNames m) 0
              (replicate (length (inputNames m)) None) [] w2)
    as [[a|e|] w3] eqn:E3;
    apply assemble_inputs_ledger in E3; try (left; split; [reflexivity|exact Hsafe]).
  3:{ intros [= <- <-] H. congruence. }
  2:{ intros [= <- <-] _. destruct E3 as (new & L3).
      exists ([handle inputTensor; handle maskTensor] ++ map handle new).
      pose proof (ledger_step_trans _ _ _ _ _ _ _ E1
                    (ledger_step_trans _ _ _ _ _ _ _ E2 L3)) as L.
      exact L. }
  destruct E3 as (new & Ha & L3). cbn [app] in Ha.
  assert (L : ledger_step w w3 ([handle inputTensor; handle maskTensor] ++ map handle new) []).
  { exact (ledger_step_trans _ _ _ _ _ _ _ E1
             (ledger_step_trans _ _ _ _ _ _ _ E2 L3)). }
  unfold on_err.
  destruct (session_Run sess (fst a) (length (outputNames m)) w3)
    as [[outputs|e|] w4] eqn:E4.
  - assert (L4 : ledger_step w3 w4 [] []).
    { revert E4. unfold session_Run.
      destruct (Run_result sess (runs w3) _) as [c|out]; [discriminate|].
      destruct (alloc_outputs out 0 _ _) as [[vs hs] h'].
      intros [= _ <-]. split; cbn; rewrite app_nil_r; reflexivity. }
    intros H _. apply release_then_ret in H as [_ L5]. rewrite Ha in L5.
    exists ([handle inputTensor; handle maskTensor] ++ map handle new).
    pose proof (ledger_step_trans _ _ _ _ _ _ _ L
                  (ledger_step_trans _ _ _ _ _ _ _ L4 L5)) as L'.
    rewrite app_nil_r in L'. exact L'.
  - assert (L4 : ledger_step w3 w4 [] []).
    { revert E4. unfold session_Run.
      destruct (Run_result sess (runs w3) _) as [c|out].
      - intros [= _ <-]. split; cbn; rewrite app_nil_r; reflexivity.
      - destruct (alloc_outputs out 0 _ _) as [[vs hs] h']. discriminate. }
    intros H _. apply release_then_fail in H as [_ L5]. rewrite Ha in L5.
    exists ([handle inputTensor; handle maskTensor] ++ map handle new).
    pose proof (ledger_step_trans _ _ _ _ _ _ _ L
                  (ledger_step_trans _ _ _ _ _ _ _ L4 L5)) as L'.
    rewrite app_nil_r in L'. exact L'.
  - intros [= <- <-] H. congruence.
Qed.

End Ledger.

(** ** The properties on concrete runs *)

Lemma C8_length_difference_kept_witness :
  let st := {| generated := [2]; curIDs := [1; 2; 2]; curMask := [1; 1; 1];
               fullText := "a" |} in
  Generate_visits (FM := Z_floats) ort_ok (simple_model (-1) rows_two)
    (Some (const_tokenizer "a")) [[1; 2]] [[1; 1]] (test_opts 3 None []) world0 st
  /\ length (curIDs st) = length (curMask st).
Proof.
  intros st.
  assert (V : Generate_visits (FM := Z_floats) ort_ok (simple_model (-1) rows_two)
                (Some (const_tokenizer "a")) [[1; 2]] [[1; 1]]
                (test_opts 3 None []) world0 st).
  { exists (const_tokenizer "a"), (scripted_session rows_two), [1; 2], [1; 1],
      1%nat, Continue.
    eexists. do 4 (split; [reflexivity|]).
    split; [vm_compute; lia|reflexivity]. }
  split; [exact V|].
  apply (C8_length_difference_kept (FM := Z_floats) ort_ok _ _ _ _ _ _ _ V).
  reflexivity.
Defined.

(** Ids of length 2 with a mask of length 1 pass the batch check of
    [Generate]; after one iteration the lengths are 3 and 2. *)
Lemma C8_equal_length_counterexample :
  ~ (forall (ort : OrtEnv (FM := Z_floats)) (m : ModelForCausalLM)
       (tokenizer : option Tokenizer) (ids mask : list Z)
       (opts : GenerationOptions) (w0 : World) (st : LoopState),
       Generate_visits ort m tokenizer [ids] [mask] opts w0 st ->
       length (curIDs st) = length (curMask st)).
Proof.
  intros H.
  specialize (H ort_ok (simple_model (-1) rows_two) (Some (const_tokenizer "a"))
                [1; 2] [1] (test_opts 3 None []) world0
                {| generated := [2]; curIDs := [1; 2; 2]; curMask := [1; 1];
                   fullText := "a" |}).
  cbn [curIDs curMask length] in H.
  assert (E : 3%nat = 2%nat); [|discriminate E].
  apply H.
  exists (const_tokenizer "a"), (scripted_session rows_two), [1; 2], [1],
    1%nat, Continue.
  eexists. do 4 (split; [reflexivity|]).
  split; [vm_compute; lia|reflexivity].
Qed.


Lemma C5_eos_ends_generation_witness :
  exists w1 gen,
    Generate (FM := Z_floats) ort_ok (simple_model 3 rows_then_three)
      (Some (const_tokenizer "a")) [[1; 2]] [[1; 1]]
      (test_opts 5 None ["STOP"]%string) world0
    = (Ok [gen], w1)
    /\ length gen = 2%nat /\ last gen = Some 3 /\ runs w1 = 2%nat.
Proof.
  eexists.
  eapply (C5_eos_ends_generation (FM := Z_floats) ort_ok
            (simple_model 3 rows_then_three) (const_tokenizer "a")
            (scripted_session rows_then_three) [1; 2] [1; 1]
            (test_opts 5 None ["STOP"]%string) world0 2%nat
            {| generated := [2]; curIDs := [1; 2; 2]; curMask := [1; 1; 1];
               fullText := "a" |}
            {| next_handle := 3; built := [0; 1]%nat; allocated := [2%nat];
               destroyed := [0; 1; 2]%nat; attempts := 2; runs := 1 |}).
  - reflexivity.
  - vm_compute. discriminate.
  - lia.
  - vm_compute. discriminate.
  - vm_compute. reflexivity.
  - vm_compute. reflexivity.
Defined.

Lemma C9_decode_failure_tolerated_witness :
  exists st' w1,
    loop (FM := Z_floats) ort_ok (simple_model (-1) rows_two)
      (scripted_session rows_two) (Some failing_tokenizer)
      (test_opts 4 None ["STOP"]%string) 1 0 (init_state [1; 2] [1; 1]) world0
    = (Ok (Continue, st'), w1)
    /\ generated st' = [2] /\ curIDs st' = [1; 2; 2] /\ curMask st' = [1; 1; 1]
    /\ fullText st' = EmptyString.
Proof.
  destruct (C9_decode_failure_tolerated (FM := Z_floats) ort_ok
              (simple_model (-1) rows_two) failing_tokenizer
              (scripted_session rows_two) [1; 2] [1; 1]
              (test_opts 4 None ["STOP"]%string) world0 0%nat
              _ _ _ _ _ _ eq_refl eq_refl eq_refl)
    as (c & st' & ev & done & Hupd & Hloop & Hg & Hi & Hm & Ht & _ & _ & Hc).
  assert (Hd : done = false).
  { apply (f_equal (fun p => snd (fst p))) in Hupd. cbn [fst snd] in Hupd.
    rewrite <- Hupd. reflexivity. }
  rewrite (Hc Hd) in Hloop by (intros f [=]).
  eexists _, _. split; [exact Hloop|].
  repeat split; assumption.
Defined.

(** C1 fails on the [position_ids] path: with a cache slot declared
    before [position_ids] and the construction of the [position_ids]
    tensor failing, three tensors were built in the step (ids, mask and
    the zero-filled cache tensor) and only two are released before the
    error is returned. *)
Theorem C1_position_ids_failure_leaks :
  exists w,
    Generate (FM := Z_floats) (ort_fail_at 3) cache_first_model
      (Some (const_tokenizer "a")) [[1; 2]] [[1; 1]]
      (test_opts 5 None ["STOP"]%string) world0
    = (Err (ErrCreatePositionIds (ErrNewTensor "out of memory")), w)
    /\ built w = [0; 1; 2]%nat
    /\ destroyed w = [0; 1]%nat
    /\ length (destroyed w) <> length (built w).
Proof.
  eexists. split; [vm_compute; reflexivity|].
  cbn. repeat split. discriminate.
Qed.

(** * Further properties of the code *)

(** ** Arg-max, softmax and sampling *)

Section ArgmaxProps.
Context {FM : FloatModel}.

Lemma argmax_loop_spec (rest pre : list float32) (maxIdx : nat) (maxVal : float32) :
  pre !! maxIdx = Some maxVal ->
  (forall j y, (maxIdx < j)%nat -> pre !! j = Some y -> f32_gt y maxVal = false) ->
  (gt_orders -> forall j y, (j < maxIdx)%nat -> pre !! j = Some y ->
                 f32_gt maxVal y = true) ->
  exists (k : nat) (v : float32),
    argmax_loop rest (Z.of_nat (length pre)) (Z.of_nat maxIdx) maxVal = Z.of_nat k
    /\ (pre ++ rest) !! k = Some v
    /\ (forall j y, (k < j)%nat -> (pre ++ rest) !! j = Some y -> f32_gt y v = false)
    /\ (gt_orders -> forall j y, (j < k)%nat -> (pre ++ rest) !! j = Some y ->
                       f32_gt v y = true).
Proof.
  revert pre maxIdx maxVal; induction rest as [|x rest IH];
    intros pre maxIdx maxVal Hmax Hlater Hearlier.
  - exists maxIdx, maxVal. rewrite app_nil_r. cbn [argmax_loop]. tauto.
  - cbn [argmax_loop].
    assert (Hlt : (maxIdx < length pre)%nat) by (eapply lookup_lt_Some; exact Hmax).
    replace (Z.of_nat (length pre) + 1) with (Z.of_nat (length (pre ++ [x])))
      by (rewrite length_app; cbn; lia).
    replace (pre ++ x :: rest) with ((pre ++ [x]) ++ rest)
      by (rewrite <- app_assoc; reflexivity).
    destruct (f32_gt x maxVal) eqn:Egt.
    + apply IH.
      * rewrite lookup_app_r by lia. rewrite Nat.sub_diag. reflexivity.
      * intros j y Hj Hy. apply lookup_lt_Some in Hy.
        rewrite length_app in Hy. cbn in Hy. lia.
      * intros Hord j y Hj Hy. rewrite lookup_app_l in Hy by lia.
        pose proof Hord as (_ & Htr & Hneg).
        destruct (Nat.lt_trichotomy j maxIdx) as [Hlt'|[->|Hgt]].
        -- apply (Htr x maxVal y Egt). apply (Hearlier Hord j y Hlt' Hy).
        -- rewrite Hmax in Hy. injection Hy as <-. exact Egt.
        -- destruct (Hneg x maxVal y Egt) as [H|H]; [exact H|].
           rewrite (Hlater j y Hgt Hy) in H. discriminate.
    + apply IH.
      * rewrite lookup_app_l by lia. exact Hmax.
      * intros j y Hj Hy.
        destruct (Nat.lt_ge_cases j (length pre)) as [Hjl|Hjl].
        -- rewrite lookup_app_l in Hy by lia. apply (Hlater j y Hj Hy).
        -- rewrite lookup_app_r in Hy by lia.
           destruct (j - length pre)%nat; [|discriminate].
           injection Hy as <-. exact Egt.
      * intros Hord j y Hj Hy. rewrite lookup_app_l in Hy by lia.
        apply (Hearlier Hord j y Hj Hy).
Qed.

Lemma argmaxF32_spec (xs : list float32) :
  xs <> [] ->
  exists (k : nat) (v : float32),
    argmaxF32 xs = Z.of_nat k
    /\ xs !! k = Some v
    /\ (forall j y, (k < j)%nat -> xs !! j = Some y -> f32_gt y v = false)
    /\ (gt_orders -> forall j y, (j < k)%nat -> xs !! j = Some y ->
                       f32_gt v y = true).
Proof.
  destruct xs as [|x0 rest]; [congruence|]. intros _.
  apply (argmax_loop_spec rest [x0] 0 x0).
  - reflexivity.
  - intros j y Hj Hy. destruct j; [lia|]. discriminate.
  - intros _ j y Hj. lia.
Qed.

(** X1: [argmaxF32] of a non-empty row is an index of the row, and no
    element after that index is greater than the element there; of an
    empty row it is 0. *)
Theorem X1_argmaxF32_in_range (xs : list float32) :
  argmaxF32 [] = 0
  /\ (xs <> [] ->
      0 <= argmaxF32 xs < Z.of_nat (length xs)
      /\ exists v, xs !! Z.to_nat (argmaxF32 xs) = Some v
           /\ forall j y, (Z.to_nat (argmaxF32 xs) < j)%nat -> xs !! j = Some y ->
                f32_gt y v = false).
Proof.
  split; [reflexivity|]. intros Hne.
  destruct (argmaxF32_spec xs Hne) as (k & v & -> & Hk & Hlater & _).
  rewrite Nat2Z.id. split.
  - apply lookup_lt_Some in Hk. lia.
  - exists v. split; [exact Hk|exact Hlater].
Qed.

(** X2: when [>] orders the values of the row, the element at
    [argmaxF32] is greater than every element before it and no element
    of the row is greater than it: the index is the lowest index of a
    maximum. *)
Theorem X2_argmaxF32_first_maximum (xs : list float32) :
  gt_orders -> xs <> [] ->
  exists v, xs !! Z.to_nat (argmaxF32 xs) = Some v
    /\ (forall j y, (j < Z.to_nat (argmaxF32 xs))%nat -> xs !! j = Some y ->
          f32_gt v y = true)
    /\ (forall j y, xs !! j = Some y -> f32_gt y v = false).
Proof.
  intros Hord Hne.
  destruct (argmaxF32_spec xs Hne) as (k & v & -> & Hk & Hlater & Hearlier).
  rewrite Nat2Z.id. exists v. split; [exact Hk|]. split; [exact (Hearlier Hord)|].
  intros j y Hy. pose proof Hord as (Hirr & Htr & _).
  destruct (Nat.lt_trichotomy j k) as [Hlt|[->|Hgt']].
  - destruct (f32_gt y v) eqn:E; [|reflexivity].
    pose proof (Htr v y v (Hearlier Hord j y Hlt Hy) E) as H.
    rewrite Hirr in H. discriminate.
  - rewrite Hk in Hy. injection Hy as <-. apply Hirr.
  - exact (Hlater j y Hgt' Hy).
Qed.

End ArgmaxProps.

Lemma Z_gt_orders : gt_orders (FM := Z_floats).
Proof.
  unfold gt_orders. change (@float32 Z_floats) with Z.
  change (@f32_gt Z_floats) with Z.gtb.
  repeat split.
  - intros x. rewrite Z.gtb_ltb. apply Z.ltb_irrefl.
  - intros x y z. rewrite !Z.gtb_ltb, !Z.ltb_lt. lia.
  - intros x y z. rewrite !Z.gtb_ltb, !Z.ltb_lt. lia.
Defined.

Lemma X1_argmaxF32_in_range_witness :
  0 <= argmaxF32 (FM := Z_floats) [3; 7; 7; 1] < 4.
Proof.
  apply (X1_argmaxF32_in_range (FM := Z_floats) [3; 7; 7; 1]). discriminate.
Defined.

Lemma X2_argmaxF32_first_maximum_witness :
  exists v : Z,
    [3; 7; 7; 1] !! Z.to_nat (argmaxF32 (FM := Z_floats) [3; 7; 7; 1]) = Some v
    /\ forall j y, [3; 7; 7; 1] !! j = Some y -> (y >? v) = false.
Proof.
  destruct (X2_argmaxF32_first_maximum (FM := Z_floats) [3; 7; 7; 1] Z_gt_orders)
    as (v & Hv & _ & Hmax); [discriminate|].
  exists v. split; [exact Hv|exact Hmax].
Defined.

Section SamplingProps.
Context {FM : FloatModel} {FA : FloatArith}.

Lemma sample_loop_spec (xs : list float32) (i : Z) (acc r : float32) :
  match sample_loop xs i acc r with
  | Some k =>
      exists n : nat,
        k = i + Z.of_nat n /\ (n < length xs)%nat
        /\ f32_lt r (fold_left f32_add (take (S n) xs) acc) = true
        /\ forall j, (j < n)%nat ->
             f32_lt r (fold_left f32_add (take (S j) xs) acc) = false
  | None =>
      forall j, (j < length xs)%nat ->
        f32_lt r (fold_left f32_add (take (S j) xs) acc) = false
  end.
Proof.
  revert i acc; induction xs as [|p rest IH]; intros i acc; cbn [sample_loop].
  - intros j Hj. cbn in Hj. lia.
  - destruct (f32_lt r (f32_add acc p)) eqn:E.
    + exists 0%nat. split; [lia|]. split; [cbn; lia|].
      split; [cbn; rewrite take_0; exact E|]. intros j Hj. lia.
    + specialize (IH (i + 1) (f32_add acc p)).
      destruct (sample_loop rest (i + 1) (f32_add acc p) r) as [k|].
      * destruct IH as (n & -> & Hn & Hlt & Hbefore).
        exists (S n). split; [lia|]. split; [cbn; lia|].
        split; [exact Hlt|].
        intros [|j] Hj; [cbn; rewrite take_0; exact E|].
        apply Hbefore. lia.
      * intros [|j] Hj; [cbn; rewrite take_0; exact E|].
        apply IH. cbn in Hj. lia.
Qed.

(** X3: [sampleFromProbsF32] returns 0 on an empty distribution and,
    on a non-empty one, always a valid index: the first index whose
    running sum exceeds the draw, or the last index when no running sum
    does. *)
Theorem X3_sampleFromProbsF32_index (xs : list float32) (r : float32) :
  sampleFromProbsF32 [] r = 0
  /\ (xs <> [] ->
      let k := Z.to_nat (sampleFromProbsF32 xs r) in
      0 <= sampleFromProbsF32 xs r < Z.of_nat (length xs)
      /\ (forall j, (j < k)%nat -> f32_lt r (running_sum xs j) = false)
      /\ (f32_lt r (running_sum xs k) = true
          \/ (S k = length xs
              /\ forall j, (j < length xs)%nat ->
                   f32_lt r (running_sum xs j) = false))).
Proof.
  split; [reflexivity|]. intros Hne. unfold sampleFromProbsF32.
  pose proof (sample_loop_spec xs 0 f32_zero r) as H.
  destruct (sample_loop xs 0 f32_zero r) as [k|].
  - destruct H as (n & -> & Hn & Hlt & Hbefore). cbv zeta.
    replace (Z.to_nat (0 + Z.of_nat n)) with n by lia.
    split; [lia|]. split; [exact Hbefore|]. left. exact Hlt.
  - destruct xs as [|x rest]; [congruence|].
    cbn [length Nat.eqb]. cbv zeta.
    replace (Z.to_nat (Z.of_nat (S (length rest)) - 1)) with (length rest) by lia.
    split; [lia|]. split; [intros j Hj; apply H; cbn; lia|].
    right. split; [reflexivity|exact H].
Qed.

Lemma softmax_max_argmax (rest pre : list float32) (maxIdx : nat)
    (maxVal : float32) :
  pre !! maxIdx = Some maxVal ->
  exists k : nat,
    argmax_loop rest (Z.of_nat (length pre)) (Z.of_nat maxIdx) maxVal = Z.of_nat k
    /\ (pre ++ rest) !! k = Some (softmax_max rest maxVal).
Proof.
  revert pre maxIdx maxVal; induction rest as [|x rest IH];
    intros pre maxIdx maxVal Hmax.
  - exists maxIdx. rewrite app_nil_r. split; [reflexivity|exact Hmax].
  - cbn [argmax_loop softmax_max].
    assert (Hlt : (maxIdx < length pre)%nat) by (eapply lookup_lt_Some; exact Hmax).
    replace (Z.of_nat (length pre) + 1) with (Z.of_nat (length (pre ++ [x])))
      by (rewrite length_app; cbn; lia).
    replace (pre ++ x :: rest) with ((pre ++ [x]) ++ rest)
      by (rewrite <- app_assoc; reflexivity).
    destruct (f32_gt x maxVal).
    + apply IH. rewrite lookup_app_r by lia. rewrite Nat.sub_diag. reflexivity.
    + apply IH. rewrite lookup_app_l by lia. exact Hmax.
Qed.

Lemma softmax_exps_spec (xs : list float32) (maxVal sum : float32) :
  softmax_exps xs maxVal sum
  = (map (fun v => f32_exp_sub v maxVal) xs,
     fold_left f32_add (map (fun v => f32_exp_sub v maxVal) xs) sum).
Proof.
  revert sum; induction xs as [|v rest IH]; intros sum; [reflexivity|].
  cbn [softmax_exps map fold_left]. rewrite IH. reflexivity.
Qed.

(** X4: [softmaxF32] keeps the length of the row; it shifts every entry
    by the entry at [argmaxF32], exponentiates, and scales all
    exponentials by the inverse of their sum, leaving them unscaled
    when that sum is zero. *)
Theorem X4_softmaxF32_shape (xs : list float32) :
  length (softmaxF32 xs) = length xs
  /\ (xs <> [] ->
      exists m,
        xs !! Z.to_nat (argmaxF32 xs) = Some m
        /\ let es := map (fun v => f32_exp_sub v m) xs in
           let sum := fold_left f32_add es f32_zero in
           softmaxF32 xs =
             if f32_is_zero sum then es
             else map (fun e => f32_mul e (f32_inv sum)) es).
Proof.
  destruct xs as [|x0 rest]; [split; [reflexivity|congruence]|].
  unfold softmaxF32. rewrite softmax_exps_spec.
  split.
  - destruct (f32_is_zero _); rewrite ?length_map; reflexivity.
  - intros _. destruct (softmax_max_argmax rest [x0] 0 x0 eq_refl) as (k & Hk & Hm).
    exists (softmax_max rest x0). unfold argmaxF32.
    change 1 with (Z.of_nat (length [x0])). change 0 with (Z.of_nat 0) at 1.
    rewrite Hk, Nat2Z.id. split; [exact Hm|reflexivity].
Qed.

End SamplingProps.

Lemma X3_sampleFromProbsF32_index_witness :
  0 <= sampleFromProbsF32 (FM := Z_floats) (FA := Z_arith) [1; 2; 3] 9 < 3.
Proof.
  apply (X3_sampleFromProbsF32_index (FM := Z_floats) (FA := Z_arith) [1; 2; 3] 9).
  discriminate.
Defined.

Lemma X4_softmaxF32_shape_witness :
  exists m : Z,
    [3; 7; 7; 1] !! Z.to_nat (argmaxF32 (FM := Z_floats) [3; 7; 7; 1]) = Some m
    /\ m = 7
    /\ length (softmaxF32 (FM := Z_floats) (FA := Z_arith) [3; 7; 7; 1]) = 4%nat.
Proof.
  destruct (X4_softmaxF32_shape (FM := Z_floats) (FA := Z_arith) [3; 7; 7; 1])
    as [Hlen Hm].
  destruct Hm as (m & Hm & _); [discriminate|].
  exists m. split; [exact Hm|]. split; [|exact Hlen].
  vm_compute in Hm. congruence.
Defined.

(** ** The IO schema resolver *)

Lemma lfm2_layer_loop_ok (ts : list string) (layerIdx : nat) (inputs : list string) :
  forallb known_layer ts = true ->
  lfm2_layer_loop layerIdx ts inputs = Ok (inputs ++ layer_names layerIdx ts).
Proof.
  revert layerIdx inputs; induction ts as [|t ts IH]; intros layerIdx inputs H.
  - cbn. rewrite app_nil_r. reflexivity.
  - cbn [forallb] in H. apply andb_true_iff in H as [Ht Hts].
    cbn [lfm2_layer_loop layer_names]. unfold known_layer in Ht.
    destruct (String.eqb t "full_attention").
    + rewrite (IH _ _ Hts), <- app_assoc. reflexivity.
    + cbn [orb] in Ht. rewrite Ht, (IH _ _ Hts), <- app_assoc. reflexivity.
Qed.

Lemma lfm2_layer_loop_err (l1 l2 : list string) (t : string) (layerIdx : nat)
    (inputs : list string) :
  forallb known_layer l1 = true -> known_layer t = false ->
  lfm2_layer_loop layerIdx (l1 ++ t :: l2) inputs = Err (ErrUnsupportedLayerType t).
Proof.
  revert layerIdx inputs; induction l1 as [|a l1 IH]; intros layerIdx inputs H Ht.
  - cbn [app lfm2_layer_loop]. unfold known_layer in Ht.
    apply orb_false_iff in Ht as [-> ->]. reflexivity.
  - cbn [forallb] in H. apply andb_true_iff in H as [Ha Hl1].
    cbn [app lfm2_layer_loop]. unfold known_layer in Ha.
    destruct (String.eqb a "full_attention"); [apply IH; assumption|].
    cbn [orb] in Ha. rewrite Ha. apply IH; assumption.
Qed.

Lemma first_unknown_layer (ts : list string) :
  forallb known_layer ts = false ->
  exists l1 t l2, ts = l1 ++ t :: l2
                  /\ forallb known_layer l1 = true /\ known_layer t = false.
Proof.
  induction ts as [|a ts IH]; [discriminate|]. cbn [forallb]. intros H.
  destruct (known_layer a) eqn:Ea.
  - destruct (IH H) as (l1 & t & l2 & -> & Hl1 & Ht).
    exists (a :: l1), t, l2. cbn [forallb]. rewrite Ea, Hl1. tauto.
  - exists [], a, ts. tauto.
Qed.

Lemma layer_names_not_core (ts : list string) (layerIdx : nat) :
  filter (fun name => is_core_name name = false) (layer_names layerIdx ts)
  = layer_names layerIdx ts.
Proof.
  revert layerIdx; induction ts as [|t ts IH]; intros layerIdx; [reflexivity|].
  cbn [layer_names]. rewrite filter_app, IH. f_equal.
  destruct (String.eqb t "full_attention"); [reflexivity|].
  destruct (String.eqb t "conv"); reflexivity.
Qed.

(** X5: [lfm2IONames] succeeds exactly when every layer type is
    full_attention or conv; it then yields the three core inputs
    followed by the cache names of the layers in layer order, and
    logits followed by the same cache names prefixed with "present.",
    so two outputs fewer than inputs. *)
Theorem X5_lfm2IONames_general (c : Config) :
  (forallb known_layer (LayerTypes c) = true <->
   exists io, lfm2IONames (Some c) = Ok io)
  /\ (forall inputs outputs, lfm2IONames (Some c) = Ok (inputs, outputs) ->
        inputs = ["input_ids"; "attention_mask"; "position_ids"]%string
                 ++ layer_names 0 (LayerTypes c)
        /\ outputs = "logits"%string ::
                     map (String.append "present.") (layer_names 0 (LayerTypes c))
        /\ length inputs = (length outputs + 2)%nat).
Proof.
  assert (Hok : forallb known_layer (LayerTypes c) = true ->
    lfm2IONames (Some c)
    = Ok (["input_ids"; "attention_mask"; "position_ids"]%string
            ++ layer_names 0 (LayerTypes c),
          "logits"%string ::
            map (String.append "present.") (layer_names 0 (LayerTypes c)))).
  { intros H. unfold lfm2IONames. rewrite (lfm2_layer_loop_ok _ _ _ H).
    rewrite lfm2_output_loop_spec, filter_app, layer_names_not_core.
    reflexivity. }
  assert (Herr : forallb known_layer (LayerTypes c) = false ->
    exists t, lfm2IONames (Some c) = Err (ErrUnsupportedLayerType t)).
  { intros H. destruct (first_unknown_layer _ H) as (l1 & t & l2 & E & Hl1 & Ht).
    exists t. unfold lfm2IONames. rewrite E, (lfm2_layer_loop_err _ _ _ _ _ Hl1 Ht).
    reflexivity. }
  split.
  - split; [intros H; eexists; apply Hok, H|].
    intros [io Hio]. destruct (forallb known_layer (LayerTypes c)) eqn:E;
      [reflexivity|]. destruct (Herr eq_refl) as [t Ht]. congruence.
  - intros inputs outputs H.
    destruct (forallb known_layer (LayerTypes c)) eqn:E.
    + rewrite (Hok eq_refl) in H. injection H as <- <-.
      repeat split. cbn [length app]. rewrite length_map. lia.
    + destruct (Herr eq_refl) as [t Ht]. congruence.
Qed.

(** X6: when some layer type is neither full_attention nor conv,
    [lfm2IONames] fails with the first such type, whatever follows it;
    without a configuration it fails as well. *)
Theorem X6_lfm2IONames_first_unknown (c : Config) (l1 l2 : list string) (t : string) :
  lfm2IONames None = Err ErrLfm2ConfigNil
  /\ (LayerTypes c = l1 ++ t :: l2 ->
      forallb known_layer l1 = true -> known_layer t = false ->
      lfm2IONames (Some c) = Err (ErrUnsupportedLayerType t)).
Proof.
  split; [reflexivity|]. intros E Hl1 Ht.
  unfold lfm2IONames. rewrite E, (lfm2_layer_loop_err _ _ _ _ _ Hl1 Ht).
  reflexivity.
Qed.

Lemma X5_lfm2IONames_general_witness :
  exists inputs outputs,
    lfm2IONames (Some (test_config (-1) ["conv"; "full_attention"]%string))
    = Ok (inputs, outputs)
    /\ length inputs = 6%nat /\ length outputs = 4%nat.
Proof.
  destruct (X5_lfm2IONames_general
              (test_config (-1) ["conv"; "full_attention"]%string)) as [Hiff Hio].
  destruct (proj1 Hiff eq_refl) as [[inputs outputs] H].
  exists inputs, outputs. split; [exact H|].
  destruct (Hio inputs outputs H) as (-> & -> & _). split; reflexivity.
Defined.

Lemma X6_lfm2IONames_first_unknown_witness :
  lfm2IONames (Some (test_config (-1) ["conv"; "mamba"; "rwkv"]%string))
  = Err (ErrUnsupportedLayerType "mamba").
Proof.
  apply (X6_lfm2IONames_first_unknown
           (test_config (-1) ["conv"; "mamba"; "rwkv"]%string)
           ["conv"%string] ["rwkv"%string] "mamba"); reflexivity.
Defined.

Section ResolveProps.
Context {FM : FloatModel}.

Lemma fold_left_names (infos : list InputOutputInfo) (acc : list string) :
  fold_left (fun names info => names ++ [Name info]) infos acc
  = acc ++ map Name infos.
Proof.
  revert acc; induction infos as [|info infos IH]; intros acc; cbn.
  - rewrite app_nil_r. reflexivity.
  - rewrite IH, <- app_assoc. reflexivity.
Qed.

(** X7: under the Auto preset [resolveIONames] takes the input and
    output names the graph declares, verbatim and in declaration order,
    and changes nothing else of the model; it fails on an empty path
    without reading any graph, and with the reader's cause when the
    graph cannot be read. *)
Theorem X7_resolveIONames_auto (GetInputOutputInfo : GraphReader)
    (m : ModelForCausalLM) (onnxPath : string) :
  ioPreset m = IOPresetAuto ->
  (onnxPath = EmptyString ->
     resolveIONames GetInputOutputInfo m onnxPath = inl ErrOnnxPathEmpty)
  /\ (onnxPath <> EmptyString ->
      forall cause, GetInputOutputInfo onnxPath = inl cause ->
      resolveIONames GetInputOutputInfo m onnxPath
      = inl (ErrGetInputOutputInfo cause))
  /\ (onnxPath <> EmptyString ->
      forall ins outs, GetInputOutputInfo onnxPath = inr (ins, outs) ->
      exists m',
        resolveIONames GetInputOutputInfo m onnxPath = inr m'
        /\ inputNames m' = map Name ins
        /\ outputNames m' = map Name outs
        /\ config m' = config m /\ session m' = session m
        /\ inputInfo m' = inputInfo m /\ ioPreset m' = ioPreset m).
Proof.
  intros Hp. unfold resolveIONames, discoverIONamesFromModel. rewrite Hp.
  split; [intros ->; reflexivity|].
  split.
  - intros Hne cause Hr. apply String.eqb_neq in Hne. rewrite Hne, Hr. reflexivity.
  - intros Hne ins outs Hr. apply String.eqb_neq in Hne. rewrite Hne, Hr.
    eexists. split; [reflexivity|]. cbn.
    rewrite !fold_left_names. repeat split.
Qed.

End ResolveProps.

Lemma X7_resolveIONames_auto_witness :
  exists m',
    resolveIONames (FM := Z_floats)
      (one_graph "model.onnx"
         [test_info "foo" [1] TensorElementDataTypeInt64;
          test_info "bar" [1] TensorElementDataTypeInt64]
         [test_info "baz" [1] TensorElementDataTypeFloat])
      (test_model (-1) None [] [] []) "model.onnx"
    = inr m'
    /\ inputNames m' = ["foo"; "bar"]%string
    /\ outputNames m' = ["baz"]%string.
Proof.
  destruct (X7_resolveIONames_auto (FM := Z_floats)
              (one_graph "model.onnx"
                 [test_info "foo" [1] TensorElementDataTypeInt64;
                  test_info "bar" [1] TensorElementDataTypeInt64]
                 [test_info "baz" [1] TensorElementDataTypeFloat])
              (test_model (-1) None [] [] []) "model.onnx" eq_refl)
    as (_ & _ & H).
  destruct (H ltac:(discriminate) _ _ eq_refl) as (m' & Hm & Hi & Ho & _).
  exists m'. split; [exact Hm|]. split; assumption.
Defined.

(** ** How a Generate call ends *)

Section GenerateEnds.
Context {FM : FloatModel}.
Variable ort : OrtEnv.

(** A step that leaves the loop ends the call with the ids generated so
    far, the token of that step included. *)
Lemma Generate_breaks_at (m : ModelForCausalLM) (t : Tokenizer)
    (sess : DynamicAdvancedSession) (ids mask : list Z)
    (opts : GenerationOptions) (w0 : World) (k : nat) st w nextID w1 :
  session m = Some sess ->
  (1 <= k)%nat ->
  Z.of_nat k <= MaxNewTokens (default_MaxNewTokens opts) ->
  loop ort m sess (Some t) (default_MaxNewTokens opts) (k - 1) 0
    (init_state ids mask) w0 = (Ok (Continue, st), w) ->
  select_next ort m sess (curIDs st) (curMask st) w = (Ok nextID, w1) ->
  fst (finish_step m (Some t) (default_MaxNewTokens opts) (Z.of_nat (k - 1))
         st nextID) = Break ->
  Generate ort m (Some t) [ids] [mask] opts w0
    = (Ok [generated st ++ [nextID]], w1)
  /\ length (generated st ++ [nextID]) = k
  /\ runs w1 = (runs w0 + k)%nat.
Proof.
  intros Hs Hk HM Hl Hsel Hb.
  set (opts' := default_MaxNewTokens opts) in *.
  rewrite (Generate_eq ort m t sess ids mask opts w0 Hs). fold opts'.
  unfold generateSimpleCausal, bind.
  replace (Z.to_nat (MaxNewTokens opts'))
    with ((k - 1) + S (Z.to_nat (MaxNewTokens opts') - k))%nat by lia.
  rewrite (loop_split _ _ _ _ _ _ _ _ _ _ _ _ Hl), loop_S, Hsel.
  change (0 + Z.of_nat (k - 1)) with (Z.of_nat (k - 1)). rewrite Hb.
  pose proof (finish_step_appends m (Some t) opts' (Z.of_nat (k - 1)) st nextID)
    as (Hg & _ & _).
  cbn [snd ret]. rewrite Hg. split; [reflexivity|].
  apply loop_appends in Hl as (toks & Hg0 & _ & _ & _ & Hr & Hc & _).
  cbn in Hg0. rewrite Hg0, length_app, (Hc eq_refl). cbn [length].
  destruct (select_next_runs ort m sess _ _ _ _ _ Hsel) as [_ Hr1].
  rewrite (Hr1 _ eq_refl), Hr, (Hc eq_refl). split; lia.
Qed.

(** X8: when the streamer returns false on the event of step [k]
    (after [k - 1] steps that all continued), [Generate] returns the
    [k] ids generated so far, the token of step [k] included, after
    exactly [k] graph runs. *)
Theorem X8_cancellation_at_step (m : ModelForCausalLM) (t : Tokenizer)
    (sess : DynamicAdvancedSession) (ids mask : list Z)
    (opts : GenerationOptions) (w0 : World) (k : nat) st w nextID w1 f :
  session m = Some sess ->
  (1 <= k)%nat ->
  Z.of_nat k <= MaxNewTokens (default_MaxNewTokens opts) ->
  loop ort m sess (Some t) (default_MaxNewTokens opts) (k - 1) 0
    (init_state ids mask) w0 = (Ok (Continue, st), w) ->
  select_next ort m sess (curIDs st) (curMask st) w = (Ok nextID, w1) ->
  Streamer opts = Some f ->
  f (snd (fst (fst (step_update m (Some t) (default_MaxNewTokens opts)
                      (Z.of_nat (k - 1)) st nextID)))) = false ->
  exists gen,
    Generate ort m (Some t) [ids] [mask] opts w0 = (Ok [gen], w1)
    /\ length gen = k /\ last gen = Some nextID
    /\ runs w1 = (runs w0 + k)%nat.
Proof.
  intros Hs Hk HM Hl Hsel Hf Hfalse.
  exists (generated st ++ [nextID]).
  destruct (Generate_breaks_at m t sess ids mask opts w0 k st w nextID w1
              Hs Hk HM Hl Hsel) as (HG & Hlen & Hr).
  - unfold finish_step.
    destruct (step_update m (Some t) (default_MaxNewTokens opts)
                (Z.of_nat (k - 1)) st nextID) as [[[st' ev] done] stopHit].
    cbn [fst snd] in Hfalse.
    assert (Hf' : Streamer (default_MaxNewTokens opts) = Some f).
    { unfold default_MaxNewTokens. destruct (_ <=? 0); exact Hf. }
    rewrite Hf', Hfalse. reflexivity.
  - rewrite last_snoc. tauto.
Qed.

Lemma finish_step_stop (m : ModelForCausalLM) (tokenizer : option Tokenizer)
    (opts : GenerationOptions) (step : Z) (st : LoopState) (nextID : Z)
    (stop : string) :
  In stop (StopSequences opts) -> stop <> EmptyString ->
  0 <= Index (snd (decode_delta tokenizer nextID (fullText st))) stop ->
  fst (finish_step m tokenizer opts step st nextID) = Break.
Proof.
  intros Hin Hne Hidx. unfold finish_step, step_update.
  destruct (decode_delta tokenizer nextID (fullText st)) as [d tx].
  cbn [snd] in Hidx.
  destruct (stop_scan_hit (StopSequences opts) tx d stop Hin Hne Hidx)
    as (l1 & s & l2 & _ & _ & _ & _ & Hscan).
  rewrite Hscan, orb_true_r.
  destruct (Streamer opts) as [f|]; [|reflexivity].
  destruct (negb _); reflexivity.
Qed.

(** X9: when the text accumulated at step [k] contains a configured,
    non-empty stop string, [Generate] returns [k] ids: the token whose
    text completed the stop string is part of the result, and no later
    step runs. *)
Theorem X9_stop_string_at_step (m : ModelForCausalLM) (t : Tokenizer)
    (sess : DynamicAdvancedSession) (ids mask : list Z)
    (opts : GenerationOptions) (w0 : World) (k : nat) st w nextID w1 stop :
  session m = Some sess ->
  (1 <= k)%nat ->
  Z.of_nat k <= MaxNewTokens (default_MaxNewTokens opts) ->
  loop ort m sess (Some t) (default_MaxNewTokens opts) (k - 1) 0
    (init_state ids mask) w0 = (Ok (Continue, st), w) ->
  select_next ort m sess (curIDs st) (curMask st) w = (Ok nextID, w1) ->
  In stop (StopSequences opts) -> stop <> EmptyString ->
  0 <= Index (snd (decode_delta (Some t) nextID (fullText st))) stop ->
  exists gen,
    Generate ort m (Some t) [ids] [mask] opts w0 = (Ok [gen], w1)
    /\ length gen = k /\ last gen = Some nextID
    /\ runs w1 = (runs w0 + k)%nat.
Proof.
  intros Hs Hk HM Hl Hsel Hin Hne Hidx.
  exists (generated st ++ [nextID]).
  destruct (Generate_breaks_at m t sess ids mask opts w0 k st w nextID w1
              Hs Hk HM Hl Hsel) as (HG & Hlen & Hr).
  - apply (finish_step_stop m (Some t) _ _ st nextID stop); try assumption.
    unfold default_MaxNewTokens. destruct (_ <=? 0); exact Hin.
  - rewrite last_snoc. tauto.
Qed.

(** X10: [Generate] checks its arguments in a fixed order and before it
    touches the engine: a missing tokenizer, then a missing session,
    then a batch of ids or of masks that is not of size 1 each end the
    call with the corresponding error and leave the engine as it was. *)
Theorem X10_Generate_rejects (m : ModelForCausalLM) (tokenizer : option Tokenizer)
    (inputIDs attentionMask : list (list Z)) (opts : GenerationOptions)
    (w : World) :
  (tokenizer = None ->
     Generate ort m tokenizer inputIDs attentionMask opts w = (Err ErrTokenizerNil, w))
  /\ (tokenizer <> None -> session m = None ->
      Generate ort m tokenizer inputIDs attentionMask opts w = (Err ErrSessionNil, w))
  /\ (tokenizer <> None -> session m <> None ->
      length inputIDs <> 1%nat \/ length attentionMask <> 1%nat ->
      Generate ort m tokenizer inputIDs attentionMask opts w = (Err ErrBatchSize, w)).
Proof.
  unfold Generate. split; [intros ->; reflexivity|]. split.
  - intros Ht Hs. destruct tokenizer; [|congruence]. rewrite Hs. reflexivity.
  - intros Ht Hs Hb. destruct tokenizer; [|congruence].
    destruct (session m); [|congruence].
    destruct inputIDs as [|ids [|]]; try reflexivity.
    destruct attentionMask as [|mask [|]]; try reflexivity.
    cbn in Hb. lia.
Qed.

(** X11: a [Generate] call that succeeds returns one row of at least one
    and at most [MaxNewTokens] ids (128 when the option is not
    positive), and has run the graph exactly once per returned id. *)
Theorem X11_Generate_result_size (m : ModelForCausalLM) (tokenizer : option Tokenizer)
    (inputIDs attentionMask : list (list Z)) (opts : GenerationOptions)
    (w w' : World) (out : list (list Z)) :
  Generate ort m tokenizer inputIDs attentionMask opts w = (Ok out, w') ->
  exists gen,
    out = [gen]
    /\ (1 <= length gen)%nat
    /\ Z.of_nat (length gen) <= (if MaxNewTokens opts <=? 0 then 128
                                 else MaxNewTokens opts)
    /\ runs w' = (runs w + length gen)%nat.
Proof.
  unfold Generate. destruct tokenizer as [t|]; [|discriminate].
  destruct (session m) as [sess|]; [|discriminate].
  destruct inputIDs as [|ids [|]]; try discriminate.
  destruct attentionMask as [|mask [|]]; try discriminate.
  assert (H : generateSimpleCausal ort m sess (Some t) ids mask
                (default_MaxNewTokens opts) w = (Ok out, w') ->
              exists gen, out = [gen] /\ (1 <= length gen)%nat
                /\ Z.of_nat (length gen) <= (if MaxNewTokens opts <=? 0 then 128
                                             else MaxNewTokens opts)
                /\ runs w' = (runs w + length gen)%nat).
  { unfold generateSimpleCausal, bind.
    destruct (loop ort m sess (Some t) (default_MaxNewTokens opts) _ 0 _ w)
      as [[[c st]|e|] w1] eqn:El; try discriminate.
    intros [= <- <-]. exists (generated st). split; [reflexivity|].
    apply loop_appends in El as (toks & Hg & _ & _ & Hle & Hr & Hc & Hb).
    cbn in Hg. subst toks.
    assert (HN : MaxNewTokens (default_MaxNewTokens opts)
                 = if MaxNewTokens opts <=? 0 then 128 else MaxNewTokens opts).
    { unfold default_MaxNewTokens. destruct (MaxNewTokens opts <=? 0); reflexivity. }
    rewrite HN in Hle, Hc.
    assert (Hpos : 1 <= (if MaxNewTokens opts <=? 0 then 128 else MaxNewTokens opts)).
    { destruct (MaxNewTokens opts <=? 0) eqn:E; [lia|]. apply Z.leb_gt in E. lia. }
    split; [|split; [lia|exact Hr]].
    destruct c; [rewrite (Hc eq_refl); lia|apply Hb; reflexivity]. }
  destruct (ioPreset m); exact H.
Qed.

End GenerateEnds.

Section MissingLogits.
Context {FM : FloatModel}.
Variable ort : OrtEnv.

Lemma scan_outputs_no_logits (names : list string) (i : nat)
    (outputs : list (option Value)) (l : option Float32Tensor) (w : World) r w' :
  ~ In "logits"%string names ->
  scan_outputs names i outputs l w = (r, w') -> r = Ok l.
Proof.
  revert i w; induction names as [|name rest IH]; intros i w Hnot;
    cbn [scan_outputs].
  - intros [= <- _]. reflexivity.
  - assert (E : String.eqb name "logits" = false).
    { apply String.eqb_neq. intros ->. apply Hnot. left. reflexivity. }
    rewrite E. cbn [negb].
    assert (Hrest : ~ In "logits"%string rest) by (intros H; apply Hnot; right; exact H).
    destruct (outputs !! i) as [[v|]|]; apply IH; exact Hrest.
Qed.

Lemma select_next_no_logits (m : ModelForCausalLM) (sess : DynamicAdvancedSession)
    (ids mask : list Z) (w : World) r w' :
  ~ In "logits"%string (outputNames m) ->
  select_next ort m sess ids mask w = (r, w') ->
  (forall nextID, r <> Ok nextID)
  /\ (forall outputs w1, run_graph ort m sess ids mask w = (Ok outputs, w1) ->
        r = Err ErrLogitsMissing).
Proof.
  intros Hnot. unfold select_next, bind at 1.
  destruct (run_graph ort m sess ids mask w) as [[outputs|e|] w1].
  - unfold pick_next, bind at 1.
    destruct (scan_outputs (outputNames m) 0 outputs None w1) as [r1 w2] eqn:Es.
    apply scan_outputs_no_logits in Es; [|exact Hnot]. subst r1.
    intros [= <- <-]. split; [discriminate|]. reflexivity.
  - intros [= <- <-]. split; [discriminate|]. discriminate.
  - intros [= <- <-]. split; [discriminate|]. discriminate.
Qed.

(** X12: a model whose output names do not include "logits" cannot
    generate: every [Generate] call on it ends in an error (or a
    panic), and a step whose graph run succeeds fails with the
    missing-logits error. *)
Theorem X12_no_logits_output (m : ModelForCausalLM) (tokenizer : option Tokenizer)
    (inputIDs attentionMask : list (list Z)) (opts : GenerationOptions)
    (w w' : World) r :
  ~ In "logits"%string (outputNames m) ->
  Generate ort m tokenizer inputIDs attentionMask opts w = (r, w') ->
  (forall out, r <> Ok out)
  /\ (forall sess ids mask outputs w1,
        session m = Some sess ->
        run_graph ort m sess ids mask w = (Ok outputs, w1) ->
        exists w2, select_next ort m sess ids mask w = (Err ErrLogitsMissing, w2)).
Proof.
  intros Hnot HG. split.
  - revert HG. unfold Generate. destruct tokenizer as [t|]; [|intros [= <- _]; discriminate].
    destruct (session m) as [sess|]; [|intros [= <- _]; discriminate].
    destruct inputIDs as [|ids [|]]; try (intros [= <- _]; discriminate).
    destruct attentionMask as [|mask [|]]; try (intros [= <- _]; discriminate).
    assert (H : generateSimpleCausal ort m sess (Some t) ids mask
                  (default_MaxNewTokens opts) w = (r, w') ->
                forall out, r <> Ok out).
    { unfold generateSimpleCausal, bind.
      assert (HN : exists n, Z.to_nat (MaxNewTokens (default_MaxNewTokens opts)) = S n).
      { unfold default_MaxNewTokens. destruct (MaxNewTokens opts <=? 0) eqn:E.
        - exists 127%nat. reflexivity.
        - apply Z.leb_gt in E. exists (Z.to_nat (MaxNewTokens opts) - 1)%nat. lia. }
      destruct HN as [n ->]. rewrite loop_S. cbn [curIDs curMask init_state].
      destruct (select_next ort m sess ids mask w) as [r1 w1] eqn:Es.
      destruct (select_next_no_logits m sess ids mask w r1 w1 Hnot Es) as [Hno _].
      destruct r1 as [nextID|e|]; [exfalso; eapply Hno; reflexivity| |];
        intros [= <- _]; discriminate. }
    destruct (ioPreset m); exact H.
  - intros sess ids mask outputs w1 Hs Hrun.
    destruct (select_next ort m sess ids mask w) as [r1 w2] eqn:Es.
    destruct (select_next_no_logits m sess ids mask w r1 w2 Hnot Es) as [_ He].
    rewrite (He outputs w1 Hrun). exists w2. reflexivity.
Qed.

End MissingLogits.

(** ** Tensor accounting of a call that succeeds *)

Section Accounting.
Context {FM : FloatModel}.
Variable ort : OrtEnv.
Variable m : ModelForCausalLM.

Lemma ledger_refl (w : World) : ledger w w [] [] [].
Proof.
  unfold ledger. cbn. rewrite !app_nil_r, Nat.add_0_r.
  repeat split; reflexivity.
Qed.

Lemma ledger_trans (w w1 w2 : World) (b1 a1 d1 b2 a2 d2 : list nat) :
  ledger w w1 b1 a1 d1 -> ledger w1 w2 b2 a2 d2 ->
  ledger w w2 (b1 ++ b2) (a1 ++ a2) (d1 ++ d2).
Proof.
  intros (B1 & A1 & D1 & N1 & P1) (B2 & A2 & D2 & N2 & P2).
  unfold ledger. rewrite B2, B1, A2, A1, D2, D1, N2, N1, <- !app_assoc.
  repeat split.
  - rewrite !length_app in *. lia.
  - replace (length (b1 ++ b2 ++ a1 ++ a2))
      with (length (b1 ++ a1) + length (b2 ++ a2))%nat
      by (rewrite !length_app; lia).
    rewrite seq_app, <- P1, <- N1, <- P2, <- !app_assoc.
    apply Permutation_app_head. apply Permutation_app_swap_app.
Qed.

Lemma NewTensor_ok_ledger (s : TensorSpec) (w : World) v w' :
  NewTensor ort s w = (Ok v, w') -> ledger w w' [handle v] [] [].
Proof.
  unfold NewTensor.
  destruct (NewTensor_err ort (attempts w) s); intros [= <- <-].
  unfold ledger. cbn. rewrite !app_nil_r.
  repeat split; try reflexivity; lia.
Qed.

Lemma Destroy_handle_ledger (h : nat) (w : World) r w' :
  Destroy_handle h w = (r, w') -> r = Ok tt /\ ledger w w' [] [] [h].
Proof.
  intros [= <- <-]. split; [reflexivity|].
  unfold ledger. cbn. rewrite !app_nil_r, Nat.add_0_r.
  repeat split; reflexivity.
Qed.

Lemma Destroy_all_ledger3 (vs : list Value) (w : World) r w' :
  Destroy_all vs w = (r, w') -> r = Ok tt /\ ledger w w' [] [] (map handle vs).
Proof.
  revert w; induction vs as [|v vs IH]; intros w; cbn [Destroy_all].
  - intros [= <- <-]. split; [reflexivity|apply ledger_refl].
  - unfold bind. destruct (Destroy v w) as [r1 w1] eqn:E.
    apply Destroy_handle_ledger in E as [-> L1].
    intros H. apply IH in H as [-> L2]. split; [reflexivity|].
    exact (ledger_trans _ _ _ _ _ _ _ _ _ L1 L2).
Qed.

Lemma zeroTensorForInput_ok_ledger (name : string) (seqLen : Z) (w : World) v w' :
  zeroTensorForInput ort m name seqLen w = (Ok v, w') ->
  ledger w w' [handle v] [] [].
Proof.
  unfold zeroTensorForInput.
  destruct (inputInfo m !! name) as [info|]; [|discriminate].
  unfold tensorFromInt64s, tensorFromFloat32s.
  destruct (DataType info); destruct (_ <? 0);
    first [discriminate | apply NewTensor_ok_ledger].
Qed.

Lemma assemble_inputs_ok (ids : list Z) (inputTensor maskTensor : Value)
    (names : list string) (i : nat) (inputs : list (option Value))
    (toDestroy : list Value) (w : World) a w' :
  assemble_inputs ort m ids inputTensor maskTensor names i inputs toDestroy w
    = (Ok a, w') ->
  exists new, snd a = toDestroy ++ new /\ ledger w w' (map handle new) [] [].
Proof.
  revert i inputs toDestroy w; induction names as [|name rest IH];
    intros i inputs toDestroy w; cbn [assemble_inputs].
  - intros [= <- <-]. exists []. rewrite app_nil_r.
    split; [reflexivity|apply ledger_refl].
  - destruct (String.eqb name "input_ids"); [apply IH|].
    destruct (String.eqb name "attention_mask"); [apply IH|].
    destruct (String.eqb name "position_ids").
    + unfold on_err, tensorFromInt64s.
      destruct (NewTensor ort _ w) as [[t|e|] w1] eqn:En.
      * apply NewTensor_ok_ledger in En.
        intros H. apply IH in H as (new & Ha & L). exists (t :: new).
        split; [rewrite Ha, <- app_assoc; reflexivity|].
        exact (ledger_trans _ _ _ [handle t] [] [] _ _ _ En L).
      * unfold bind, Destroy, Destroy_handle, fail. discriminate.
      * discriminate.
    + unfold on_err.
      destruct (zeroTensorForInput ort m name _ w) as [[t|e|] w1] eqn:Ez.
      * apply zeroTensorForInput_ok_ledger in Ez.
        intros H. apply IH in H as (new & Ha & L). exists (t :: new).
        split; [rewrite Ha, <- app_assoc; reflexivity|].
        exact (ledger_trans _ _ _ [handle t] [] [] _ _ _ Ez L).
      * intros H. apply release_then_fail in H as [H _]. discriminate.
      * discriminate.
Qed.

Lemma alloc_outputs_spec (out : nat -> option TensorSpec) (n i h : nat) vs hs h' :
  alloc_outputs out i n h = (vs, hs, h') ->
  length vs = n /\ hs = out_handles vs
  /\ hs = seq h (length hs) /\ h' = (h + length hs)%nat.
Proof.
  revert i h vs hs h'; induction n as [|n IH]; intros i h vs hs h';
    cbn [alloc_outputs].
  - intros [= <- <- <-]. cbn. repeat split. lia.
  - destruct (out i) as [s|].
    + destruct (alloc_outputs out (S i) n (S h)) as [[vs1 hs1] h1] eqn:E.
      intros [= <- <- <-]. destruct (IH _ _ _ _ _ E) as (H1 & H2 & H3 & H4).
      subst hs1. split; [cbn [length]; f_equal; exact H1|].
      split; [reflexivity|]. split.
      * cbn [length seq]. f_equal. exact H3.
      * cbn [length]. lia.
    + destruct (alloc_outputs out (S i) n h) as [[vs1 hs1] h1] eqn:E.
      intros [= <- <- <-]. destruct (IH _ _ _ _ _ E) as (H1 & H2 & H3 & H4).
      subst hs1. split; [cbn [length]; f_equal; exact H1|].
      split; [reflexivity|]. split; assumption.
Qed.

Lemma session_Run_ok (sess : DynamicAdvancedSession) (inputs : list (option Value))
    (nOut : nat) (w : World) vs w' :
  session_Run sess inputs nOut w = (Ok vs, w') ->
  length vs = nOut /\ ledger w w' [] (out_handles vs) [].
Proof.
  unfold session_Run.
  destruct (Run_result sess (runs w) _) as [cause|out]; [discriminate|].
  destruct (alloc_outputs out 0 nOut (next_handle w)) as [[vs1 hs] h'] eqn:E.
  intros [= <- <-]. destruct (alloc_outputs_spec _ _ _ _ _ _ _ E) as (H1 & H2 & H3 & H4).
  split; [exact H1|]. unfold ledger. cbn. rewrite <- H2, !app_nil_r.
  repeat split; [exact H4|]. rewrite H3 at 1. reflexivity.
Qed.

Lemma release_then_ret_ledger {A} (inputTensor maskTensor : Value)
    (vs : list Value) (a : A) (w : World) r w' :
  bind (Destroy inputTensor)
    (fun _ => bind (Destroy maskTensor)
       (fun _ => bind (Destroy_all vs) (fun _ => ret a))) w = (r, w') ->
  r = Ok a
  /\ ledger w w' [] [] ([handle inputTensor; handle maskTensor] ++ map handle vs).
Proof.
  unfold bind at 1. destruct (Destroy inputTensor w) as [r1 w1] eqn:E1.
  apply Destroy_handle_ledger in E1 as [-> L1].
  unfold bind at 1. destruct (Destroy maskTensor w1) as [r2 w2] eqn:E2.
  apply Destroy_handle_ledger in E2 as [-> L2].
  unfold bind. destruct (Destroy_all vs w2) as [r3 w3] eqn:E3.
  apply Destroy_all_ledger3 in E3 as [-> L3].
  intros [= <- <-]. split; [reflexivity|].
  exact (ledger_trans _ _ _ _ _ _ _ _ _ L1 (ledger_trans _ _ _ _ _ _ _ _ _ L2 L3)).
Qed.

(** A run that succeeds has released every input tensor it built and
    holds one value per output slot. *)
Lemma run_graph_ok (sess : DynamicAdvancedSession) (ids mask : list Z)
    (w : World) outputs w' :
  run_graph ort m sess ids mask w = (Ok outputs, w') ->
  length outputs = length (outputNames m)
  /\ exists bs, ledger w w' bs (out_handles outputs) bs.
Proof.
  unfold run_graph, on_err at 1, tensorFromInt64s.
  destruct (NewTensor ort (SpecInt64 [1; Z.of_nat (length ids)] ids) w)
    as [[inputTensor|e|] w1] eqn:E1; [|discriminate..].
  apply NewTensor_ok_ledger in E1.
  unfold on_err at 1.
  destruct (NewTensor ort (SpecInt64 [1; Z.of_nat (length mask)] mask) w1)
    as [[maskTensor|e|] w2] eqn:E2;
    [|unfold bind, Destroy, Destroy_handle, fail; discriminate|discriminate].
  apply NewTensor_ok_ledger in E2.
  unfold bind at 1.
  destruct (assemble_inputs ort m ids inputTensor maskTensor (inputNames m) 0
              (replicate (length (inputNames m)) None) [] w2)
    as [[a|e|] w3] eqn:E3; [|discriminate..].
  apply assemble_inputs_ok in E3 as (new & Ha & L3). cbn [app] in Ha.
  unfold on_err.
  destruct (session_Run sess (fst a) (length (outputNames m)) w3)
    as [[outs|e|] w4] eqn:E4.
  - apply session_Run_ok in E4 as [Hlen L4].
    intros H. apply release_then_ret_ledger in H as [[= ->] L5]. rewrite Ha in L5.
    split; [exact Hlen|].
    exists ([handle inputTensor; handle maskTensor] ++ map handle new).
    pose proof (ledger_trans _ _ _ _ _ _ _ _ _ E1
                  (ledger_trans _ _ _ _ _ _ _ _ _ E2
                     (ledger_trans _ _ _ _ _ _ _ _ _ L3
                        (ledger_trans _ _ _ _ _ _ _ _ _ L4 L5)))) as L.
    cbn [app] in L. rewrite !app_nil_r in L. exact L.
  - intros H. apply release_then_fail in H as [H _]. discriminate.
  - discriminate.
Qed.

Lemma scan_outputs_ok (outputs : list (option Value)) (names : list string)
    (i : nat) (l : option Float32Tensor) (w : World) r w' :
  NoDup names ->
  l = None \/ ~ In "logits"%string names ->
  scan_outputs names i outputs l w = (Ok r, w') ->
  exists ds,
    ledger w w' [] [] ds
    /\ ds ++ kept_handle r
       ≡ₚ kept_handle l ++ out_handles (take (length names) (drop i outputs)).
Proof.
  revert i l w; induction names as [|name rest IH]; intros i l w Hnd Hl;
    cbn [scan_outputs].
  - intros [= <- <-]. exists []. split; [apply ledger_refl|].
    cbn. rewrite app_nil_r. reflexivity.
  - apply NoDup_cons in Hnd as [Hname Hrest].
    assert (Hdrop : take (length (name :: rest)) (drop i outputs)
              = match outputs !! i with
                | Some x => x :: take (length rest) (drop (S i) outputs)
                | None => []
                end).
    { destruct (outputs !! i) as [x|] eqn:Ei.
      - rewrite (drop_S _ _ _ Ei). reflexivity.
      - apply lookup_ge_None in Ei. rewrite drop_ge by lia. reflexivity. }
    assert (Hnone : outputs !! i = None ->
              take (length rest) (drop (S i) outputs) = []).
    { intros Ei. apply lookup_ge_None in Ei. rewrite drop_ge by lia.
      apply take_nil. }
    rewrite Hdrop. clear Hdrop.
    destruct (String.eqb name "logits") eqn:En; cbn [negb].
    + apply String.eqb_eq in En. subst name.
      assert (l = None) as -> by (destruct Hl as [H|H]; [exact H|]; exfalso; apply H; left; reflexivity).
      destruct (outputs !! i) as [[v|]|]; [|discriminate..].
      destruct (spec v) as [| shape data |] eqn:Ev; [discriminate| |discriminate].
      intros H. apply IH in H; [|exact Hrest|right; rewrite <- list_elem_of_In; exact Hname].
      destruct H as (ds & L & P). exists ds. split; [exact L|].
      rewrite P. reflexivity.
    + assert (Hl' : l = None \/ ~ In "logits"%string rest).
      { destruct Hl as [H|H]; [left; exact H|right].
        intros Hin. apply H. right. exact Hin. }
      destruct (outputs !! i) as [[v|]|] eqn:Ei.
      * unfold bind. destruct (Destroy v w) as [r1 w1] eqn:Ed.
        apply Destroy_handle_ledger in Ed as [-> L1].
        intros H. apply IH in H; [|exact Hrest|exact Hl'].
        destruct H as (ds & L & P). exists (handle v :: ds).
        split; [exact (ledger_trans _ _ _ [] [] [handle v] _ _ _ L1 L)|].
        cbn [app]. rewrite P. apply Permutation_middle.
      * intros H. apply IH in H; [|exact Hrest|exact Hl'].
        destruct H as (ds & L & P). exists ds. split; [exact L|exact P].
      * intros H. apply IH in H; [|exact Hrest|exact Hl'].
        destruct H as (ds & L & P). exists ds. split; [exact L|].
        rewrite P, (Hnone eq_refl). reflexivity.
Qed.

Lemma pick_next_ok (ids : list Z) (outputs : list (option Value))
    (w : World) nextID w' :
  NoDup (outputNames m) ->
  length outputs = length (outputNames m) ->
  pick_next m ids outputs w = (Ok nextID, w') ->
  exists ds, ledger w w' [] [] ds /\ ds ≡ₚ out_handles outputs.
Proof.
  intros Hnd Hlen. unfold pick_next, bind at 1.
  destruct (scan_outputs (outputNames m) 0 outputs None w) as [[l|e|] w1] eqn:Es;
    [|discriminate..].
  apply scan_outputs_ok in Es as (ds & L & P); [|exact Hnd|left; reflexivity].
  rewrite drop_0, <- Hlen, firstn_all in P. cbn [kept_handle app] in P.
  destruct l as [lt|]; [|discriminate].
  destruct (ft_shape lt) as [|a [|b [|c [|]]]]; try discriminate.
  destruct (slice_f32 _ _ _); [|discriminate].
  unfold bind. destruct (Destroy_handle (ft_handle lt) w1) as [r2 w2] eqn:Ed.
  apply Destroy_handle_ledger in Ed as [-> L2].
  intros [= _ <-]. exists (ds ++ [ft_handle lt]).
  split; [exact (ledger_trans _ _ _ [] [] _ [] [] _ L L2)|exact P].
Qed.

Lemma balanced_refl (w : World) : balanced w w.
Proof. exists [], [], []. split; [apply ledger_refl|reflexivity]. Qed.

Lemma balanced_trans (w w1 w2 : World) :
  balanced w w1 -> balanced w1 w2 -> balanced w w2.
Proof.
  intros (b1 & a1 & d1 & L1 & P1) (b2 & a2 & d2 & L2 & P2).
  exists (b1 ++ b2), (a1 ++ a2), (d1 ++ d2).
  split; [exact (ledger_trans _ _ _ _ _ _ _ _ _ L1 L2)|].
  rewrite P1, P2, <- !app_assoc.
  apply Permutation_app_head. apply Permutation_app_swap_app.
Qed.

Lemma balanced_released_all (w w' : World) : balanced w w' -> released_all w w'.
Proof.
  intros (bs & als & ds & (B & A & D & N & P) & Pd).
  exists bs, als, ds. repeat split; try assumption.
  rewrite Pd, P. apply NoDup_seq.
Qed.

Lemma select_next_ok (sess : DynamicAdvancedSession) (ids mask : list Z)
    (w : World) nextID w' :
  NoDup (outputNames m) ->
  select_next ort m sess ids mask w = (Ok nextID, w') ->
  balanced w w'.
Proof.
  intros Hnd. unfold select_next, bind at 1.
  destruct (run_graph ort m sess ids mask w) as [[outputs|e|] w1] eqn:Er;
    [|discriminate..].
  apply run_graph_ok in Er as (Hlen & bs & L1).
  intros H. apply pick_next_ok in H as (ds & L2 & P); [|exact Hnd|exact Hlen].
  exists bs, (out_handles outputs), (bs ++ ds).
  split.
  - pose proof (ledger_trans _ _ _ _ _ _ _ _ _ L1 L2) as L.
    rewrite !app_nil_r in L. exact L.
  - rewrite P. reflexivity.
Qed.

Lemma loop_ok_balanced (sess : DynamicAdvancedSession) (tokenizer : option Tokenizer)
    (opts : GenerationOptions) (n : nat) (step : Z) (st : LoopState)
    (w : World) r w' :
  NoDup (outputNames m) ->
  loop ort m sess tokenizer opts n step st w = (Ok r, w') ->
  balanced w w'.
Proof.
  intros Hnd. revert step st w; induction n as [|n IH]; intros step st w.
  - cbn. intros [= _ <-]. apply balanced_refl.
  - rewrite loop_S.
    destruct (select_next ort m sess (curIDs st) (curMask st) w)
      as [[nextID|e|] w1] eqn:Es; [|discriminate..].
    apply select_next_ok in Es; [|exact Hnd].
    destruct (fst (finish_step m tokenizer opts step st nextID)).
    + intros H. apply IH in H. exact (balanced_trans _ _ _ Es H).
    + intros [= _ <-]. exact Es.
Qed.

(** X13: when the output names of the model are pairwise distinct, a
    [Generate] call that succeeds has destroyed every tensor it built
    and every output the graph runs allocated, each exactly once. *)
Theorem X13_Generate_releases_all (tokenizer : option Tokenizer)
    (inputIDs attentionMask : list (list Z)) (opts : GenerationOptions)
    (w w' : World) (out : list (list Z)) :
  NoDup (outputNames m) ->
  Generate ort m tokenizer inputIDs attentionMask opts w = (Ok out, w') ->
  released_all w w'.
Proof.
  intros Hnd. unfold Generate. destruct tokenizer as [t|]; [|discriminate].
  destruct (session m) as [sess|]; [|discriminate].
  destruct inputIDs as [|ids [|]]; try discriminate.
  destruct attentionMask as [|mask [|]]; try discriminate.
  assert (H : generateSimpleCausal ort m sess (Some t) ids mask
                (default_MaxNewTokens opts) w = (Ok out, w') ->
              released_all w w').
  { unfold generateSimpleCausal, bind.
    destruct (loop ort m sess (Some t) (default_MaxNewTokens opts) _ 0 _ w)
      as [[r|e|] w1] eqn:El; try discriminate.
    intros [= _ <-]. apply balanced_released_all.
    exact (loop_ok_balanced _ _ _ _ _ _ _ _ _ Hnd El). }
  destruct (ioPreset m); exact H.
Qed.

(** X14: when no optional slot is declared before [position_ids], every
    way the assembly and execution phase of a step returns, an error
    included, has destroyed exactly the input tensors the step built,
    in the order they were built. *)
Theorem X14_step_inputs_released (sess : DynamicAdvancedSession)
    (ids mask : list Z) (w : World) r w' :
  position_ids_leads (inputNames m) = true ->
  run_graph ort m sess ids mask w = (r, w') ->
  r <> Panic ->
  exists bs, built w' = built w ++ bs /\ destroyed w' = destroyed w ++ bs.
Proof.
  intros Hlead Hrun Hnp.
  destruct (run_graph_balanced ort m sess ids mask w r w' Hlead Hrun Hnp)
    as (bs & Hb & Hd).
  exists bs. split; assumption.
Qed.

End Accounting.

(** ** Zero-filled cache tensors *)

Lemma zero_count_from_zero (l : list Z) :
  fold_left (fun count d => wrap64 (count * d)) l 0 = 0.
Proof. induction l as [|d l IH]; [reflexivity|]. cbn. exact IH. Qed.

Lemma zero_count_has_zero (l1 l2 : list Z) :
  zero_count (l1 ++ 0 :: l2) = 0.
Proof.
  unfold zero_count. rewrite fold_left_app. cbn [fold_left].
  rewrite Z.mul_0_r. change (wrap64 0) with 0. apply zero_count_from_zero.
Qed.

Section ZeroCache.
Context {FM : FloatModel}.

(** X15: no dimension of the shape [zeroTensorForInput] derives is
    negative; and a cache slot with an undefined dimension after the
    first gets an empty tensor: the element count is 0 whatever the
    other dimensions are, so the call does not panic and hands the
    engine a tensor without data. *)
Theorem X15_cache_slot_empty (ort : OrtEnv) (m : ModelForCausalLM)
    (name : string) (info : InputOutputInfo) (seqLen : Z) (w : World)
    (i : nat) (d : Z) :
  inputInfo m !! name = Some info ->
  let shape := zero_shape name (Dimensions info) seqLen in
  Forall (fun x => 0 <= x) shape
  /\ (Contains name "past" || Contains name "cache" = true ->
      i <> 0%nat -> Dimensions info !! i = Some d -> d <= 0 ->
      shape !! i = Some 0
      /\ zero_count shape = 0
      /\ zeroTensorForInput ort m name seqLen w
         = NewTensor ort
             (match DataType info with
              | TensorElementDataTypeInt64 => SpecInt64 shape []
              | _ => SpecFloat32 shape []
              end) w).
Proof.
  intros Hinfo shape. split.
  - unfold shape, zero_shape. apply Forall_forall. intros x Hx.
    apply list_elem_of_lookup in Hx as [j Hj].
    rewrite list_lookup_imap in Hj.
    destruct (Dimensions info !! j) as [dj|]; [|discriminate].
    injection Hj as <-. unfold zero_dim.
    destruct (dj <=? 0) eqn:E; [|apply Z.leb_gt in E; lia].
    destruct (negb _ && (_ =? _) && (0 <? seqLen)) eqn:E2.
    + apply andb_true_iff in E2 as [_ E2]. apply Z.ltb_lt in E2. lia.
    + destruct (j =? 0)%nat; [lia|]. destruct (_ || _); lia.
  - intros Hc Hi Hd Hneg.
    assert (Hsh : shape !! i = Some 0).
    { unfold shape, zero_shape. rewrite list_lookup_imap, Hd. cbn.
      unfold zero_dim. rewrite Hc.
      replace (d <=? 0) with true by (symmetry; apply Z.leb_le; lia).
      replace (i =? 0)%nat with false by (symmetry; apply Nat.eqb_neq; exact Hi).
      reflexivity. }
    assert (Hcount : zero_count shape = 0).
    { rewrite <- (take_drop_middle shape i 0 Hsh). apply zero_count_has_zero. }
    split; [exact Hsh|]. split; [exact Hcount|].
    unfold zeroTensorForInput. rewrite Hinfo. fold shape. rewrite Hcount.
    cbn [Z.ltb Z.compare Z.to_nat replicate].
    unfold tensorFromInt64s, tensorFromFloat32s.
    destruct (DataType info); reflexivity.
Qed.

End ZeroCache.

Lemma X15_cache_slot_empty_witness :
  let m := test_model (FM := Z_floats) (-1) None
             ["input_ids"; "past_key_values.0.key"]%string ["logits"]%string
             [test_info "past_key_values.0.key" [-1; 8; -1; 64]
                TensorElementDataTypeFloat] in
  exists w',
    zeroTensorForInput (FM := Z_floats) ort_ok m "past_key_values.0.key" 7 world0
    = (Ok {| handle := 0; spec := SpecFloat32 [1; 8; 0; 64] [] |}, w').
Proof.
  intros m.
  destruct (X15_cache_slot_empty (FM := Z_floats) ort_ok m "past_key_values.0.key"
              (test_info "past_key_values.0.key" [-1; 8; -1; 64]
                 TensorElementDataTypeFloat) 7 world0 2%nat (-1) eq_refl)
    as (_ & H).
  destruct H as (_ & _ & H); [reflexivity|discriminate|reflexivity|lia|].
  rewrite H. eexists. reflexivity.
Defined.

(** ** Truncation at stop strings *)

Lemma str_app_assoc (a b c : string) : (a +:+ b) +:+ c = a +:+ b +:+ c.
Proof.
  induction a as [|x a IH]; [reflexivity|].
  rewrite !append_String, IH. reflexivity.
Qed.

Lemma str_app_nil_r (a : string) : a +:+ EmptyString = a.
Proof.
  induction a as [|x a IH]; [reflexivity|]. rewrite append_String, IH. reflexivity.
Qed.

Lemma str_length_app (a b : string) :
  String.length (a +:+ b) = (String.length a + String.length b)%nat.
Proof.
  induction a as [|x a IH]; [reflexivity|].
  rewrite append_String. cbn [String.length]. rewrite IH. reflexivity.
Qed.

Lemma slice_split (s : string) (k : nat) : s = slice_to s k +:+ slice_from s k.
Proof.
  revert k; induction s as [|c s IH]; intros [|k]; try reflexivity.
  cbn [slice_to slice_from]. rewrite append_String, <- IH. reflexivity.
Qed.

Lemma slice_to_length (s : string) (k : nat) :
  (String.length (slice_to s k) <= k)%nat.
Proof.
  revert k; induction s as [|c s IH]; intros [|k]; cbn; try lia.
  specialize (IH k). lia.
Qed.

Lemma slice_from_app (a x : string) : slice_from (a +:+ x) (String.length a) = x.
Proof.
  induction a as [|c a IH]; [destruct x; reflexivity|].
  rewrite append_String. cbn [String.length slice_from]. exact IH.
Qed.

Lemma HasPrefix_app_self (sub x : string) : HasPrefix (sub +:+ x) sub = true.
Proof.
  induction sub as [|c sub IH]; [reflexivity|].
  rewrite append_String. cbn [HasPrefix]. rewrite Ascii.eqb_refl, IH. reflexivity.
Qed.

Lemma has_substring_prefix (p rest sub : string) :
  has_substring p sub -> has_substring (p +:+ rest) sub.
Proof.
  intros (a & b & ->). exists a, (b +:+ rest).
  rewrite !str_app_assoc. reflexivity.
Qed.

Lemma has_substring_inside (a b s sub : string) :
  has_substring s sub -> has_substring (a +:+ s +:+ b) sub.
Proof.
  intros (x & y & ->). exists (a +:+ x), (y +:+ b).
  rewrite !str_app_assoc. reflexivity.
Qed.

Lemma Index_absent_no_substring (s sub : string) :
  Index s sub < 0 -> ~ has_substring s sub.
Proof.
  intros H (a & b & ->).
  pose proof (Index_absent _ _ H (String.length a)) as Hp.
  rewrite slice_from_app, HasPrefix_app_self in Hp. discriminate.
Qed.

Lemma cut_no_substring (out stop : string) :
  stop <> EmptyString -> 0 <= Index out stop ->
  ~ has_substring (slice_to out (Z.to_nat (Index out stop))) stop.
Proof.
  intros Hne Hidx (a & b & E).
  destruct (Index_found out stop Hidx) as (_ & _ & Hfirst).
  set (k := Z.to_nat (Index out stop)) in *.
  assert (Hlen : (String.length a < k)%nat).
  { pose proof (slice_to_length out k) as Hk.
    rewrite E, !str_length_app in Hk.
    destruct stop as [|c stop]; [congruence|]. cbn [String.length] in Hk. lia. }
  specialize (Hfirst _ Hlen).
  rewrite (slice_split out k), E, !str_app_assoc, slice_from_app,
    HasPrefix_app_self in Hfirst.
  discriminate.
Qed.

Lemma truncate_loop_spec (stops : list string) (out : string) :
  (exists rest, out = truncate_loop stops out +:+ rest)
  /\ forall stop, In stop stops -> stop <> EmptyString ->
       ~ has_substring (truncate_loop stops out) stop.
Proof.
  revert out; induction stops as [|s stops IH]; intros out.
  - split; [exists EmptyString; rewrite str_app_nil_r; reflexivity|].
    intros stop [].
  - cbn [truncate_loop].
    destruct (String.eqb s EmptyString) eqn:Es.
    { apply String.eqb_eq in Es. subst s.
      destruct (IH out) as [Hp Hn]. split; [exact Hp|].
      intros stop [<-|Hin] Hne; [congruence|apply Hn; assumption]. }
    apply String.eqb_neq in Es.
    destruct (0 <=? Index out s) eqn:Ei.
    + apply Z.leb_le in Ei.
      destruct (IH (slice_to out (Z.to_nat (Index out s)))) as [[rest Hp] Hn].
      split.
      * exists (rest +:+ slice_from out (Z.to_nat (Index out s))).
        rewrite <- str_app_assoc, <- Hp. apply slice_split.
      * intros stop [<-|Hin] Hne; [|apply Hn; assumption].
        intros Hsub. apply (cut_no_substring out s Es Ei).
        rewrite Hp. apply has_substring_prefix, Hsub.
    + apply Z.leb_gt in Ei. destruct (IH out) as [[rest Hp] Hn].
      split; [exists rest; exact Hp|].
      intros stop [<-|Hin] Hne; [|apply Hn; assumption].
      intros Hsub. apply (Index_absent_no_substring out s Ei).
      rewrite Hp. apply has_substring_prefix, Hsub.
Qed.

(** X16: the loop of [truncateAtStops] keeps a prefix of the text, and
    no configured, non-empty stop string is left in what
    [truncateAtStops] returns (every stop string cuts in turn, so an
    earlier one that occurs before a later one is removed too). *)
Theorem X16_truncateAtStops_no_stop (TrimSpace : string -> string)
    (s : string) (stops : list string) :
  (exists rest, s = truncate_loop stops s +:+ rest)
  /\ (trims TrimSpace ->
      forall stop, In stop stops -> stop <> EmptyString ->
        ~ has_substring (truncateAtStops TrimSpace s stops) stop).
Proof.
  destruct (truncate_loop_spec stops s) as [Hp Hn]. split; [exact Hp|].
  intros Htrim stop Hin Hne Hsub. apply (Hn stop Hin Hne).
  unfold truncateAtStops in Hsub.
  destruct (Htrim (truncate_loop stops s)) as (a & b & E).
  rewrite E. apply has_substring_inside, Hsub.
Qed.

Lemma trim_left_piece (s : string) : exists a, s = a +:+ trim_left s.
Proof.
  induction s as [|c s [a IH]]; [exists EmptyString; reflexivity|].
  cbn [trim_left]. destruct (is_space c).
  - exists (String c a). rewrite append_String, <- IH. reflexivity.
  - exists EmptyString. reflexivity.
Qed.

Lemma trim_right_piece (s : string) : exists b, s = trim_right s +:+ b.
Proof.
  induction s as [|c s [b IH]]; [exists EmptyString; reflexivity|].
  cbn [trim_right]. destruct (trim_right s) as [|d t] eqn:E.
  - destruct (is_space c).
    + exists (String c s). reflexivity.
    + exists b. rewrite append_String. f_equal. exact IH.
  - exists b. rewrite append_String. f_equal. exact IH.
Qed.

Lemma trim_ascii_trims : trims trim_ascii.
Proof.
  intros s. unfold trim_ascii.
  destruct (trim_left_piece s) as [a Ha].
  destruct (trim_right_piece (trim_left s)) as [b Hb].
  exists a, b. rewrite <- Hb. exact Ha.
Qed.

Lemma X16_truncateAtStops_no_stop_witness :
  truncateAtStops trim_ascii " Paris. STOP and more END tail" ["END"; "STOP"]%string
  = "Paris."%string
  /\ ~ has_substring
        (truncateAtStops trim_ascii " Paris. STOP and more END tail"
           ["END"; "STOP"]%string) "STOP".
Proof.
  split; [reflexivity|].
  apply (X16_truncateAtStops_no_stop trim_ascii " Paris. STOP and more END tail"
           ["END"; "STOP"]%string).
  - exact trim_ascii_trims.
  - right. left. reflexivity.
  - discriminate.
Defined.

(** ** The tokenizer wrapper *)

Lemma render_system_spec (messages : list ChatMessage) (b : string) :
  render_system messages b
  = b +:+ str_concat (map system_line (List.filter is_system messages)).
Proof.
  revert b; induction messages as [|m rest IH]; intros b.
  - cbn. rewrite str_app_nil_r. reflexivity.
  - cbn [render_system List.filter]. unfold is_system at 1.
    destruct (String.eqb (Role m) RoleSystem).
    + rewrite IH. cbn [map str_concat fold_right]. unfold system_line.
      rewrite !str_app_assoc. reflexivity.
    + apply IH.
Qed.

Lemma render_turns_spec (messages : list ChatMessage) (b : string) :
  render_turns messages b
  = b +:+ str_concat (map turn_line
                        (List.filter (fun m => negb (is_system m)) messages)).
Proof.
  revert b; induction messages as [|m rest IH]; intros b.
  - cbn. rewrite str_app_nil_r. reflexivity.
  - cbn [render_turns List.filter]. unfold is_system at 1.
    destruct (String.eqb (Role m) RoleSystem); cbn [negb].
    + apply IH.
    + rewrite IH. cbn [map str_concat fold_right]. unfold turn_line.
      rewrite !str_app_assoc. reflexivity.
Qed.

Lemma renderChatTemplate_eq (messages : list ChatMessage) :
  renderChatTemplate messages
  = (str_concat (map system_line (List.filter is_system messages))
     +:+ str_concat (map turn_line
                       (List.filter (fun m => negb (is_system m)) messages)),
     None).
Proof.
  unfold renderChatTemplate. rewrite render_turns_spec, render_system_spec.
  reflexivity.
Qed.

(** X17: [renderChatTemplate] never fails; it writes one "System: "
    line per system message first, in list order, wherever those
    messages stand, then one line per other message in list order,
    labelled "Assistant" for the assistant role and "User" for every
    other role; nothing follows the last line. *)
Theorem X17_renderChatTemplate_layout (messages : list ChatMessage) :
  renderChatTemplate messages
  = (str_concat (map system_line (List.filter is_system messages))
     +:+ str_concat (map turn_line
                       (List.filter (fun m => negb (is_system m)) messages)),
     None).
Proof. apply renderChatTemplate_eq. Qed.

Lemma fill_ones (k a : nat) (l : list Z) :
  length l = (a + k)%nat ->
  fold_left (fun attn i => <[i := 1]> attn) (seq a k) l
  = take a l ++ replicate k 1.
Proof.
  revert a l; induction k as [|k IH]; intros a l Hlen.
  - cbn. rewrite app_nil_r, take_ge by lia. reflexivity.
  - cbn [seq fold_left]. rewrite IH by (rewrite length_insert; lia).
    rewrite insert_take_drop by lia.
    rewrite take_app, take_take, length_take.
    replace (S a `min` a)%nat with a by lia.
    replace (S a - a `min` length l)%nat with 1%nat by lia.
    cbn [take]. rewrite take_0, <- app_assoc. reflexivity.
Qed.

(** X18: [EncodeChat] fails exactly when [Encode] fails on the rendered
    text, with the same error; otherwise it returns a batch of one row
    of ids, a batch of one mask of as many ones, that length as prompt
    length, and the rendered text. *)
Theorem X18_EncodeChat_result (Encode : Encoder) (messages : list ChatMessage) :
  let rawText := fst (renderChatTemplate messages) in
  (forall e, Encode rawText true = inl e -> EncodeChat Encode messages = inl e)
  /\ (forall ids, Encode rawText true = inr ids ->
        EncodeChat Encode messages
        = inr ([ids], [replicate (length ids) 1], Z.of_nat (length ids), rawText)).
Proof.
  cbv zeta. unfold EncodeChat. rewrite renderChatTemplate_eq. cbn [fst].
  split.
  - intros e ->. reflexivity.
  - intros ids ->. rewrite (fill_ones (length ids) 0) by (rewrite length_replicate; lia).
    rewrite take_0. reflexivity.
Qed.

Lemma BatchDecode_loop_ok (t : Tokenizer) (batch : list (list Z)) (i : nat)
    (res : list string) :
  length res = (i + length batch)%nat ->
  (forall ids, In ids batch -> snd (Decode t ids) = None) ->
  BatchDecode_loop t batch i res
  = inr (take i res ++ map (fun ids => fst (Decode t ids)) batch).
Proof.
  revert i res; induction batch as [|ids rest IH]; intros i res Hlen Hok.
  - cbn. rewrite app_nil_r, take_ge by (cbn in Hlen; lia). reflexivity.
  - cbn [BatchDecode_loop map]. cbn [length] in Hlen.
    pose proof (Hok ids (or_introl eq_refl)) as Hd.
    destruct (Decode t ids) as [txt [e|]]; [discriminate|]. cbn [fst].
    rewrite IH.
    + rewrite insert_take_drop by lia.
      rewrite take_app, take_take, length_take.
      replace (S i `min` i)%nat with i by lia.
      replace (S i - i `min` length res)%nat with 1%nat by lia.
      cbn [take]. rewrite take_0, <- app_assoc. reflexivity.
    + rewrite length_insert. lia.
    + intros ids' Hin. apply Hok. right. exact Hin.
Qed.

Lemma BatchDecode_loop_err (t : Tokenizer) (l1 l2 : list (list Z)) (ids : list Z)
    (i : nat) (res : list string) (e : error) :
  (forall ids', In ids' l1 -> snd (Decode t ids') = None) ->
  snd (Decode t ids) = Some e ->
  BatchDecode_loop t (l1 ++ ids :: l2) i res = inl e.
Proof.
  revert i res; induction l1 as [|a l1 IH]; intros i res Hok He.
  - cbn [app BatchDecode_loop]. destruct (Decode t ids) as [txt [e'|]];
      cbn in He; congruence.
  - cbn [app BatchDecode_loop].
    pose proof (Hok a (or_introl eq_refl)) as Ha.
    destruct (Decode t a) as [txt [e'|]]; [discriminate|].
    apply IH; [|exact He]. intros ids' Hin. apply Hok. right. exact Hin.
Qed.

(** X19: [BatchDecode] returns the decoded text of every row, in row
    order, when every row decodes; it fails with the error of the first
    row that does not decode; over the wrapped tokenizer of the
    repository, whose [Decode] has no error, it never fails. *)
Theorem X19_BatchDecode_rows (t : Tokenizer) (batch l1 l2 : list (list Z))
    (ids : list Z) (e : error) (tok : list Z -> string) :
  ((forall row, In row batch -> snd (Decode t row) = None) ->
     BatchDecode t batch = inr (map (fun row => fst (Decode t row)) batch))
  /\ (batch = l1 ++ ids :: l2 ->
      (forall row, In row l1 -> snd (Decode t row) = None) ->
      snd (Decode t ids) = Some e ->
      BatchDecode t batch = inl e)
  /\ BatchDecode (wrapped_Tokenizer tok) batch = inr (map tok batch).
Proof.
  split; [|split].
  - intros Hok. unfold BatchDecode.
    rewrite BatchDecode_loop_ok by (rewrite ?length_replicate; auto).
    rewrite take_0. reflexivity.
  - intros -> Hok He. apply BatchDecode_loop_err; assumption.
  - unfold BatchDecode.
    rewrite BatchDecode_loop_ok by (rewrite ?length_replicate; auto).
    rewrite take_0. reflexivity.
Qed.

Lemma X19_BatchDecode_rows_witness :
  BatchDecode failing_tokenizer [[1]; [2]] = inl (ErrDecode "decode failed")
  /\ BatchDecode (const_tokenizer "a") [[1]; [2]] = inr ["a"; "a"]%string.
Proof.
  split.
  - apply (X19_BatchDecode_rows failing_tokenizer [[1]; [2]] [] [[2]] [1]
             (ErrDecode "decode failed") (fun _ => EmptyString)).
    + reflexivity.
    + intros row [].
    + reflexivity.
  - apply (X19_BatchDecode_rows (const_tokenizer "a") [[1]; [2]] [] [] []
             (ErrDecode "") (fun _ => "a"%string)).
Defined.

Lemma X18_EncodeChat_result_witness :
  EncodeChat byte_encoder [user_message "Hi"]
  = inr ([[85; 115; 101; 114; 58; 32; 72; 105; 10]],
         [[1; 1; 1; 1; 1; 1; 1; 1; 1]], 9, String.append "User: Hi" (String "010" "")).
Proof.
  apply (X18_EncodeChat_result byte_encoder [user_message "Hi"]). reflexivity.
Defined.

Lemma EncodeChat_inv (Encode : Encoder) (messages : list ChatMessage)
    inputIDs attentionMask promptLen rawText :
  EncodeChat Encode messages = inr (inputIDs, attentionMask, promptLen, rawText) ->
  exists ids, inputIDs = [ids] /\ attentionMask = [replicate (length ids) 1].
Proof.
  unfold EncodeChat. rewrite renderChatTemplate_eq.
  destruct (Encode _ true) as [e|ids]; [discriminate|].
  rewrite (fill_ones (length ids) 0) by (rewrite length_replicate; lia).
  rewrite take_0. intros [= <- <- _ _]. exists ids. split; reflexivity.
Qed.

Section PipelineInputs.
Context {FM : FloatModel}.
Variable ort : OrtEnv.

(** X20: for the ids and the mask [EncodeChat] produces, in every
    state a [Generate] call passes through the mask is all ones and as
    long as the ids. *)
Theorem X20_pipeline_mask_all_ones (Encode : Encoder) (messages : list ChatMessage)
    (m : ModelForCausalLM) (tokenizer : option Tokenizer)
    (opts : GenerationOptions) (w0 : World) (st : LoopState)
    inputIDs attentionMask promptLen rawText :
  EncodeChat Encode messages = inr (inputIDs, attentionMask, promptLen, rawText) ->
  Generate_visits ort m tokenizer inputIDs attentionMask opts w0 st ->
  curMask st = replicate (length (curIDs st)) 1
  /\ length (curMask st) = length (curIDs st).
Proof.
  intros He Hv. apply EncodeChat_inv in He as (ids & -> & ->).
  destruct Hv as (t & sess & ids' & mask' & k & c & w & _ & _ & [= <-] & [= <-]
                  & _ & Hloop).
  apply loop_appends in Hloop as (toks & _ & Hi & Hm & _).
  cbn in Hi, Hm. rewrite Hi, Hm, length_app, replicate_add.
  split; [reflexivity|]. rewrite !length_app, !length_replicate. reflexivity.
Qed.

End PipelineInputs.

Lemma X20_pipeline_mask_all_ones_witness :
  let st := {| generated := [2]; curIDs := [72; 2]; curMask := [1; 1];
               fullText := "a" |} in
  curMask st = replicate (length (curIDs st)) 1.
Proof.
  intros st.
  apply (X20_pipeline_mask_all_ones (FM := Z_floats) ort_ok
           (fun text _ => inr [72]) [user_message "H"]
           (simple_model (-1) rows_two) (Some (const_tokenizer "a"))
           (test_opts 3 None []) world0 st [[72]] [[1]] 1
           (String.append "User: H" (String "010" ""))).
  - reflexivity.
  - exists (const_tokenizer "a"), (scripted_session rows_two), [72], [1],
      1%nat, Continue.
    eexists. do 4 (split; [reflexivity|]).
    split; [vm_compute; lia|reflexivity].
Defined.

(** ** The generator closure of the pipeline *)

Section GeneratorProps.
Context {FM : FloatModel}.
Variable ort : OrtEnv.

Lemma Generate_ok_inv (m : ModelForCausalLM) (tokenizer : option Tokenizer)
    (inputIDs attentionMask : list (list Z)) (opts : GenerationOptions)
    (w w' : World) (out : list (list Z)) :
  Generate ort m tokenizer inputIDs attentionMask opts w = (Ok out, w') ->
  exists gen, out = [gen] /\ (NoDup (outputNames m) -> balanced w w').
Proof.
  unfold Generate. destruct tokenizer as [t|]; [|discriminate].
  destruct (session m) as [sess|]; [|discriminate].
  destruct inputIDs as [|ids [|]]; try discriminate.
  destruct attentionMask as [|mask [|]]; try discriminate.
  assert (H : generateSimpleCausal ort m sess (Some t) ids mask
                (default_MaxNewTokens opts) w = (Ok out, w') ->
              exists gen, out = [gen] /\ (NoDup (outputNames m) -> balanced w w')).
  { unfold generateSimpleCausal, bind.
    destruct (loop ort m sess (Some t) (default_MaxNewTokens opts) _ 0 _ w)
      as [[r|e|] w1] eqn:El; try discriminate.
    intros [= <- <-]. eexists. split; [reflexivity|].
    intros Hnd. exact (loop_ok_balanced ort m _ _ _ _ _ _ _ _ _ Hnd El). }
  destruct (ioPreset m); exact H.
Qed.

Lemma truncateAtStops_clean (TrimSpace : string -> string) (s : string)
    (stops : list string) (stop : string) :
  trims TrimSpace -> In stop stops -> stop <> EmptyString ->
  ~ has_substring (TrimSpace (truncateAtStops TrimSpace s stops)) stop.
Proof.
  intros Htrim Hin Hne Hsub.
  destruct (truncate_loop_spec stops s) as [_ Hn]. apply (Hn stop Hin Hne).
  unfold truncateAtStops in Hsub.
  destruct (Htrim (TrimSpace (truncate_loop stops s))) as (a & b & E).
  destruct (Htrim (truncate_loop stops s)) as (a' & b' & E').
  rewrite E'. apply has_substring_inside.
  rewrite E. apply has_substring_inside, Hsub.
Qed.

(** X21: a generator call that fails to encode the chat returns that
    error without touching the engine; a call that succeeds returns
    one row holding one assistant turn, whose content contains none of
    the non-empty stop strings the call handed to [Generate], and
    (with pairwise distinct output names) has destroyed every tensor
    it built or was given by the graph runs. *)
Theorem X21_generator_output (TrimSpace : string -> string) (config : Config)
    (Encode : Encoder) (tokenizer : Tokenizer) (model : ModelForCausalLM)
    (messages : list ChatMessage) (callOptions : gmap string any)
    (w : World) :
  (forall e, EncodeChat Encode messages = inl e ->
     generator ort TrimSpace config Encode tokenizer model messages callOptions w
     = (GenErr (ErrEncodeChat e), w))
  /\ (forall out w',
        generator ort TrimSpace config Encode tokenizer model messages callOptions w
        = (GenOk out, w') ->
        exists content,
          out = [[ {| turn_role := "assistant"; turn_content := content |} ]]
          /\ (trims TrimSpace ->
              forall stop,
                In stop (StopSequences (generator_genOpts config callOptions)) ->
                stop <> EmptyString -> ~ has_substring content stop)
          /\ (NoDup (outputNames model) -> released_all w w')).
Proof.
  split.
  - intros e He. unfold generator. rewrite He. reflexivity.
  - intros out w'. unfold generator.
    destruct (EncodeChat Encode messages) as [e|[[[a b] n] raw]]; [discriminate|].
    destruct (Generate ort model (Some tokenizer) a b
                (generator_genOpts config callOptions) w)
      as [[outb|e|] w1] eqn:EG; [|discriminate..].
    apply Generate_ok_inv in EG as (gen & -> & Hbal).
    unfold BatchDecode. cbn [BatchDecode_loop length replicate].
    destruct (Decode tokenizer gen) as [txt [e|]]; [discriminate|].
    cbn. intros [= <- <-]. eexists. split; [reflexivity|]. split.
    + intros Htrim stop Hin Hne. apply truncateAtStops_clean; assumption.
    + intros Hnd. apply balanced_released_all, Hbal, Hnd.
Qed.

(** X22: the stop list the generator hands to [Generate] is never
    empty: it is the caller's list whenever [parseStopSequences] finds
    one, else the configuration's list when that is not empty, else
    the four default strings; and a list parsed from a string or from
    a list of values holds no empty string. *)
Theorem X22_generator_stop_list (config : Config) (callOptions : gmap string any) :
  let parsed := parseStopSequences (default AnyNil (callOptions !! "stop"%string)) in
  let stops := StopSequences (generator_genOpts config callOptions) in
  stops <> []
  /\ (parsed <> [] -> stops = parsed)
  /\ (parsed = [] -> StopStrings config <> [] -> stops = StopStrings config)
  /\ (parsed = [] -> StopStrings config = [] -> length stops = 4%nat)
  /\ (forall t l, callOptions !! "stop"%string = Some (AnyString t)
                  \/ callOptions !! "stop"%string = Some (AnyList l) ->
        ~ In EmptyString parsed).
Proof.
  cbv zeta. unfold generator_genOpts. cbn [StopSequences].
  set (parsed := parseStopSequences (default AnyNil (callOptions !! "stop"%string))).
  split; [|split; [|split; [|split]]].
  - destruct parsed as [|p ps]; cbn [length Nat.eqb andb].
    + destruct (StopStrings config) as [|c cs]; cbn; discriminate.
    + discriminate.
  - intros Hp. destruct parsed as [|p ps]; [congruence|]. reflexivity.
  - intros -> Hc. destruct (StopStrings config) as [|c cs]; [congruence|]. reflexivity.
  - intros -> ->. reflexivity.
  - intros t l H. subst parsed.
    destruct H as [-> | ->]; unfold default; cbn [from_option id parseStopSequences].
    + destruct (String.eqb t EmptyString) eqn:E; unfold not; cbn [In].
      * intros H. exact H.
      * intros [H|H]; [|exact H]. subst t. rewrite String.eqb_refl in E.
        discriminate.
    + assert (G : forall acc, ~ In EmptyString acc ->
                ~ In EmptyString
                    (fold_left
                       (fun out x =>
                          match x with
                          | AnyString s =>
                              if String.eqb s EmptyString then out else out ++ [s]
                          | _ => out
                          end) l acc)).
      { induction l as [|x l IH]; intros acc Hacc; [exact Hacc|].
        cbn [fold_left]. apply IH.
        destruct x; try exact Hacc.
        destruct (String.eqb s EmptyString) eqn:E; [exact Hacc|].
        intros Hin. apply in_app_or in Hin as [Hin|Hin]; [exact (Hacc Hin)|].
        cbn [In] in Hin. destruct Hin as [Hin|Hin]; [|exact Hin].
        subst s. rewrite String.eqb_refl in E. discriminate. }
      apply G. unfold not. cbn [In]. intros H. exact H.
Qed.

End GeneratorProps.

(** ** A streamer that only follows the done flag *)

Section DemoStreamer.
Context {FM : FloatModel}.
Variable ort : OrtEnv.

Lemma finish_step_follows_done (m : ModelForCausalLM) (tokenizer : option Tokenizer)
    (opts : GenerationOptions) (f : PipelineStreamEvent -> bool)
    (step : Z) (st : LoopState) (nextID : Z) :
  (forall ev, f ev = negb (Done ev)) ->
  finish_step m tokenizer (with_Streamer (Some f) opts) step st nextID
  = finish_step m tokenizer (with_Streamer None opts) step st nextID.
Proof.
  intros Hf. unfold finish_step.
  change (step_update m tokenizer (with_Streamer (Some f) opts) step st nextID)
    with (step_update m tokenizer opts step st nextID).
  change (step_update m tokenizer (with_Streamer None opts) step st nextID)
    with (step_update m tokenizer opts step st nextID).
  pose proof (eq_refl (step_update m tokenizer opts step st nextID)) as Hu.
  unfold step_update at 2 in Hu.
  destruct (decode_delta tokenizer nextID (fullText st)) as [d0 t0].
  destruct (stop_scan (StopSequences opts) t0 d0) as [[t1 d1] stopHit].
  rewrite Hu. cbn [Streamer with_Streamer]. rewrite Hf. cbn [Done].
  destruct (_ && _), stopHit; reflexivity.
Qed.

Lemma loop_follows_done (m : ModelForCausalLM) (sess : DynamicAdvancedSession)
    (tokenizer : option Tokenizer) (opts : GenerationOptions)
    (f : PipelineStreamEvent -> bool) (n : nat) (step : Z) (st : LoopState)
    (w : World) :
  (forall ev, f ev = negb (Done ev)) ->
  loop ort m sess tokenizer (with_Streamer (Some f) opts) n step st w
  = loop ort m sess tokenizer (with_Streamer None opts) n step st w.
Proof.
  intros Hf. revert step st w; induction n as [|n IH]; intros step st w;
    [reflexivity|].
  rewrite !loop_S.
  destruct (select_next ort m sess (curIDs st) (curMask st) w)
    as [[nextID|e|] w1]; try reflexivity.
  rewrite (finish_step_follows_done m tokenizer opts f step st nextID Hf).
  destruct (fst (finish_step m tokenizer (with_Streamer None opts) step st nextID));
    [apply IH|reflexivity].
Qed.

(** X23: a streamer that returns the negation of the event's done flag,
    as the demo program's does, never changes a [Generate] call: the
    result and the effects on the engine are those of the call without
    a streamer. *)
Theorem X23_done_following_streamer (m : ModelForCausalLM)
    (tokenizer : option Tokenizer) (inputIDs attentionMask : list (list Z))
    (opts : GenerationOptions) (w : World) :
  Generate ort m tokenizer inputIDs attentionMask
    (with_Streamer (Some demo_streamer) opts) w
  = Generate ort m tokenizer inputIDs attentionMask (with_Streamer None opts) w.
Proof.
  unfold Generate. destruct tokenizer as [t|]; [|reflexivity].
  destruct (session m) as [sess|]; [|reflexivity].
  destruct inputIDs as [|ids [|]]; try reflexivity.
  destruct attentionMask as [|mask [|]]; try reflexivity.
  assert (E : forall o,
    generateSimpleCausal ort m sess (Some t) ids mask
      (with_Streamer (Some demo_streamer) o) w
    = generateSimpleCausal ort m sess (Some t) ids mask (with_Streamer None o) w).
  { intros o. unfold generateSimpleCausal, bind. cbn [MaxNewTokens with_Streamer].
    rewrite (loop_follows_done m sess (Some t) o demo_streamer); reflexivity. }
  unfold default_MaxNewTokens. cbn [MaxNewTokens with_Streamer].
  destruct (MaxNewTokens opts <=? 0).
  - change (with_MaxNewTokens 128 (with_Streamer (Some demo_streamer) opts))
      with (with_Streamer (Some demo_streamer) (with_MaxNewTokens 128 opts)).
    change (with_MaxNewTokens 128 (with_Streamer None opts))
      with (with_Streamer None (with_MaxNewTokens 128 opts)).
    destruct (ioPreset m); apply E.
  - destruct (ioPreset m); apply E.
Qed.

End DemoStreamer.

(** ** The further properties on concrete runs *)

Lemma X8_cancellation_at_step_witness :
  exists w1 gen,
    Generate (FM := Z_floats) ort_ok (simple_model (-1) rows_two)
      (Some (const_tokenizer "a")) [[1; 2]] [[1; 1]]
      (test_opts 5 (Some (fun ev => Step ev <? 1)) []) world0
    = (Ok [gen], w1)
    /\ length gen = 2%nat /\ last gen = Some 2 /\ runs w1 = 2%nat.
Proof.
  eexists.
  eapply (X8_cancellation_at_step (FM := Z_floats) ort_ok
            (simple_model (-1) rows_two) (const_tokenizer "a")
            (scripted_session rows_two) [1; 2] [1; 1]
            (test_opts 5 (Some (fun ev => Step ev <? 1)) []) world0 2%nat
            (state_after_one "a") world_after_one 2).
  - reflexivity.
  - lia.
  - vm_compute. discriminate.
  - vm_compute. reflexivity.
  - vm_compute. reflexivity.
  - reflexivity.
  - reflexivity.
Defined.

Lemma X9_stop_string_at_step_witness :
  exists w1 gen,
    Generate (FM := Z_floats) ort_ok (simple_model (-1) rows_two)
      (Some (const_tokenizer "ab")) [[1; 2]] [[1; 1]]
      (test_opts 5 None ["ba"]%string) world0
    = (Ok [gen], w1)
    /\ length gen = 2%nat /\ last gen = Some 2 /\ runs w1 = 2%nat.
Proof.
  eexists.
  eapply (X9_stop_string_at_step (FM := Z_floats) ort_ok
            (simple_model (-1) rows_two) (const_tokenizer "ab")
            (scripted_session rows_two) [1; 2] [1; 1]
            (test_opts 5 None ["ba"]%string) world0 2%nat
            (state_after_one "ab") world_after_one 2 _ "ba"%string).
  - reflexivity.
  - lia.
  - vm_compute. discriminate.
  - vm_compute. reflexivity.
  - vm_compute. reflexivity.
  - left. reflexivity.
  - discriminate.
  - vm_compute. discriminate.
Defined.

Lemma X10_Generate_rejects_witness :
  Generate (FM := Z_floats) ort_ok (simple_model (-1) rows_two)
    (Some (const_tokenizer "a")) [[1]; [2]] [[1]; [1]] (test_opts 5 None []) world0
  = (Err ErrBatchSize, world0).
Proof.
  apply (X10_Generate_rejects (FM := Z_floats) ort_ok (simple_model (-1) rows_two)
           (Some (const_tokenizer "a")) [[1]; [2]] [[1]; [1]]
           (test_opts 5 None []) world0).
  - discriminate.
  - discriminate.
  - left. cbn. lia.
Defined.

Lemma X11_Generate_result_size_witness :
  exists w' gen,
    Generate (FM := Z_floats) ort_ok (simple_model (-1) rows_two)
      (Some (const_tokenizer "a")) [[1; 2]] [[1; 1]] (test_opts 3 None []) world0
    = (Ok [gen], w')
    /\ (1 <= length gen)%nat /\ Z.of_nat (length gen) <= 3
    /\ runs w' = (0 + length gen)%nat.
Proof.
  destruct (Generate (FM := Z_floats) ort_ok (simple_model (-1) rows_two)
              (Some (const_tokenizer "a")) [[1; 2]] [[1; 1]] (test_opts 3 None [])
              world0) as [r w'] eqn:E.
  pose proof E as E'. vm_compute in E'. injection E' as <- _.
  destruct (X11_Generate_result_size (FM := Z_floats) ort_ok
              (simple_model (-1) rows_two) (Some (const_tokenizer "a"))
              [[1; 2]] [[1; 1]] (test_opts 3 None []) world0 w' _ E)
    as (gen & Hg & H1 & H2 & H3).
  exists w', gen. rewrite Hg. split; [reflexivity|]. split; [exact H1|].
  split; [exact H2|exact H3].
Defined.

Lemma X12_no_logits_output_witness :
  ~ exists out,
      fst (Generate (FM := Z_floats) ort_ok no_logits_model
             (Some (const_tokenizer "a")) [[1; 2]] [[1; 1]] (test_opts 3 None [])
             world0) = Ok out.
Proof.
  destruct (Generate (FM := Z_floats) ort_ok no_logits_model
              (Some (const_tokenizer "a")) [[1; 2]] [[1; 1]] (test_opts 3 None [])
              world0) as [r w'] eqn:E.
  apply (X12_no_logits_output (FM := Z_floats) ort_ok no_logits_model _ _ _ _ _ _ _)
    in E.
  - intros [out Hout]. exact (proj1 E out Hout).
  - intros [H|[]]. discriminate.
Defined.

Lemma X13_Generate_releases_all_witness :
  exists out w',
    Generate (FM := Z_floats) ort_ok lfm2_like_model
      (Some (const_tokenizer "a")) [[1; 2]] [[1; 1]] (test_opts 2 None []) world0
    = (Ok out, w')
    /\ released_all (FM := Z_floats) world0 w'.
Proof.
  eexists _, _. split; [vm_compute; reflexivity|].
  eapply (X13_Generate_releases_all (FM := Z_floats) ort_ok lfm2_like_model
            (Some (const_tokenizer "a")) [[1; 2]] [[1; 1]] (test_opts 2 None [])
            world0).
  - apply NoDup_singleton.
  - vm_compute. reflexivity.
Defined.

Lemma X14_step_inputs_released_witness :
  exists r w' bs,
    run_graph (FM := Z_floats) (ort_fail_at 3) lfm2_like_model
      (scripted_session rows_two) [1; 2] [1; 1] world0 = (r, w')
    /\ built w' = built world0 ++ bs /\ destroyed w' = destroyed world0 ++ bs
    /\ length bs = 3%nat.
Proof.
  destruct (run_graph (FM := Z_floats) (ort_fail_at 3) lfm2_like_model
              (scripted_session rows_two) [1; 2] [1; 1] world0) as [r w'] eqn:E.
  destruct (X14_step_inputs_released (FM := Z_floats) (ort_fail_at 3)
              lfm2_like_model (scripted_session rows_two) [1; 2] [1; 1] world0
              r w' eq_refl E) as (bs & Hb & Hd).
  - vm_compute in E. injection E as <- _. discriminate.
  - exists r, w', bs. split; [reflexivity|]. split; [exact Hb|]. split; [exact Hd|].
    vm_compute in E. injection E as _ <-. cbn in Hb.
    apply (f_equal (@length nat)) in Hb. cbn in Hb. lia.
Defined.

Lemma X21_generator_output_witness :
  exists content w',
    generator (FM := Z_floats) ort_ok trim_ascii (test_config (-1) [])
      byte_encoder (const_tokenizer " a") (simple_model (-1) rows_two)
      [system_message "Be brief."; user_message "Hi"]
      (<["max_new_tokens"%string := AnyInt 2]> ∅) world0
    = (GenOk [[ {| turn_role := "assistant"; turn_content := content |} ]], w')
    /\ content = "a"%string
    /\ released_all (FM := Z_floats) world0 w'.
Proof.
  destruct (generator (FM := Z_floats) ort_ok trim_ascii (test_config (-1) [])
              byte_encoder (const_tokenizer " a") (simple_model (-1) rows_two)
              [system_message "Be brief."; user_message "Hi"]
              (<["max_new_tokens"%string := AnyInt 2]> ∅) world0)
    as [r w'] eqn:E.
  assert (Hr : exists out, r = GenOk out).
  { vm_compute in E. injection E as <- _. eexists. reflexivity. }
  destruct Hr as [out ->].
  destruct (X21_generator_output (FM := Z_floats) ort_ok trim_ascii
              (test_config (-1) []) byte_encoder (const_tokenizer " a")
              (simple_model (-1) rows_two)
              [system_message "Be brief."; user_message "Hi"]
              (<["max_new_tokens"%string := AnyInt 2]> ∅) world0) as [_ H].
  destruct (H out w' E) as (content & -> & _ & Hrel).
  exists content, w'. split; [reflexivity|]. split.
  - vm_compute in E. injection E as E _. congruence.
  - apply Hrel. apply NoDup_singleton.
Defined.

Lemma X22_generator_stop_list_witness :
  length (StopSequences
            (generator_genOpts (FM := Z_floats) (test_config (-1) []) ∅)) = 4%nat
  /\ StopSequences
       (generator_genOpts (FM := Z_floats) (test_config (-1) [])
          (<["stop"%string := AnyString "###"]> ∅)) = ["###"]%string.
Proof.
  destruct (X22_generator_stop_list (FM := Z_floats) (test_config (-1) []) ∅)
    as (_ & _ & _ & H4 & _).
  destruct (X22_generator_stop_list (FM := Z_floats) (test_config (-1) [])
              (<["stop"%string := AnyString "###"]> ∅)) as (_ & H2 & _).
  split.
  - apply H4; reflexivity.
  - rewrite H2; [reflexivity|discriminate].
Defined.

(** ** The version bump tool *)

Lemma wrap64_small (z : Z) : - 2 ^ 63 <= z < 2 ^ 63 -> wrap64 z = z.
Proof. intros H. unfold wrap64. rewrite Z.mod_small; lia. Qed.

Lemma wrap64_shift (z k : Z) : wrap64 (z + k * 2 ^ 64) = wrap64 z.
Proof.
  unfold wrap64. replace (z + k * 2 ^ 64 + 2 ^ 63) with (z + 2 ^ 63 + k * 2 ^ 64) by lia.
  rewrite Z_mod_plus_full. reflexivity.
Qed.

Lemma wrap64_repr (z : Z) : exists k, wrap64 z = z + k * 2 ^ 64.
Proof.
  exists (- ((z + 2 ^ 63) / 2 ^ 64)). unfold wrap64.
  rewrite Z.mod_eq by lia. lia.
Qed.

Lemma wrap64_digit_step (a d : Z) :
  wrap64 (wrap64 (wrap64 a * 10) + d) = wrap64 (a * 10 + d).
Proof.
  destruct (wrap64_repr a) as [k1 E1]. rewrite E1.
  destruct (wrap64_repr ((a + k1 * 2 ^ 64) * 10)) as [k2 E2]. rewrite E2.
  replace ((a + k1 * 2 ^ 64) * 10 + k2 * 2 ^ 64 + d)
    with (a * 10 + d + (10 * k1 + k2) * 2 ^ 64) by lia.
  apply wrap64_shift.
Qed.

Lemma inc_loop_wrap (s : string) (a : Z) :
  inc_loop s (wrap64 a) = option_map wrap64 (digits_value s a).
Proof.
  revert a; induction s as [|ch s IH]; intros a; [reflexivity|].
  cbn [inc_loop digits_value].
  destruct ((Z.of_N (N_of_ascii ch) <? 48) || (57 <? Z.of_N (N_of_ascii ch)));
    [reflexivity|].
  rewrite wrap64_digit_step. apply IH.
Qed.

Lemma digits_value_uint_acc (d : Decimal.uint) (acc : positive) :
  digits_value (NilEmpty.string_of_uint d) (Z.pos acc)
  = Some (Z.pos (Pos.of_uint_acc d acc)).
Proof.
  revert acc; induction d as [|d IH|d IH|d IH|d IH|d IH|d IH|d IH|d IH|d IH|d IH];
    intros acc; [reflexivity|..];
    cbn [NilEmpty.string_of_uint digits_value Pos.of_uint_acc];
    rewrite <- IH; f_equal; vm_compute Z.of_N; lia.
Qed.

Lemma digits_value_uint (d : Decimal.uint) :
  digits_value (NilEmpty.string_of_uint d) 0 = Some (Z.of_N (Pos.of_uint d)).
Proof.
  induction d as [|d IH|d IH|d IH|d IH|d IH|d IH|d IH|d IH|d IH|d IH];
    [reflexivity|exact IH|..];
    cbn [NilEmpty.string_of_uint digits_value Pos.of_uint];
    apply (digits_value_uint_acc d).
Qed.

Lemma digits_value_sprintf_d (n : Z) :
  0 <= n -> digits_value (sprintf_d n) 0 = Some n.
Proof.
  intros H. unfold sprintf_d. destruct n as [|p|p]; [reflexivity| |lia].
  cbn [Z.to_int NilEmpty.string_of_int].
  rewrite digits_value_uint, DecimalPos.Unsigned.of_to. reflexivity.
Qed.

Lemma inc_sprintf_d (n : Z) :
  0 <= n < 2 ^ 63 - 1 -> inc (sprintf_d n) = sprintf_d (n + 1).
Proof.
  intros H. unfold inc.
  change 0 with (wrap64 0) at 1. rewrite inc_loop_wrap.
  rewrite digits_value_sprintf_d by lia. cbn [option_map].
  rewrite !wrap64_small; [reflexivity| |]; try rewrite wrap64_small; lia.
Qed.

(** X24: [inc] applied to the decimal text of a non-negative number
    below the largest [int] gives the decimal text of the next number. *)
Theorem X24_inc_next_number (n : Z) :
  0 <= n < 2 ^ 63 - 1 -> inc (sprintf_d n) = sprintf_d (n + 1).
Proof. apply inc_sprintf_d. Qed.

Lemma X24_inc_next_number_witness : inc "41" = "42"%string.
Proof. apply (X24_inc_next_number 41). lia. Defined.


Lemma count_byte_app (c : ascii) (a b : string) :
  count_byte c (a +:+ b) = (count_byte c a + count_byte c b)%nat.
Proof.
  induction a as [|d a IH]; [reflexivity|].
  rewrite append_String. cbn [count_byte]. rewrite IH. lia.
Qed.

Lemma count_byte_first (c : ascii) (s : string) :
  count_byte c s = 0%nat
  \/ exists a rest, s = a +:+ String c rest /\ count_byte c a = 0%nat
       /\ count_byte c s = S (count_byte c rest).
Proof.
  induction s as [|d s IH]; [left; reflexivity|].
  cbn [count_byte]. destruct (Ascii.eqb_spec d c) as [->|Hd].
  - right. exists EmptyString, s. repeat split; reflexivity.
  - destruct IH as [H0|(a & rest & -> & Ha & Hs)].
    + left. rewrite H0. reflexivity.
    + right. exists (String d a), rest. rewrite append_String.
      split; [reflexivity|]. split.
      * cbn [count_byte]. destruct (Ascii.eqb_spec d c); [contradiction|exact Ha].
      * rewrite Hs. reflexivity.
Qed.

Lemma Index_from_byte_absent (c : ascii) (s : string) (i : Z) :
  count_byte c s = 0%nat -> Index_from s (String c EmptyString) i = -1.
Proof.
  revert i; induction s as [|d s IH]; intros i H; [reflexivity|].
  cbn [count_byte] in H. cbn [Index_from HasPrefix].
  rewrite Ascii.eqb_sym. destruct (Ascii.eqb d c); [discriminate|].
  cbn [andb]. apply IH. exact H.
Qed.

Lemma Index_from_byte_found (c : ascii) (a rest : string) (i : Z) :
  count_byte c a = 0%nat ->
  Index_from (a +:+ String c rest) (String c EmptyString) i
  = i + Z.of_nat (String.length a).
Proof.
  revert i; induction a as [|d a IH]; intros i H.
  - rewrite append_nil_l. cbn [Index_from HasPrefix String.length].
    rewrite Ascii.eqb_refl. cbn [andb]. lia.
  - cbn [count_byte] in H. rewrite append_String.
    cbn [Index_from HasPrefix String.length].
    rewrite Ascii.eqb_sym. destruct (Ascii.eqb d c); [discriminate|].
    cbn [andb]. rewrite IH by exact H. lia.
Qed.

Lemma slice_to_app (a x : string) : slice_to (a +:+ x) (String.length a) = a.
Proof.
  induction a as [|c a IH]; [destruct x; reflexivity|].
  rewrite append_String. cbn [String.length slice_to]. rewrite IH. reflexivity.
Qed.

Lemma Split_loop_last (c : ascii) (fuel : nat) (s : string) :
  count_byte c s = 0%nat -> Split_loop fuel s (String c EmptyString) = [s].
Proof.
  intros H. destruct fuel as [|fuel]; [reflexivity|].
  cbn [Split_loop]. unfold Index. rewrite Index_from_byte_absent by exact H.
  reflexivity.
Qed.

Lemma Split_loop_cons (c : ascii) (fuel : nat) (a rest : string) :
  count_byte c a = 0%nat ->
  Split_loop (S fuel) (a +:+ String c rest) (String c EmptyString)
  = a :: Split_loop fuel rest (String c EmptyString).
Proof.
  intros H. cbn [Split_loop]. unfold Index.
  rewrite Index_from_byte_found by exact H.
  destruct (Z.ltb_spec (0 + Z.of_nat (String.length a)) 0) as [E|E]; [lia|].
  replace (Z.to_nat (0 + Z.of_nat (String.length a))) with (String.length a) by lia.
  rewrite slice_to_app. f_equal.
  change (String c rest) with (String c EmptyString +:+ rest).
  rewrite <- str_app_assoc.
  replace (String.length a + String.length (String c EmptyString))%nat
    with (String.length (a +:+ String c EmptyString))
    by (rewrite str_length_app; reflexivity).
  rewrite slice_from_app. reflexivity.
Qed.

Lemma Split_loop_fuel (c : ascii) (f1 f2 : nat) (s : string) :
  (String.length s <= f1)%nat -> (String.length s <= f2)%nat ->
  Split_loop f1 s (String c EmptyString) = Split_loop f2 s (String c EmptyString).
Proof.
  revert f2 s; induction f1 as [|f1 IH]; intros f2 s H1 H2;
    destruct (count_byte_first c s) as [H0|(a & rest & -> & Ha & _)].
  - rewrite !Split_loop_last by exact H0. reflexivity.
  - rewrite str_length_app in H1. cbn [String.length] in H1. lia.
  - rewrite !Split_loop_last by exact H0. reflexivity.
  - rewrite str_length_app in H1, H2. cbn [String.length] in H1, H2.
    destruct f2 as [|f2]; [lia|].
    rewrite !Split_loop_cons by exact Ha. f_equal. apply IH; lia.
Qed.

Lemma Split_last (c : ascii) (s : string) :
  count_byte c s = 0%nat -> Split s (String c EmptyString) = [s].
Proof. apply Split_loop_last. Qed.

Lemma Split_cons (c : ascii) (a rest : string) :
  count_byte c a = 0%nat ->
  Split (a +:+ String c rest) (String c EmptyString)
  = a :: Split rest (String c EmptyString).
Proof.
  intros H. unfold Split. rewrite str_length_app. cbn [String.length].
  replace (String.length a + S (String.length rest))%nat
    with (S (String.length a + String.length rest)) by lia.
  rewrite Split_loop_cons by exact H. f_equal.
  apply Split_loop_fuel; lia.
Qed.

Lemma Split_length (c : ascii) (s : string) :
  length (Split s (String c EmptyString)) = S (count_byte c s).
Proof.
  remember (String.length s) as n eqn:Hn.
  assert (Hle : (String.length s <= n)%nat) by lia. clear Hn.
  revert s Hle; induction n as [|n IH]; intros s Hle;
    destruct (count_byte_first c s) as [H0|(a & rest & -> & Ha & Hs)].
  - rewrite Split_last, H0 by exact H0. reflexivity.
  - rewrite str_length_app in Hle. cbn [String.length] in Hle. lia.
  - rewrite Split_last, H0 by exact H0. reflexivity.
  - rewrite Split_cons, Hs by exact Ha. cbn [length]. f_equal.
    apply IH. rewrite str_length_app in Hle. cbn [String.length] in Hle. lia.
Qed.

Lemma all_digits_no_dot (s : string) :
  all_digits s = true -> count_byte "." s = 0%nat.
Proof.
  induction s as [|ch s IH]; [reflexivity|].
  cbn [all_digits count_byte]. intros H.
  apply andb_true_iff in H as [Hc Hs]. rewrite (IH Hs).
  destruct (Ascii.eqb_spec ch ".") as [->|_]; [discriminate Hc|reflexivity].
Qed.

Lemma all_digits_uint (d : Decimal.uint) :
  all_digits (NilEmpty.string_of_uint d) = true.
Proof. induction d; [reflexivity|..]; cbn [NilEmpty.string_of_uint all_digits]; exact IHd. Qed.

Lemma sprintf_d_no_dot (n : Z) : 0 <= n -> count_byte "." (sprintf_d n) = 0%nat.
Proof.
  intros H. apply all_digits_no_dot. unfold sprintf_d.
  destruct n as [|p|p]; [reflexivity| |lia].
  apply all_digits_uint.
Qed.

Lemma inc_loop_non_digit (s : string) (n : Z) :
  all_digits s = false -> inc_loop s n = None.
Proof.
  revert n; induction s as [|ch s IH]; intros n H; [discriminate|].
  cbn [all_digits] in H. cbn [inc_loop].
  destruct ((Z.of_N (N_of_ascii ch) <? 48) || (57 <? Z.of_N (N_of_ascii ch)));
    [reflexivity|].
  apply IH. exact H.
Qed.

Lemma inc_non_digit (s : string) : all_digits s = false -> inc s = s.
Proof. intros H. unfold inc. rewrite inc_loop_non_digit by exact H. reflexivity. Qed.

Lemma bumpPatch_fields (major minor patch : string) :
  count_byte "." major = 0%nat -> count_byte "." minor = 0%nat ->
  count_byte "." patch = 0%nat ->
  bumpPatch (major +:+ "." +:+ minor +:+ "." +:+ patch)
  = inr (major +:+ "." +:+ minor +:+ "." +:+ inc patch).
Proof.
  intros H1 H2 H3. unfold bumpPatch.
  change ("." +:+ minor +:+ "." +:+ patch)
    with (String "." (minor +:+ String "." patch)).
  rewrite (Split_cons "." major) by exact H1.
  rewrite (Split_cons "." minor) by exact H2.
  rewrite (Split_last "." patch) by exact H3.
  reflexivity.
Qed.

(** X25: for a version of three dot-separated fields whose last field
    is the decimal text of a non-negative number below the largest
    [int], [bumpPatch] succeeds and returns the version with that number
    increased by one and the other two fields unchanged. *)
Theorem X25_bumpPatch_next_patch (major minor : string) (n : Z) :
  count_byte "." major = 0%nat -> count_byte "." minor = 0%nat ->
  0 <= n < 2 ^ 63 - 1 ->
  bumpPatch (major +:+ "." +:+ minor +:+ "." +:+ sprintf_d n)
  = inr (major +:+ "." +:+ minor +:+ "." +:+ sprintf_d (n + 1)).
Proof.
  intros H1 H2 Hn.
  rewrite bumpPatch_fields by (try apply sprintf_d_no_dot; solve [assumption|lia]).
  rewrite inc_sprintf_d by exact Hn. reflexivity.
Qed.

Lemma X25_bumpPatch_next_patch_witness :
  bumpPatch "0.1.9" = inr "0.1.10"%string.
Proof.
  apply (X25_bumpPatch_next_patch "0" "1" 9); [reflexivity|reflexivity|lia].
Defined.

(** X26: [bumpPatch] fails exactly when the version does not hold two
    dots, and the error then reports the version. *)
Theorem X26_bumpPatch_error (ver : string) :
  (count_byte "." ver <> 2%nat ->
     bumpPatch ver = inl (ErrUnexpectedVersionFormat ver))
  /\ (count_byte "." ver = 2%nat -> exists next, bumpPatch ver = inr next).
Proof.
  unfold bumpPatch. pose proof (Split_length "." ver) as HL.
  split; intros H.
  - destruct (Nat.eqb_spec (length (Split ver ".")) 3) as [E|E]; [lia|reflexivity].
  - destruct (Nat.eqb_spec (length (Split ver ".")) 3) as [E|E]; [|lia].
    eexists. reflexivity.
Qed.

Lemma X26_bumpPatch_error_witness :
  bumpPatch "1.2" = inl (ErrUnexpectedVersionFormat "1.2")
  /\ exists next, bumpPatch "1.2.3" = inr next.
Proof.
  split.
  - apply (X26_bumpPatch_error "1.2"). cbn. lia.
  - apply (X26_bumpPatch_error "1.2.3"). reflexivity.
Defined.

(** X27: when the last of three dot-separated fields holds a byte that
    is no decimal digit, [bumpPatch] reports no error and returns the
    version unchanged. *)
Theorem X27_bumpPatch_keeps_non_numeric (major minor patch : string) :
  count_byte "." major = 0%nat -> count_byte "." minor = 0%nat ->
  count_byte "." patch = 0%nat -> all_digits patch = false ->
  bumpPatch (major +:+ "." +:+ minor +:+ "." +:+ patch)
  = inr (major +:+ "." +:+ minor +:+ "." +:+ patch).
Proof.
  intros H1 H2 H3 Hd.
  rewrite bumpPatch_fields by assumption.
  rewrite inc_non_digit by exact Hd. reflexivity.
Qed.

Lemma X27_bumpPatch_keeps_non_numeric_witness :
  bumpPatch "1.2.3-rc1" = inr "1.2.3-rc1"%string.
Proof.
  apply (X27_bumpPatch_keeps_non_numeric "1" "2" "3-rc1"); reflexivity.
Defined.


(** ** The list of auxiliary tokenizer files *)

Lemma Split_Join (c : ascii) (names : list string) :
  names <> [] ->
  Forall (fun n => count_byte c n = 0%nat) names ->
  Split (Join names (String c EmptyString)) (String c EmptyString) = names.
Proof.
  induction names as [|x rest IH]; intros Hne Hall; [contradiction|].
  apply Forall_cons in Hall as [Hx Hrest].
  destruct rest as [|y rest].
  - cbn [Join]. apply Split_last. exact Hx.
  - change (Join (x :: y :: rest) (String c EmptyString))
      with (x +:+ String c (Join (y :: rest) (String c EmptyString))).
    rewrite Split_cons by exact Hx. f_equal. apply IH; [discriminate|exact Hrest].
Qed.

Lemma Join_nonempty (sep : string) (names : list string) :
  names <> [] -> Forall (fun n => n <> EmptyString) names ->
  Join names sep <> EmptyString.
Proof.
  destruct names as [|x rest]; intros Hne Hall; [contradiction|].
  apply Forall_cons in Hall as [Hx _].
  destruct x as [|ch x]; [contradiction|].
  destruct rest; cbn [Join]; [discriminate|].
  rewrite append_String. discriminate.
Qed.

Lemma modelFiles_loop_keeps (TrimSpace : string -> string)
    (parts out : list string) :
  Forall (fun n => n <> EmptyString /\ TrimSpace n = n) parts ->
  modelFiles_loop TrimSpace parts out = out ++ parts.
Proof.
  revert out; induction parts as [|p rest IH]; intros out Hall.
  - rewrite app_nil_r. reflexivity.
  - apply Forall_cons in Hall as [[Hp Ht] Hrest].
    cbn [modelFiles_loop]. rewrite Ht.
    destruct (String.eqb_spec p EmptyString) as [E|_]; [contradiction|].
    cbn [negb]. rewrite IH by exact Hrest. rewrite <- app_assoc. reflexivity.
Qed.

Lemma modelFiles_loop_inv (TrimSpace : string -> string)
    (Q : string -> Prop) (parts out : list string) :
  (forall p, In p parts -> TrimSpace p <> EmptyString -> Q (TrimSpace p)) ->
  Forall Q out -> Forall Q (modelFiles_loop TrimSpace parts out).
Proof.
  revert out; induction parts as [|p rest IH]; intros out HQ Hout; [exact Hout|].
  cbn [modelFiles_loop].
  destruct (String.eqb_spec (TrimSpace p) EmptyString) as [E|E]; cbn [negb].
  - apply IH; [|exact Hout]. intros q Hq. apply HQ. right. exact Hq.
  - apply IH.
    + intros q Hq. apply HQ. right. exact Hq.
    + apply Forall_app. split; [exact Hout|].
      constructor; [|constructor]. apply HQ; [left; reflexivity|exact E].
Qed.

(** X28: when the environment value is a comma-separated list of one
    or more names, each non-empty, free of commas and unchanged by
    [TrimSpace], [modelFilesList] returns exactly these names, in
    order, and ignores the defaults. *)
Theorem X28_modelFilesList_override (TrimSpace : string -> string)
    (names defaults : list string) :
  names <> [] ->
  Forall (fun n => n <> EmptyString /\ count_byte "," n = 0%nat
                   /\ TrimSpace n = n) names ->
  modelFilesList TrimSpace (Join names ",") defaults = names.
Proof.
  intros Hne Hall. unfold modelFilesList.
  destruct (String.eqb_spec (Join names ",") EmptyString) as [E|_].
  - exfalso. revert E. apply Join_nonempty; [exact Hne|].
    eapply Forall_impl; [exact Hall|]. intros n (H & _). exact H.
  - rewrite (Split_Join "," names Hne)
      by (eapply Forall_impl; [exact Hall|]; intros n (_ & H & _); exact H).
    rewrite modelFiles_loop_keeps
      by (eapply Forall_impl; [exact Hall|]; intros n (H1 & _ & H2); split; assumption).
    cbn [app]. destruct names; [contradiction|reflexivity].
Qed.

Lemma X28_modelFilesList_override_witness :
  modelFilesList trim_ascii "vocab.json,merges.txt" ["tokenizer_config.json"]%string
  = ["vocab.json"; "merges.txt"]%string.
Proof.
  apply (X28_modelFilesList_override trim_ascii
           ["vocab.json"; "merges.txt"]%string ["tokenizer_config.json"]%string).
  - discriminate.
  - repeat constructor; discriminate.
Defined.

(** X29: the list [modelFilesList] returns is either the defaults or a
    non-empty list each of whose entries is non-empty and is the
    trimmed form of one comma-separated field of the environment
    value. *)
Theorem X29_modelFilesList_entries (TrimSpace : string -> string)
    (val : string) (defaults : list string) :
  modelFilesList TrimSpace val defaults = defaults
  \/ (modelFilesList TrimSpace val defaults <> []
      /\ Forall (fun x => x <> EmptyString
                          /\ exists p, In p (Split val ",") /\ x = TrimSpace p)
           (modelFilesList TrimSpace val defaults)).
Proof.
  unfold modelFilesList.
  destruct (String.eqb val EmptyString); [left; reflexivity|].
  destruct (modelFiles_loop TrimSpace (Split val ",") []) as [|x out] eqn:E;
    [left; reflexivity|].
  right. cbn [length Nat.eqb]. split; [discriminate|].
  rewrite <- E. apply modelFiles_loop_inv; [|constructor].
  intros p Hp Hne. split; [exact Hne|]. exists p. split; [exact Hp|reflexivity].
Qed.

(** ** The ONNX Runtime release table *)

Lemma specs_lookup_In (table : list ((string * string) * platformSpec))
    (goos goarch : string) (spec : platformSpec) :
  specs_lookup table goos goarch = Some spec ->
  In ((goos, goarch), spec) table.
Proof.
  induction table as [|[[o a] sp] rest IH]; [discriminate|].
  cbn [specs_lookup].
  destruct (String.eqb_spec goos o) as [->|_]; cbn [andb].
  - destruct (String.eqb_spec goarch a) as [->|_].
    + intros [= ->]. left. reflexivity.
    + intros H. right. apply IH, H.
  - intros H. right. apply IH, H.
Qed.

Lemma slice_from_app_ge (a b : string) (k : nat) :
  slice_from (a +:+ b) (String.length a + k) = slice_from b k.
Proof.
  induction a as [|c a IH]; [reflexivity|].
  rewrite append_String. cbn [String.length Nat.add slice_from]. exact IH.
Qed.

Lemma HasSuffix_app (a b suffix : string) :
  (String.length suffix <= String.length b)%nat ->
  HasSuffix (a +:+ b) suffix = HasSuffix b suffix.
Proof.
  intros H. unfold HasSuffix. rewrite str_length_app.
  replace (String.length a + String.length b - String.length suffix)%nat
    with (String.length a + (String.length b - String.length suffix))%nat by lia.
  rewrite slice_from_app_ge.
  destruct (Nat.leb_spec (String.length suffix) (String.length b)) as [_|E]; [|lia].
  destruct (Nat.leb_spec (String.length suffix)
              (String.length a + String.length b)) as [_|E]; [|lia].
  reflexivity.
Qed.

(** X30: for every platform [platformSpecFor] supports, the download
    address is the release directory followed by the archive file name,
    that name is "onnxruntime-" followed by the cache directory name and
    ".zip" on Windows or ".tgz" elsewhere, and [extractArchive] unpacks
    the archive, stored under any directory, as a zip file exactly on
    Windows. *)
Theorem X30_platform_archive (goos goarch : string) (spec : platformSpec) :
  platformSpecFor goos goarch = inr spec ->
  url spec = baseURL +:+ "/" +:+ archiveFilename spec
  /\ archiveFilename spec
     = "onnxruntime-" +:+ cacheDirName spec
       +:+ (if String.eqb goos "windows" then ".zip" else ".tgz")
  /\ forall dir : string,
       extractArchive_dispatch (dir +:+ archiveFilename spec)
       = if String.eqb goos "windows" then ExtractZip else ExtractTarGz.
Proof.
  unfold platformSpecFor.
  destruct (specs_lookup specs goos goarch) as [sp|] eqn:E; [|discriminate].
  intros [= ->]. apply specs_lookup_In in E.
  assert (Hcases :
    archiveFilename spec
    = "onnxruntime-" +:+ cacheDirName spec
      +:+ (if String.eqb goos "windows" then ".zip" else ".tgz")
    /\ url spec = baseURL +:+ "/" +:+ archiveFilename spec
    /\ HasSuffix (archiveFilename spec) ".zip" = String.eqb goos "windows"
    /\ (4 <= String.length (archiveFilename spec))%nat).
  { cbn [In specs] in E.
    destruct E as [E|[E|[E|[E|[E|[]]]]]]; injection E as <- <- <-;
      vm_compute; repeat split; lia. }
  destruct Hcases as (H1 & H2 & H3 & H4).
  split; [exact H2|]. split; [exact H1|].
  intros dir. unfold extractArchive_dispatch.
  rewrite HasSuffix_app by exact H4. rewrite H3. reflexivity.
Qed.

Lemma X30_platform_archive_witness :
  archiveFilename
    {| url := baseURL +:+ "/onnxruntime-win-x64-" +:+ ortVersion +:+ ".zip";
       libNames := ["onnxruntime.dll"%string]; arch := "x64"; os := "win" |}
  = "onnxruntime-win-x64-1.22.0.zip"%string.
Proof.
  destruct (X30_platform_archive "windows" "amd64"
              {| url := baseURL +:+ "/onnxruntime-win-x64-" +:+ ortVersion +:+ ".zip";
                 libNames := ["onnxruntime.dll"%string]; arch := "x64"; os := "win" |}
              eq_refl) as (_ & H & _).
  exact H.
Defined.
